(** * wanderer-sde: the transformation pipeline, embedded and verified

    A shallow embedding of the Go packages [transformer] and [models] of
    wanderer-sde: the security classifier, the bounds aggregation, the
    faction inheritance, the ship filters, the jump enrichment, the
    deterministic sorting and the output validation.

    Conventions of the embedding:
    - [int64] and [int] values are [Z]; the code only compares and copies
      identifiers and counts, it never does arithmetic on them.
    - [float64] is Rocq's primitive binary64 [float]; its operators are the
      IEEE-754 ones the Go compiler emits.
    - [string] is [string]; [map[K]V] is [gmap K V]; slices, maps and
      [*int64] cells are objects of an explicit store (see [Store]). *)

From Stdlib Require Import ZArith Lia Bool List.
From Stdlib Require Import Floats.
From stdpp Require Import base option list gmap strings sorting pretty.

#[local] Set Warnings "-inexact-float,-clear-no-such-hyp".

Open Scope Z_scope.

(** ** Package math: the functions of Go's standard library the code calls

    [math.Trunc], [math.Floor], [math.Ceil], [math.Round] and [math.Abs] are
    exact operations on binary64 values: each is defined on the decoded
    value (sign, mantissa, exponent) and encoded back. A finite value
    [m * 2^e] with [0 <= e] is already an integer. A zero result keeps the
    sign of the argument, as in Go. *)
Module math.

(** The float of the integer [n] carrying the sign [s]; a zero is signed. *)
Definition SFof_int (s : bool) (n : Z) : spec_float :=
  match n with
  | Z0 => S754_zero s
  | _ => binary_normalize prec emax (cond_Zopp s (Z.abs n)) 0 false
  end.

Definition SFtrunc (x : spec_float) : spec_float :=
  match x with
  | S754_finite s m e =>
      if 0 <=? e then x else SFof_int s (Zpos m / 2 ^ (- e))
  | _ => x
  end.

Definition SFfloor (x : spec_float) : spec_float :=
  match x with
  | S754_finite s m e =>
      if 0 <=? e then x
      else
        let q := Zpos m / 2 ^ (- e) in
        let r := Zpos m mod 2 ^ (- e) in
        if s then SFof_int true (if r =? 0 then q else q + 1)
        else SFof_int false q
  | _ => x
  end.

Definition SFceil (x : spec_float) : spec_float := SFopp (SFfloor (SFopp x)).

(** Half-way cases round away from zero. *)
Definition SFround (x : spec_float) : spec_float :=
  match x with
  | S754_finite s m e =>
      if 0 <=? e then x
      else SFof_int s ((2 * Zpos m + 2 ^ (- e)) / 2 ^ (- e + 1))
  | _ => x
  end.

Definition Trunc (x : float) : float := SF2Prim (SFtrunc (Prim2SF x)).
Definition Floor (x : float) : float := SF2Prim (SFfloor (Prim2SF x)).
Definition Ceil (x : float) : float := SF2Prim (SFceil (Prim2SF x)).
Definition Round (x : float) : float := SF2Prim (SFround (Prim2SF x)).
Definition Abs (x : float) : float := PrimFloat.abs x.

End math.

(** ** security.go: the security classifier *)

(** [TruncateToTwoDigits] truncates a float to 2 decimal places. *)
Definition TruncateToTwoDigits (value : float) : float :=
  (math.Trunc (value * 100) / 100)%float.

Definition GetTrueSecurity (security : float) : float :=
  if ((0.0 <? security) && (security <? 0.05))%float then
    (math.Ceil (security * 10) / 10)%float
  else
    let truncated := TruncateToTwoDigits security in
    let truncatedOneDecimal := (math.Trunc (truncated * 10) / 10)%float in
    let diff :=
      (math.Abs (math.Round ((truncated - truncatedOneDecimal) * 100)) / 100)%float in
    if (diff <? 0.05)%float then truncatedOneDecimal
    else if (0 <=? security)%float then (math.Ceil (truncated * 10) / 10)%float
    else (math.Floor (truncated * 10) / 10)%float.

Definition RoundSecurity (security : float) : float :=
  (math.Round (security * 10) / 10)%float.

(** ** Package models: the records of wanderer.go and sde.go *)

Abbreviation int64 := BinNums.Z.
Abbreviation float64 := PrimFloat.float.

(** An address of the store; a [*int64] is [None] for [nil], or the
    address of an int64 cell. *)
Abbreviation addr := nat.
Abbreviation ptr := (option addr).

Module SolarSystem.
Record t := mk {
  RegionID : int64;
  ConstellationID : int64;
  SolarSystemID : int64;
  SolarSystemName : string;
  X : float64;
  Y : float64;
  Z : float64;
  XMin : float64;
  XMax : float64;
  YMin : float64;
  YMax : float64;
  ZMin : float64;
  ZMax : float64;
  Luminosity : float64;
  Border : bool;
  Fringe : bool;
  Corridor : bool;
  Hub : bool;
  International : bool;
  Regional : bool;
  Constellation : string;
  Security : float64;
  FactionID : ptr;
  Radius : float64;
  SunTypeID : ptr;
  SecurityClass : string
}.

(** [s.FactionID = p] *)
Definition set_FactionID (s : t) (p : ptr) : t :=
  mk (RegionID s) (ConstellationID s) (SolarSystemID s) (SolarSystemName s)
     (X s) (Y s) (Z s) (XMin s) (XMax s) (YMin s) (YMax s) (ZMin s) (ZMax s)
     (Luminosity s) (Border s) (Fringe s) (Corridor s) (Hub s)
     (International s) (Regional s) (Constellation s) (Security s)
     p (Radius s) (SunTypeID s) (SecurityClass s).
End SolarSystem.

Module Region.
Record t := mk {
  RegionID : int64;
  RegionName : string;
  X : float64;
  Y : float64;
  Z : float64;
  XMin : float64;
  XMax : float64;
  YMin : float64;
  YMax : float64;
  ZMin : float64;
  ZMax : float64;
  FactionID : ptr;
  Nebula : int64;
  Radius : float64
}.

(** The six assignments [r.XMin = ..; r.XMax = ..; ...; r.ZMax = ..]. *)
Definition set_bounds (r : t) (xmin xmax ymin ymax zmin zmax : float64) : t :=
  mk (RegionID r) (RegionName r) (X r) (Y r) (Z r)
     xmin xmax ymin ymax zmin zmax (FactionID r) (Nebula r) (Radius r).
End Region.

Module Constellation.
Record t := mk {
  RegionID : int64;
  ConstellationID : int64;
  ConstellationName : string;
  X : float64;
  Y : float64;
  Z : float64;
  XMin : float64;
  XMax : float64;
  YMin : float64;
  YMax : float64;
  ZMin : float64;
  ZMax : float64;
  FactionID : ptr;
  Radius : float64
}.

Definition set_bounds (c : t) (xmin xmax ymin ymax zmin zmax : float64) : t :=
  mk (RegionID c) (ConstellationID c) (ConstellationName c) (X c) (Y c) (Z c)
     xmin xmax ymin ymax zmin zmax (FactionID c) (Radius c).
End Constellation.

Module WormholeClassLocation.
Record t := mk {
  LocationID : int64;
  WormholeClassID : int64
}.
End WormholeClassLocation.

Module InvType.
Record t := mk {
  TypeID : int64;
  GroupID : int64;
  TypeName : string;
  Description : string;
  Mass : float64;
  Volume : float64;
  Capacity : float64;
  PortionSize : int64;
  RaceID : ptr;
  BasePrice : float64;
  Published : bool;
  MarketGroupID : ptr;
  IconID : ptr;
  SoundID : ptr;
  GraphicID : ptr
}.
End InvType.

Module InvGroup.
Record t := mk {
  GroupID : int64;
  CategoryID : int64;
  GroupName : string;
  IconID : ptr;
  UseBasePrice : bool;
  Anchored : bool;
  Anchorable : bool;
  FittableNonSingleton : bool;
  Published : bool
}.
End InvGroup.

Module SystemJump.
Record t := mk {
  FromRegionID : int64;
  FromConstellationID : int64;
  FromSolarSystemID : int64;
  ToSolarSystemID : int64;
  ToConstellationID : int64;
  ToRegionID : int64
}.
End SystemJump.

Module NPCStation.
Record t := mk {
  StationID : int64;
  SolarSystemID : int64;
  OwnerID : int64;
  OwnerName : string;
  TypeID : int64
}.
End NPCStation.

(** The name maps ([map[string]string]) nested in the SDE records are
    values here: no code of the pipeline writes to one. *)
Module SDEType.
Record t := mk {
  GroupID : int64;
  Name : gmap string string;
  Description : gmap string string;
  Mass : float64;
  Volume : float64;
  Capacity : float64;
  PortionSize : int64;
  Published : bool;
  MarketGroupID : int64;
  GraphicID : int64;
  IconID : int64;
  SoundID : int64;
  BasePrice : float64;
  RaceID : int64;
  SofFactionName : string
}.
End SDEType.

Module SDEGroup.
Record t := mk {
  CategoryID : int64;
  Name : gmap string string;
  Published : bool;
  Anchorable : bool;
  Anchored : bool;
  FittableNonSingleton : bool;
  UseBasePrice : bool;
  IconID : int64
}.
End SDEGroup.

Module SDECategory.
Record t := mk {
  Name : gmap string string;
  Published : bool;
  IconID : int64
}.
End SDECategory.

Module SDEPosition.
Record t := mk {
  X : float64;
  Y : float64;
  Z : float64
}.
End SDEPosition.

Module SDENPCStation.
Record t := mk {
  CelestialIndex : int64;
  OperationID : int64;
  OrbitID : int64;
  OrbitIndex : int64;
  OwnerID : int64;
  Position : SDEPosition.t;
  ReprocessingEfficiency : float64;
  ReprocessingHangarFlag : int64;
  ReprocessingStationsTake : float64;
  SolarSystemID : int64;
  TypeID : int64;
  UseOperationName : bool
}.
End SDENPCStation.

Module SDENPCCorporation.
Record t := mk {
  Name : gmap string string;
  StationID : int64;
  Deleted : bool
}.
End SDENPCCorporation.

(** ** The store

    Slices and maps are reference types in Go, and a [*int64] points to a
    cell: the backing array of a slice, the table of a map and an int64 cell
    are objects of the store, and a slice or map value is [nil] or the
    address of its object. Every slice of the pipeline spans its whole
    backing array, so a slice value carries no offset or length. *)
Inductive object :=
  | Int64Cell (v : int64)
  | RegionArray (a : list Region.t)
  | ConstellationArray (a : list Constellation.t)
  | SolarSystemArray (a : list SolarSystem.t)
  | WormholeClassArray (a : list WormholeClassLocation.t)
  | SystemJumpArray (a : list SystemJump.t)
  | InvTypeArray (a : list InvType.t)
  | InvGroupArray (a : list InvGroup.t)
  | NPCStationArray (a : list NPCStation.t)
  | SDETypeMap (m : gmap Z SDEType.t)
  | SDEGroupMap (m : gmap Z SDEGroup.t)
  | SDECategoryMap (m : gmap Z SDECategory.t)
  | SDENPCStationMap (m : gmap Z SDENPCStation.t)
  | SDENPCCorporationMap (m : gmap Z SDENPCCorporation.t).

Abbreviation Store := (list object).

(** [[]T]: [nil], or a slice over the array at an address. *)
Inductive slice (T : Type) := nil_slice | slice_at (a : addr).
Arguments nil_slice {T}.
Arguments slice_at {T} a.

(** [map[int64]V]: [nil], or the map at an address. *)
Inductive gomap (V : Type) := nil_map | map_at (a : addr).
Arguments nil_map {V}.
Arguments map_at {V} a.

(** The element types of the slices, and the value types of the maps. *)
Class Elem (T : Type) := {
  arr : list T -> object;
  un_arr : object -> option (list T);
  un_arr_arr : forall l, un_arr (arr l) = Some l
}.

#[global] Arguments arr : simpl never.
#[global] Arguments un_arr : simpl never.

Class MapVal (V : Type) := {
  tbl : gmap Z V -> object;
  un_tbl : object -> option (gmap Z V);
  un_tbl_tbl : forall m, un_tbl (tbl m) = Some m
}.

#[export] Instance Elem_Region : Elem Region.t :=
  {| arr := RegionArray; un_arr o := match o with RegionArray a => Some a | _ => None end;
     un_arr_arr l := eq_refl |}.
#[export] Instance Elem_Constellation : Elem Constellation.t :=
  {| arr := ConstellationArray;
     un_arr o := match o with ConstellationArray a => Some a | _ => None end;
     un_arr_arr l := eq_refl |}.
#[export] Instance Elem_SolarSystem : Elem SolarSystem.t :=
  {| arr := SolarSystemArray;
     un_arr o := match o with SolarSystemArray a => Some a | _ => None end;
     un_arr_arr l := eq_refl |}.
#[export] Instance Elem_WormholeClassLocation : Elem WormholeClassLocation.t :=
  {| arr := WormholeClassArray;
     un_arr o := match o with WormholeClassArray a => Some a | _ => None end;
     un_arr_arr l := eq_refl |}.
#[export] Instance Elem_SystemJump : Elem SystemJump.t :=
  {| arr := SystemJumpArray;
     un_arr o := match o with SystemJumpArray a => Some a | _ => None end;
     un_arr_arr l := eq_refl |}.
#[export] Instance Elem_InvType : Elem InvType.t :=
  {| arr := InvTypeArray; un_arr o := match o with InvTypeArray a => Some a | _ => None end;
     un_arr_arr l := eq_refl |}.
#[export] Instance Elem_InvGroup : Elem InvGroup.t :=
  {| arr := InvGroupArray; un_arr o := match o with InvGroupArray a => Some a | _ => None end;
     un_arr_arr l := eq_refl |}.
#[export] Instance Elem_NPCStation : Elem NPCStation.t :=
  {| arr := NPCStationArray;
     un_arr o := match o with NPCStationArray a => Some a | _ => None end;
     un_arr_arr l := eq_refl |}.

#[export] Instance MapVal_SDEType : MapVal SDEType.t :=
  {| tbl := SDETypeMap; un_tbl o := match o with SDETypeMap m => Some m | _ => None end;
     un_tbl_tbl m := eq_refl |}.
#[export] Instance MapVal_SDEGroup : MapVal SDEGroup.t :=
  {| tbl := SDEGroupMap; un_tbl o := match o with SDEGroupMap m => Some m | _ => None end;
     un_tbl_tbl m := eq_refl |}.
#[export] Instance MapVal_SDECategory : MapVal SDECategory.t :=
  {| tbl := SDECategoryMap;
     un_tbl o := match o with SDECategoryMap m => Some m | _ => None end;
     un_tbl_tbl m := eq_refl |}.
#[export] Instance MapVal_SDENPCStation : MapVal SDENPCStation.t :=
  {| tbl := SDENPCStationMap;
     un_tbl o := match o with SDENPCStationMap m => Some m | _ => None end;
     un_tbl_tbl m := eq_refl |}.
#[export] Instance MapVal_SDENPCCorporation : MapVal SDENPCCorporation.t :=
  {| tbl := SDENPCCorporationMap;
     un_tbl o := match o with SDENPCCorporationMap m => Some m | _ => None end;
     un_tbl_tbl m := eq_refl |}.

(** The contents of a slice, of a map and of an int64 cell in a store. A
    [nil] slice or map reads as empty, as in Go. *)
Definition elems {T} `{Elem T} (st : Store) (x : slice T) : list T :=
  match x with
  | nil_slice => []
  | slice_at a => default [] (st !! a ≫= un_arr)
  end.

Definition entries {V} `{MapVal V} (st : Store) (x : gomap V) : gmap Z V :=
  match x with
  | nil_map => ∅
  | map_at a => default ∅ (st !! a ≫= un_tbl)
  end.

Definition cell (st : Store) (p : addr) : option int64 :=
  match st !! p with
  | Some (Int64Cell v) => Some v
  | _ => None
  end.

(** ** The state monad of the pipeline *)
Definition M (A : Type) := Store -> A * Store.

#[export] Instance M_ret : MRet M := fun A x st => (x, st).
#[export] Instance M_bind : MBind M :=
  fun A B f m st => let '(x, st') := m st in f x st'.

(** [new(T)], [make], and composite literals: a fresh object sits at the
    address after the last one. *)
Definition alloc (o : object) : M addr := fun st => (length st, st ++ [o]).
Definition write (a : addr) (o : object) : M unit := fun st => (tt, <[a := o]> st).

Definition load_slice {T} `{Elem T} (x : slice T) : M (list T) :=
  fun st => (elems st x, st).
Definition load_map {V} `{MapVal V} (x : gomap V) : M (gmap Z V) :=
  fun st => (entries st x, st).
(** [*p] for a non-nil [p : *int64]. *)
Definition load_int64 (p : addr) : M int64 :=
  fun st => (default 0 (cell st p), st).

(** [x[0], x[1], ... = l]: the in-place update of the elements of [x]. *)
Definition store_slice {T} `{Elem T} (x : slice T) (l : list T) : M unit :=
  match x with
  | nil_slice => mret tt
  | slice_at a => write a (arr l)
  end.

(** A slice literal, or the slice built by [make] and filled by [append]. *)
Definition new_slice {T} `{Elem T} (l : list T) : M (slice T) :=
  a ← alloc (arr l); mret (slice_at a).

(** [result := make([]T, len(x)); copy(result, x)] *)
Definition copy_slice {T} `{Elem T} (x : slice T) : M (slice T) :=
  l ← load_slice x; new_slice l.

Fixpoint mapM {A B} (f : A -> M B) (l : list A) : M (list B) :=
  match l with
  | [] => mret []
  | x :: l' => y ← f x; ys ← mapM f l'; mret (y :: ys)
  end.

(** ** Package sort and package fmt

    [sort.Slice(x, less)] sorts [x] in place. Go promises a permutation of
    the elements in which no element is before one that is less, and no
    stability. The model is a merge sort; the results below use that its
    output is such a permutation, and nothing else about it. *)
Definition not_after {T} (less : T -> T -> bool) : relation T :=
  fun a b => less b a = false.

#[export] Instance not_after_dec {T} (less : T -> T -> bool) a b :
  Decision (not_after less a b).
Proof. unfold not_after. apply _. Defined.

Definition sorted_by {T} (less : T -> T -> bool) (l : list T) : list T :=
  merge_sort (not_after less) l.

Definition sort_Slice {T} `{Elem T} (x : slice T) (less : T -> T -> bool) : M unit :=
  l ← load_slice x; store_slice x (sorted_by less l).

(** The verb [%d] of [fmt.Sprintf]. *)
Definition fmt_d (n : int64) : string := pretty n.

(** ** bounds.go: the geometry aggregator *)

Record bounds := mk_bounds {
  minX : float64; maxX : float64;
  minY : float64; maxY : float64;
  minZ : float64; maxZ : float64
}.

(** The body of the loop of [calculateBounds]. *)
Definition widen (b : bounds) (sys : SolarSystem.t) : bounds :=
  {| minX := if (SolarSystem.X sys <? minX b)%float then SolarSystem.X sys else minX b;
     maxX := if (maxX b <? SolarSystem.X sys)%float then SolarSystem.X sys else maxX b;
     minY := if (SolarSystem.Y sys <? minY b)%float then SolarSystem.Y sys else minY b;
     maxY := if (maxY b <? SolarSystem.Y sys)%float then SolarSystem.Y sys else maxY b;
     minZ := if (SolarSystem.Z sys <? minZ b)%float then SolarSystem.Z sys else minZ b;
     maxZ := if (maxZ b <? SolarSystem.Z sys)%float then SolarSystem.Z sys else maxZ b |}.

Definition calculateBounds (systems : list SolarSystem.t) : bounds :=
  match systems with
  | [] => mk_bounds 0 0 0 0 0 0
  | s0 :: rest =>
      fold_left widen rest
        {| minX := SolarSystem.X s0; maxX := SolarSystem.X s0;
           minY := SolarSystem.Y s0; maxY := SolarSystem.Y s0;
           minZ := SolarSystem.Z s0; maxZ := SolarSystem.Z s0 |}
  end.

(** [m[key(sys)] = append(m[key(sys)], sys)] for every system, in order. *)
Definition systems_by (key : SolarSystem.t -> int64) (systems : list SolarSystem.t)
  : gmap Z (list SolarSystem.t) :=
  fold_left (fun m sys => <[key sys := default [] (m !! key sys) ++ [sys]]> m) systems ∅.

(** The body of the loop over [regions]. *)
Definition region_with_bounds (regionSystems : gmap Z (list SolarSystem.t))
    (r : Region.t) : Region.t :=
  let sysList := default [] (regionSystems !! Region.RegionID r) in
  if decide (length sysList = 0%nat) then r
  else
    let b := calculateBounds sysList in
    Region.set_bounds r (minX b) (maxX b) (minY b) (maxY b) (minZ b) (maxZ b).

Definition CalculateRegionBounds (regions : slice Region.t)
    (systems : slice SolarSystem.t) : M unit :=
  ss ← load_slice systems;
  let regionSystems := systems_by SolarSystem.RegionID ss in
  rs ← load_slice regions;
  store_slice regions (region_with_bounds regionSystems <$> rs).

Definition constellation_with_bounds (constellationSystems : gmap Z (list SolarSystem.t))
    (c : Constellation.t) : Constellation.t :=
  let sysList := default [] (constellationSystems !! Constellation.ConstellationID c) in
  if decide (length sysList = 0%nat) then c
  else
    let b := calculateBounds sysList in
    Constellation.set_bounds c (minX b) (maxX b) (minY b) (maxY b) (minZ b) (maxZ b).

Definition CalculateConstellationBounds (constellations : slice Constellation.t)
    (systems : slice SolarSystem.t) : M unit :=
  ss ← load_slice systems;
  let constellationSystems := systems_by SolarSystem.ConstellationID ss in
  cs ← load_slice constellations;
  store_slice constellations (constellation_with_bounds constellationSystems <$> cs).

(** ** bounds.go: the inheritance resolver *)

(** [regionFactions[region.RegionID] = region.FactionID] for every region. *)
Definition region_factions (regions : list Region.t) : gmap Z ptr :=
  fold_left (fun m r => <[Region.RegionID r := Region.FactionID r]> m) regions ∅.

(** The body of the loop over [systems]: [val := *factionID] reads the cell
    of the region, [&val] is a new cell. *)
Definition inherit_faction (regionFactions : gmap Z ptr) (sys : SolarSystem.t)
  : M SolarSystem.t :=
  match SolarSystem.FactionID sys with
  | Some _ => mret sys
  | None =>
      match regionFactions !! SolarSystem.RegionID sys with
      | Some (Some factionID) =>
          val ← load_int64 factionID;
          p ← alloc (Int64Cell val);
          mret (SolarSystem.set_FactionID sys (Some p))
      | _ => mret sys
      end
  end.

Definition InheritFactionIDs (systems : slice SolarSystem.t)
    (regions : slice Region.t) : M unit :=
  rs ← load_slice regions;
  let regionFactions := region_factions rs in
  ss ← load_slice systems;
  ss' ← mapM (inherit_faction regionFactions) ss;
  store_slice systems ss'.

(** ** filters.go and transformer.go *)

Definition ShipCategoryID : int64 := 6.

Module UniverseData.
Record t := mk {
  Regions : slice Region.t;
  Constellations : slice Constellation.t;
  SolarSystems : slice SolarSystem.t
}.
End UniverseData.

(** [Universe] is a [*UniverseData] in Go; [Transform] always sets it and
    [Validate] dereferences it, so it is the record itself here. *)
Module ConvertedData.
Record t := mk {
  Universe : UniverseData.t;
  InvTypes : slice InvType.t;
  InvGroups : slice InvGroup.t;
  WormholeClasses : slice WormholeClassLocation.t;
  SystemJumps : slice SystemJump.t;
  NPCStations : slice NPCStation.t
}.
End ConvertedData.

Module ParseResult.
Record t := mk {
  Regions : slice Region.t;
  Constellations : slice Constellation.t;
  SolarSystems : slice SolarSystem.t;
  Types : gomap SDEType.t;
  Groups : gomap SDEGroup.t;
  Categories : gomap SDECategory.t;
  WormholeClasses : slice WormholeClassLocation.t;
  SystemJumps : slice SystemJump.t;
  NPCStations : gomap SDENPCStation.t;
  NPCCorporations : gomap SDENPCCorporation.t
}.
End ParseResult.

Module ValidationResult.
Record t := mk {
  SolarSystems : int64;
  Regions : int64;
  Constellations : int64;
  InvTypes : int64;
  InvGroups : int64;
  SystemJumps : int64;
  WormholeClasses : int64;
  NPCStations : int64;
  Errors : list string;
  Warnings : list string
}.

Definition IsValid (v : t) : bool := bool_decide (length (Errors v) = 0%nat).
End ValidationResult.

(** [error]: [nil], or a message. *)
Definition error := option string.

(** The lines the code prints when [config.Verbose] is set go to the
    standard output and change no value: they are left out. *)

Definition getLocalizedName (names : gmap string string) (lang context : string)
  : string :=
  match names !! lang with
  | Some name => name
  | None => ""
  end.

Definition less_SolarSystem (a b : SolarSystem.t) : bool :=
  SolarSystem.SolarSystemID a <? SolarSystem.SolarSystemID b.
Definition less_Region (a b : Region.t) : bool :=
  Region.RegionID a <? Region.RegionID b.
Definition less_Constellation (a b : Constellation.t) : bool :=
  Constellation.ConstellationID a <? Constellation.ConstellationID b.
Definition less_WormholeClass (a b : WormholeClassLocation.t) : bool :=
  WormholeClassLocation.LocationID a <? WormholeClassLocation.LocationID b.
Definition less_InvType (a b : InvType.t) : bool :=
  InvType.TypeID a <? InvType.TypeID b.
Definition less_InvGroup (a b : InvGroup.t) : bool :=
  InvGroup.GroupID a <? InvGroup.GroupID b.
Definition less_NPCStation (a b : NPCStation.t) : bool :=
  NPCStation.StationID a <? NPCStation.StationID b.
Definition less_SystemJump (a b : SystemJump.t) : bool :=
  if negb (SystemJump.FromSolarSystemID a =? SystemJump.FromSolarSystemID b)
  then SystemJump.FromSolarSystemID a <? SystemJump.FromSolarSystemID b
  else SystemJump.ToSolarSystemID a <? SystemJump.ToSolarSystemID b.

Definition transformSolarSystems (systems : slice SolarSystem.t)
  : M (slice SolarSystem.t) :=
  result ← copy_slice systems;
  sort_Slice result less_SolarSystem;;
  mret result.

Definition sortRegions (regions : slice Region.t) : M (slice Region.t) :=
  result ← copy_slice regions;
  sort_Slice result less_Region;;
  mret result.

Definition sortConstellations (constellations : slice Constellation.t)
  : M (slice Constellation.t) :=
  result ← copy_slice constellations;
  sort_Slice result less_Constellation;;
  mret result.

Definition sortWormholeClasses (classes : slice WormholeClassLocation.t)
  : M (slice WormholeClassLocation.t) :=
  result ← copy_slice classes;
  sort_Slice result less_WormholeClass;;
  mret result.

(** The first loop of [transformShipTypes], over the entries of [groups]. *)
Definition ship_group_ids (groups : list (Z * SDEGroup.t)) : gmap Z bool :=
  fold_left
    (fun shipGroupIDs '(groupID, group) =>
       if decide (SDEGroup.CategoryID group = ShipCategoryID)
       then <[groupID := true]> shipGroupIDs
       else shipGroupIDs)
    groups ∅.

Definition ship_type (typeID : int64) (sdeType : SDEType.t) : InvType.t :=
  {| InvType.TypeID := typeID;
     InvType.GroupID := SDEType.GroupID sdeType;
     InvType.TypeName :=
       getLocalizedName (SDEType.Name sdeType) "en" ("type " +:+ fmt_d typeID);
     InvType.Description := "";
     InvType.Mass := SDEType.Mass sdeType;
     InvType.Volume := SDEType.Volume sdeType;
     InvType.Capacity := SDEType.Capacity sdeType;
     InvType.PortionSize := 0;
     InvType.RaceID := None;
     InvType.BasePrice := 0;
     InvType.Published := SDEType.Published sdeType;
     InvType.MarketGroupID := None;
     InvType.IconID := None;
     InvType.SoundID := None;
     InvType.GraphicID := None |}.

(** The second loop of [transformShipTypes], over the entries of [types]. *)
Definition ship_types (shipGroupIDs : gmap Z bool) (types : list (Z * SDEType.t))
  : list InvType.t :=
  fold_left
    (fun result '(typeID, sdeType) =>
       if negb (default false (shipGroupIDs !! SDEType.GroupID sdeType))
       then result
       else result ++ [ship_type typeID sdeType])
    types [].

Definition ship_group (groupID : int64) (sdeGroup : SDEGroup.t) : InvGroup.t :=
  {| InvGroup.GroupID := groupID;
     InvGroup.CategoryID := SDEGroup.CategoryID sdeGroup;
     InvGroup.GroupName :=
       getLocalizedName (SDEGroup.Name sdeGroup) "en" ("group " +:+ fmt_d groupID);
     InvGroup.IconID := None;
     InvGroup.UseBasePrice := false;
     InvGroup.Anchored := false;
     InvGroup.Anchorable := false;
     InvGroup.FittableNonSingleton := false;
     InvGroup.Published := false |}.

(** The loop of [transformShipGroups]. *)
Definition ship_groups (groups : list (Z * SDEGroup.t)) : list InvGroup.t :=
  fold_left
    (fun result '(groupID, sdeGroup) =>
       if decide (SDEGroup.CategoryID sdeGroup ≠ ShipCategoryID)
       then result
       else result ++ [ship_group groupID sdeGroup])
    groups [].

Definition npc_station (corps : gmap Z SDENPCCorporation.t)
    (stationID : int64) (sdeStation : SDENPCStation.t) : NPCStation.t :=
  let ownerName :=
    match corps !! SDENPCStation.OwnerID sdeStation with
    | Some corp =>
        getLocalizedName (SDENPCCorporation.Name corp) "en"
          ("corporation " +:+ fmt_d (SDENPCStation.OwnerID sdeStation))
    | None => ""
    end in
  {| NPCStation.StationID := stationID;
     NPCStation.SolarSystemID := SDENPCStation.SolarSystemID sdeStation;
     NPCStation.OwnerID := SDENPCStation.OwnerID sdeStation;
     NPCStation.OwnerName := ownerName;
     NPCStation.TypeID := SDENPCStation.TypeID sdeStation |}.

(** The loop of [transformNPCStations]. *)
Definition npc_stations (corps : gmap Z SDENPCCorporation.t)
    (stations : list (Z * SDENPCStation.t)) : list NPCStation.t :=
  fold_left
    (fun result '(stationID, sdeStation) =>
       result ++ [npc_station corps stationID sdeStation])
    stations [].

(** [systemLookup[sys.SolarSystemID] = sys] for every system, in order. *)
Definition system_lookup (systems : list SolarSystem.t) : gmap Z SolarSystem.t :=
  fold_left (fun m sys => <[SolarSystem.SolarSystemID sys := sys]> m) systems ∅.

(** The body of the loop of [transformSystemJumps]. *)
Definition enrich_jump (systemLookup : gmap Z SolarSystem.t) (jump : SystemJump.t)
  : SystemJump.t :=
  let from := systemLookup !! SystemJump.FromSolarSystemID jump in
  let to := systemLookup !! SystemJump.ToSolarSystemID jump in
  {| SystemJump.FromRegionID :=
       match from with Some fromSys => SolarSystem.RegionID fromSys | None => 0 end;
     SystemJump.FromConstellationID :=
       match from with Some fromSys => SolarSystem.ConstellationID fromSys | None => 0 end;
     SystemJump.FromSolarSystemID := SystemJump.FromSolarSystemID jump;
     SystemJump.ToSolarSystemID := SystemJump.ToSolarSystemID jump;
     SystemJump.ToConstellationID :=
       match to with Some toSys => SolarSystem.ConstellationID toSys | None => 0 end;
     SystemJump.ToRegionID :=
       match to with Some toSys => SolarSystem.RegionID toSys | None => 0 end |}.

Definition transformSystemJumps (jumps : slice SystemJump.t)
    (systems : slice SolarSystem.t) : M (slice SystemJump.t) :=
  ss ← load_slice systems;
  let systemLookup := system_lookup ss in
  js ← load_slice jumps;
  result ← new_slice (enrich_jump systemLookup <$> js);
  sort_Slice result less_SystemJump;;
  mret result.

(** [for k, v := range m]: Go visits the entries of a map in an order it
    does not specify, and the order may differ from one loop to the next.
    The functions that range over a map take the order as a parameter
    [range_map], of which only [range_map_spec] is known: the entries
    visited are the entries of the map, each once. *)
Section Ranging.

Variable range_map : forall V : Type, gmap Z V -> list (Z * V).
Hypothesis range_map_spec :
  forall (V : Type) (m : gmap Z V), range_map V m ≡ₚ map_to_list m.

Definition transformShipTypes (types : gomap SDEType.t) (groups : gomap SDEGroup.t)
  : M (slice InvType.t) :=
  gm ← load_map groups;
  let shipGroupIDs := ship_group_ids (range_map _ gm) in
  tm ← load_map types;
  result ← new_slice (ship_types shipGroupIDs (range_map _ tm));
  sort_Slice result less_InvType;;
  mret result.

Definition transformShipGroups (groups : gomap SDEGroup.t) : M (slice InvGroup.t) :=
  gm ← load_map groups;
  result ← new_slice (ship_groups (range_map _ gm));
  sort_Slice result less_InvGroup;;
  mret result.

Definition transformNPCStations (stations : gomap SDENPCStation.t)
    (corps : gomap SDENPCCorporation.t) : M (slice NPCStation.t) :=
  sm ← load_map stations;
  cm ← load_map corps;
  result ← new_slice (npc_stations cm (range_map _ sm));
  sort_Slice result less_NPCStation;;
  mret result.

Definition Transform (parseResult : ParseResult.t) : M (ConvertedData.t * error) :=
  systems ← transformSolarSystems (ParseResult.SolarSystems parseResult);
  regions ← sortRegions (ParseResult.Regions parseResult);
  constellations ← sortConstellations (ParseResult.Constellations parseResult);
  invGroups ← transformShipGroups (ParseResult.Groups parseResult);
  invTypes ← transformShipTypes (ParseResult.Types parseResult)
               (ParseResult.Groups parseResult);
  wormholeClasses ← sortWormholeClasses (ParseResult.WormholeClasses parseResult);
  systemJumps ← transformSystemJumps (ParseResult.SystemJumps parseResult) systems;
  CalculateRegionBounds regions systems;;
  CalculateConstellationBounds constellations systems;;
  InheritFactionIDs systems regions;;
  npcStations ← transformNPCStations (ParseResult.NPCStations parseResult)
                  (ParseResult.NPCCorporations parseResult);
  mret ({| ConvertedData.Universe :=
             {| UniverseData.Regions := regions;
                UniverseData.Constellations := constellations;
                UniverseData.SolarSystems := systems |};
           ConvertedData.InvTypes := invTypes;
           ConvertedData.InvGroups := invGroups;
           ConvertedData.WormholeClasses := wormholeClasses;
           ConvertedData.SystemJumps := systemJumps;
           ConvertedData.NPCStations := npcStations |}, None).

End Ranging.

(** [len(x)] *)
Definition len {T} (l : list T) : int64 := Z.of_nat (length l).

Definition minSolarSystems : int64 := 8000.
Definition minRegions : int64 := 100.
Definition minConstellations : int64 := 1000.
Definition minShipTypes : int64 := 500.
Definition minShipGroups : int64 := 30.
Definition minSystemJumps : int64 := 13000.
Definition minWormholeClasses : int64 := 750.
Definition minNPCStations : int64 := 40.

(** [if count < min { msgs = append(msgs, fmt.Sprintf(what + " count (%d)
    is below expected minimum (%d)", count, min)) }] *)
Definition warn_below (what : string) (count min : int64) (msgs : list string)
  : list string :=
  if count <? min
  then msgs ++ [what +:+ " count (" +:+ fmt_d count
                  +:+ ") is below expected minimum (" +:+ fmt_d min +:+ ")"]
  else msgs.

(** [if count == 0 { msgs = append(msgs, msg) }] *)
Definition error_if_empty (msg : string) (count : int64) (msgs : list string)
  : list string :=
  if count =? 0 then msgs ++ [msg] else msgs.

Definition Validate (data : ConvertedData.t) : M ValidationResult.t :=
  solarSystems ← load_slice (UniverseData.SolarSystems (ConvertedData.Universe data));
  regions ← load_slice (UniverseData.Regions (ConvertedData.Universe data));
  constellations ← load_slice (UniverseData.Constellations (ConvertedData.Universe data));
  invTypes ← load_slice (ConvertedData.InvTypes data);
  invGroups ← load_slice (ConvertedData.InvGroups data);
  systemJumps ← load_slice (ConvertedData.SystemJumps data);
  wormholeClasses ← load_slice (ConvertedData.WormholeClasses data);
  npcStations ← load_slice (ConvertedData.NPCStations data);
  let warnings := [] in
  let warnings := warn_below "Solar system" (len solarSystems) minSolarSystems warnings in
  let warnings := warn_below "Region" (len regions) minRegions warnings in
  let warnings := warn_below "Constellation" (len constellations) minConstellations warnings in
  let warnings := warn_below "Ship type" (len invTypes) minShipTypes warnings in
  let warnings := warn_below "Ship group" (len invGroups) minShipGroups warnings in
  let warnings := warn_below "System jump" (len systemJumps) minSystemJumps warnings in
  let warnings := warn_below "Wormhole class" (len wormholeClasses) minWormholeClasses warnings in
  let warnings := warn_below "NPC station" (len npcStations) minNPCStations warnings in
  let errors := [] in
  let errors := error_if_empty "No solar systems found" (len solarSystems) errors in
  let errors := error_if_empty "No regions found" (len regions) errors in
  let errors := error_if_empty "No constellations found" (len constellations) errors in
  mret {| ValidationResult.SolarSystems := len solarSystems;
          ValidationResult.Regions := len regions;
          ValidationResult.Constellations := len constellations;
          ValidationResult.InvTypes := len invTypes;
          ValidationResult.InvGroups := len invGroups;
          ValidationResult.SystemJumps := len systemJumps;
          ValidationResult.WormholeClasses := len wormholeClasses;
          ValidationResult.NPCStations := len npcStations;
          ValidationResult.Errors := errors;
          ValidationResult.Warnings := warnings |}.



(** ** filters.go: the stand-alone filters *)

(** [var x []T] followed by [append]s in a loop: [x] stays [nil] when the
    loop appends nothing, and is a slice over a new array otherwise. *)
Definition appended {T} `{Elem T} (l : list T) : M (slice T) :=
  match l with
  | [] => mret nil_slice
  | _ => new_slice l
  end.

(** [make(map[int64]V)] filled by the assignments of a loop: a new map. *)
Definition new_map {V} `{MapVal V} (m : gmap Z V) : M (gomap V) :=
  a ← alloc (tbl m); mret (map_at a).

(** The composite literal of [FilterShipTypes]: the fields it does not name
    have their zero values. *)
Definition filter_ship_type (typeID : int64) (typeData : SDEType.t) : InvType.t :=
  {| InvType.TypeID := typeID;
     InvType.GroupID := SDEType.GroupID typeData;
     InvType.TypeName := default "" (SDEType.Name typeData !! "en");
     InvType.Description := "";
     InvType.Mass := SDEType.Mass typeData;
     InvType.Volume := SDEType.Volume typeData;
     InvType.Capacity := SDEType.Capacity typeData;
     InvType.PortionSize := 0;
     InvType.RaceID := None;
     InvType.BasePrice := 0;
     InvType.Published := false;
     InvType.MarketGroupID := None;
     InvType.IconID := None;
     InvType.SoundID := None;
     InvType.GraphicID := None |}.

(** The second loop of [FilterShipTypes]; its first loop is the first loop
    of [transformShipTypes], [ship_group_ids]. *)
Definition filter_ship_types (shipGroupIDs : gmap Z bool) (types : list (Z * SDEType.t))
  : list InvType.t :=
  fold_left
    (fun ships '(typeID, typeData) =>
       if default false (shipGroupIDs !! SDEType.GroupID typeData)
       then ships ++ [filter_ship_type typeID typeData]
       else ships)
    types [].

Definition filter_ship_group (groupID : int64) (group : SDEGroup.t) : InvGroup.t :=
  {| InvGroup.GroupID := groupID;
     InvGroup.CategoryID := SDEGroup.CategoryID group;
     InvGroup.GroupName := default "" (SDEGroup.Name group !! "en");
     InvGroup.IconID := None;
     InvGroup.UseBasePrice := false;
     InvGroup.Anchored := false;
     InvGroup.Anchorable := false;
     InvGroup.FittableNonSingleton := false;
     InvGroup.Published := false |}.

(** The loop of [FilterShipGroups]. *)
Definition filter_ship_groups (groups : list (Z * SDEGroup.t)) : list InvGroup.t :=
  fold_left
    (fun shipGroups '(groupID, group) =>
       if decide (SDEGroup.CategoryID group = ShipCategoryID)
       then shipGroups ++ [filter_ship_group groupID group]
       else shipGroups)
    groups [].

(** The loops of [FilterPublishedTypes] and [FilterPublishedGroups]. *)
Definition published_types (types : list (Z * SDEType.t)) : gmap Z SDEType.t :=
  fold_left
    (fun published '(typeID, typeData) =>
       if SDEType.Published typeData then <[typeID := typeData]> published
       else published)
    types ∅.

Definition published_groups (groups : list (Z * SDEGroup.t)) : gmap Z SDEGroup.t :=
  fold_left
    (fun published '(groupID, groupData) =>
       if SDEGroup.Published groupData then <[groupID := groupData]> published
       else published)
    groups ∅.

(** ** npc_stations.go (package parser): the blue loot buyers *)

(** A package variable that no code assigns to. *)
Definition blueLootBuyerCorpIDs : gmap Z bool := {[ 1000137 := true ]}.

Definition IsBlueLootBuyer (corpID : int64) : bool :=
  default false (blueLootBuyerCorpIDs !! corpID).

(** The loop of [FilterBlueLootStations]. *)
Definition blue_loot_stations (stations : list (Z * SDENPCStation.t))
  : gmap Z SDENPCStation.t :=
  fold_left
    (fun filtered '(stationID, station) =>
       if IsBlueLootBuyer (SDENPCStation.OwnerID station)
       then <[stationID := station]> filtered
       else filtered)
    stations ∅.

Section Ranging_filters.

Variable range_map : forall V : Type, gmap Z V -> list (Z * V).

Definition FilterShipTypes (types : gomap SDEType.t) (groups : gomap SDEGroup.t)
  : M (slice InvType.t) :=
  gm ← load_map groups;
  let shipGroupIDs := ship_group_ids (range_map _ gm) in
  tm ← load_map types;
  ships ← appended (filter_ship_types shipGroupIDs (range_map _ tm));
  sort_Slice ships less_InvType;;
  mret ships.

Definition FilterShipGroups (groups : gomap SDEGroup.t) : M (slice InvGroup.t) :=
  gm ← load_map groups;
  shipGroups ← appended (filter_ship_groups (range_map _ gm));
  sort_Slice shipGroups less_InvGroup;;
  mret shipGroups.

Definition FilterPublishedTypes (types : gomap SDEType.t) : M (gomap SDEType.t) :=
  tm ← load_map types;
  new_map (published_types (range_map _ tm)).

Definition FilterPublishedGroups (groups : gomap SDEGroup.t) : M (gomap SDEGroup.t) :=
  gm ← load_map groups;
  new_map (published_groups (range_map _ gm)).

Definition FilterBlueLootStations (stations : gomap SDENPCStation.t)
  : M (gomap SDENPCStation.t) :=
  sm ← load_map stations;
  new_map (blue_loot_stations (range_map _ sm)).

End Ranging_filters.

(** ** Notions the properties are stated with *)

(** A store [st'] keeps a store [st]: every object of [st] is in [st'], at
    its address. *)
Definition keeps (st st' : Store) : Prop :=
  forall a o, st !! a = Some o -> st' !! a = Some o.

(** A slice is valid in a store when it is [nil] or the store has an array
    of its element type at its address. *)
Definition valid_slice {T} `{Elem T} (st : Store) (x : slice T) : Prop :=
  match x with
  | nil_slice => True
  | slice_at a => exists l : list T, st !! a = Some (arr l)
  end.

Definition valid_map {V} `{MapVal V} (st : Store) (x : gomap V) : Prop :=
  match x with
  | nil_map => True
  | map_at a => exists m : gmap Z V, st !! a = Some (tbl m)
  end.

(** Ascending order of a key: an element's key is at most the key of every
    later element; strictly ascending when it is less. *)
Definition ascending {T} (key : T -> Z) (l : list T) : Prop :=
  StronglySorted Z.le (key <$> l).

Definition strictly_ascending {T} (key : T -> Z) (l : list T) : Prop :=
  StronglySorted Z.lt (key <$> l).

(** The order of pairs by the first component, then by the second. *)
Definition pair_le (a b : Z * Z) : Prop :=
  a.1 < b.1 \/ (a.1 = b.1 /\ a.2 <= b.2).

Definition ascending_pairs {T} (key : T -> Z * Z) (l : list T) : Prop :=
  StronglySorted pair_le (key <$> l).


(** The message list [[msg]] when [b] holds, and the empty list otherwise. *)
Definition when (b : bool) (msg : string) : list string :=
  if b then [msg] else [].

(** The warning [Validate] gives for a count below its minimum. *)
Definition below_minimum (what : string) (count min : int64) : string :=
  what +:+ " count (" +:+ fmt_d count
    +:+ ") is below expected minimum (" +:+ fmt_d min +:+ ")".

Definition jump_key (j : SystemJump.t) : Z * Z :=
  (SystemJump.FromSolarSystemID j, SystemJump.ToSolarSystemID j).

(** What the loops of [transformShipTypes] and [transformShipGroups] append
    for one entry of the map. *)
Definition select_type (shipGroupIDs : gmap Z bool) (e : Z * SDEType.t)
  : option InvType.t :=
  if default false (shipGroupIDs !! SDEType.GroupID e.2)
  then Some (ship_type e.1 e.2) else None.

Definition select_group (e : Z * SDEGroup.t) : option InvGroup.t :=
  if decide (SDEGroup.CategoryID e.2 = ShipCategoryID)
  then Some (ship_group e.1 e.2) else None.


(** [m] is a least, or a greatest, value of [xs] in the order [<=] of
    float64. *)
Definition is_min (xs : list float64) (m : float64) : Prop :=
  m ∈ xs /\ forall x, x ∈ xs -> (m <=? x)%float = true.

Definition is_max (xs : list float64) (m : float64) : Prop :=
  m ∈ xs /\ forall x, x ∈ xs -> (x <=? m)%float = true.

(** None of the values is a NaN. *)
Definition no_nan (xs : list float64) : Prop :=
  forall x, x ∈ xs -> PrimFloat.is_nan x = false.

(** The running minimum and maximum of the loop of [calculateBounds]. *)
Definition fmin (m x : float64) : float64 := if (x <? m)%float then x else m.
Definition fmax (m x : float64) : float64 := if (m <? x)%float then x else m.

(** [f == 0] on float64. *)
Definition is_zero (f : float64) : bool := (f =? 0)%float.


(** The six values are the bounds of the coordinates of [children]: on each
    axis whose coordinates have no NaN, the least and the greatest one. *)
Definition bounds_of (children : list SolarSystem.t)
    (xmin xmax ymin ymax zmin zmax : float64) : Prop :=
  (no_nan (SolarSystem.X <$> children) ->
   is_min (SolarSystem.X <$> children) xmin /\ is_max (SolarSystem.X <$> children) xmax)
  /\ (no_nan (SolarSystem.Y <$> children) ->
      is_min (SolarSystem.Y <$> children) ymin
      /\ is_max (SolarSystem.Y <$> children) ymax)
  /\ (no_nan (SolarSystem.Z <$> children) ->
      is_min (SolarSystem.Z <$> children) zmin
      /\ is_max (SolarSystem.Z <$> children) zmax).

(** The systems of a region, and of a constellation. *)
Definition region_children (r : Region.t) (systems : list SolarSystem.t)
  : list SolarSystem.t :=
  filter (fun s => SolarSystem.RegionID s = Region.RegionID r) systems.

Definition constellation_children (c : Constellation.t) (systems : list SolarSystem.t)
  : list SolarSystem.t :=
  filter (fun s => SolarSystem.ConstellationID s = Constellation.ConstellationID c)
    systems.


(** The cell a system inherits from: the FactionID of its region in
    [regionFactions] when the system has none of its own and its region
    has one. *)
Definition inherits (regionFactions : gmap Z ptr) (sys : SolarSystem.t) : option addr :=
  match SolarSystem.FactionID sys with
  | Some _ => None
  | None =>
      match regionFactions !! SolarSystem.RegionID sys with
      | Some (Some factionID) => Some factionID
      | _ => None
      end
  end.

(** The loop of [InheritFactionIDs] in closed form: the systems after the
    loop and the cells it allocates, the first of them at [next], when the
    cells of the regions are in [st0]. *)
Fixpoint inherit_all (regionFactions : gmap Z ptr) (st0 : Store) (next : addr)
    (systems : list SolarSystem.t) : list SolarSystem.t * list object :=
  match systems with
  | [] => ([], [])
  | sys :: rest =>
      match inherits regionFactions sys with
      | Some q =>
          let '(rest', cells) := inherit_all regionFactions st0 (S next) rest in
          (SolarSystem.set_FactionID sys (Some next) :: rest',
           Int64Cell (default 0 (cell st0 q)) :: cells)
      | None =>
          let '(rest', cells) := inherit_all regionFactions st0 next rest in
          (sys :: rest', cells)
      end
  end.


(** Two systems that differ in their FactionID at most. *)
Definition same_but_faction (s s' : SolarSystem.t) : Prop :=
  SolarSystem.set_FactionID s' None = SolarSystem.set_FactionID s None.

(** An object of the store that is an int64 cell. *)
Definition is_cell (o : object) : Prop := exists v, o = Int64Cell v.


(** The collections of a parse result are slices and maps of the store. *)
Definition valid_input (st : Store) (parseResult : ParseResult.t) : Prop :=
  valid_slice st (ParseResult.Regions parseResult)
  /\ valid_slice st (ParseResult.Constellations parseResult)
  /\ valid_slice st (ParseResult.SolarSystems parseResult)
  /\ valid_map st (ParseResult.Types parseResult)
  /\ valid_map st (ParseResult.Groups parseResult)
  /\ valid_map st (ParseResult.Categories parseResult)
  /\ valid_slice st (ParseResult.WormholeClasses parseResult)
  /\ valid_slice st (ParseResult.SystemJumps parseResult)
  /\ valid_map st (ParseResult.NPCStations parseResult)
  /\ valid_map st (ParseResult.NPCCorporations parseResult).

(** The ID and the raw security of a system. *)
Definition id_and_security (s : SolarSystem.t) : Z * float64 :=
  (SolarSystem.SolarSystemID s, SolarSystem.Security s).


(** ** A small universe

    Two regions, one constellation and two systems, as in the test of
    [Transform]: Jita has no FactionID and its region The Forge has one;
    Tanoo and its region Derelik have none. *)
Module Example.

Definition jita : SolarSystem.t :=
  SolarSystem.mk 10000002 20000020 30000142 "Jita" 1 2 3 0 0 0 0 0 0 0
    false false false false false false "None" 0.9459 None 0 (Some 0%nat) "".

Definition tanoo : SolarSystem.t :=
  SolarSystem.mk 10000001 20000001 30000001 "Tanoo" (-1) 5 6 0 0 0 0 0 0 0
    false false false false false false "None" 0.047 None 0 (Some 1%nat) "".

Definition forge : Region.t :=
  Region.mk 10000002 "The Forge" 0 0 0 0 0 0 0 0 0 (Some 2%nat) 0 0.

Definition derelik : Region.t :=
  Region.mk 10000001 "Derelik" 0 0 0 0 0 0 0 0 0 None 0 0.

Definition kimotoro : Constellation.t :=
  Constellation.mk 10000002 20000020 "Kimotoro" 0 0 0 0 0 0 0 0 0 None 0.

Definition sde_type (group : Z) (name : string) : SDEType.t :=
  SDEType.mk group {[ "en" := name ]} ∅ 1350000 27500 0 0 true 0 0 0 0 0 0 "".

Definition sde_group (category : Z) (name : string) : SDEGroup.t :=
  SDEGroup.mk category {[ "en" := name ]} true false false false false 0.

Definition store : Store :=
  [ Int64Cell 6; Int64Cell 7; Int64Cell 500001;
    RegionArray [forge; derelik];
    ConstellationArray [kimotoro];
    SolarSystemArray [jita; tanoo];
    SDETypeMap {[ 587 := sde_type 25 "Rifter"; 588 := sde_type 25 "Slasher";
                  2456 := sde_type 18 "Hobgoblin I" ]};
    SDEGroupMap {[ 25 := sde_group 6 "Frigate"; 18 := sde_group 7 "Drone" ]};
    SDECategoryMap ∅;
    WormholeClassArray [WormholeClassLocation.mk 31000001 3];
    SystemJumpArray [SystemJump.mk 0 0 30000142 30000001 0 0;
                     SystemJump.mk 0 0 30000001 30000142 0 0];
    SDENPCStationMap
      {[ 60012736 := SDENPCStation.mk 0 0 0 0 1000137 (SDEPosition.mk 0 0 0)
                       0 0 0 30000142 2501 false ]};
    SDENPCCorporationMap
      {[ 1000137 := SDENPCCorporation.mk {[ "en" := "DED" ]} 0 false ]} ].

Definition parseResult : ParseResult.t :=
  {| ParseResult.Regions := slice_at 3;
     ParseResult.Constellations := slice_at 4;
     ParseResult.SolarSystems := slice_at 5;
     ParseResult.Types := map_at 6;
     ParseResult.Groups := map_at 7;
     ParseResult.Categories := map_at 8;
     ParseResult.WormholeClasses := slice_at 9;
     ParseResult.SystemJumps := slice_at 10;
     ParseResult.NPCStations := map_at 11;
     ParseResult.NPCCorporations := map_at 12 |}.

(** One order of iteration over a map. *)
Definition in_key_order (V : Type) (m : gmap Z V) : list (Z * V) := map_to_list m.

End Example.


(** [above cm ce x]: the decoded float [x] is positive, it is [+inf] or has a
    mantissa of 53 bits, and it is at least [cm * 2 ^ ce], where [cm] is a
    mantissa of 53 bits too: floats with such mantissas are ordered by their
    exponents first. *)
Definition above (cm ce : Z) (x : spec_float) : Prop :=
  match x with
  | S754_infinity false => True
  | S754_finite false m e =>
      2 ^ 52 <= Zpos m < 2 ^ 53 /\ e <= 971
      /\ (ce < e \/ (ce = e /\ cm <= Zpos m))
  | _ => False
  end.


(** An item type with its [Published] flag cleared. *)
Definition unpublished (t : InvType.t) : InvType.t :=
  {| InvType.TypeID := InvType.TypeID t;
     InvType.GroupID := InvType.GroupID t;
     InvType.TypeName := InvType.TypeName t;
     InvType.Description := InvType.Description t;
     InvType.Mass := InvType.Mass t;
     InvType.Volume := InvType.Volume t;
     InvType.Capacity := InvType.Capacity t;
     InvType.PortionSize := InvType.PortionSize t;
     InvType.RaceID := InvType.RaceID t;
     InvType.BasePrice := InvType.BasePrice t;
     InvType.Published := false;
     InvType.MarketGroupID := InvType.MarketGroupID t;
     InvType.IconID := InvType.IconID t;
     InvType.SoundID := InvType.SoundID t;
     InvType.GraphicID := InvType.GraphicID t |}.

(** A group, and a type, of the ship category in the maps [gm] and [tm]. *)
Definition is_ship_group (sg : SDEGroup.t) : Prop :=
  SDEGroup.CategoryID sg = ShipCategoryID.

Definition in_ship_group (gm : gmap Z SDEGroup.t) (ty : SDEType.t) : Prop :=
  exists sg, gm !! SDEType.GroupID ty = Some sg /\ is_ship_group sg.


(** The name [transformNPCStations] gives to the owner of a station: the
    English name of the corporation, and the empty string when the
    corporation is not in the map or has no English name. *)
Definition owner_name (corps : gmap Z SDENPCCorporation.t) (ownerID : int64) : string :=
  match corps !! ownerID with
  | Some corp => default "" (SDENPCCorporation.Name corp !! "en")
  | None => ""
  end.


(** How a region, and a constellation, of the output relates to the one of
    the input it stems from, given the systems of the output: without a
    system of its own it is unchanged; with one, it is changed in its six
    bounds only, and they are the bounds of its systems. *)
Definition region_bounded (systems : list SolarSystem.t) (r r' : Region.t) : Prop :=
  (region_children r' systems = [] -> r' = r)
  /\ (region_children r' systems <> [] ->
      r' = Region.set_bounds r (Region.XMin r') (Region.XMax r') (Region.YMin r')
             (Region.YMax r') (Region.ZMin r') (Region.ZMax r')
      /\ bounds_of (region_children r' systems)
           (Region.XMin r') (Region.XMax r') (Region.YMin r')
           (Region.YMax r') (Region.ZMin r') (Region.ZMax r')).

Definition constellation_bounded (systems : list SolarSystem.t)
    (c c' : Constellation.t) : Prop :=
  (constellation_children c' systems = [] -> c' = c)
  /\ (constellation_children c' systems <> [] ->
      c' = Constellation.set_bounds c (Constellation.XMin c') (Constellation.XMax c')
             (Constellation.YMin c') (Constellation.YMax c')
             (Constellation.ZMin c') (Constellation.ZMax c')
      /\ bounds_of (constellation_children c' systems)
           (Constellation.XMin c') (Constellation.XMax c')
           (Constellation.YMin c') (Constellation.YMax c')
           (Constellation.ZMin c') (Constellation.ZMax c')).

(** The group [g] is a group of the ship category in the map [gm]. *)
Definition ship_group_in (gm : gmap Z SDEGroup.t) (g : int64) : bool :=
  match gm !! g with
  | Some sg => bool_decide (SDEGroup.CategoryID sg = ShipCategoryID)
  | None => false
  end.

(** The number of entries of a map that satisfy [P]. *)
Definition count_entries {V} (P : Z * V -> bool) (m : gmap Z V) : int64 :=
  len (filter (fun e => P e = true) (map_to_list m)).

(** * Properties *)

(** ** The store and the monad *)

Lemma lookup_app_plus {A} (l1 l2 : list A) (i : nat) :
  (l1 ++ l2) !! (length l1 + i)%nat = l2 !! i.
Proof. rewrite lookup_app_r by lia. f_equal. lia. Qed.

Lemma insert_app_plus {A} (l1 l2 : list A) (i : nat) (x : A) :
  <[(length l1 + i)%nat := x]> (l1 ++ l2) = l1 ++ <[i := x]> l2.
Proof. apply insert_app_r. Qed.

Lemma insert_app_end {A} (l : list A) (x y : A) :
  <[length l := y]> (l ++ [x]) = l ++ [y].
Proof. by rewrite <- (Nat.add_0_r (length l)), insert_app_plus. Qed.

Lemma elems_lookup {T} `{Elem T} (st : Store) (a : addr) (l : list T) :
  st !! a = Some (arr l) -> elems st (slice_at a) = l.
Proof. intros E. unfold elems. rewrite E. simpl. by rewrite un_arr_arr. Qed.

Lemma entries_lookup {V} `{MapVal V} (st : Store) (a : addr) (m : gmap Z V) :
  st !! a = Some (tbl m) -> entries st (map_at a) = m.
Proof. intros E. unfold entries. rewrite E. simpl. by rewrite un_tbl_tbl. Qed.

Lemma keeps_refl st : keeps st st.
Proof. by intros a o. Qed.

Lemma keeps_trans st1 st2 st3 : keeps st1 st2 -> keeps st2 st3 -> keeps st1 st3.
Proof. intros K1 K2 a o E. by apply K2, K1. Qed.

Lemma keeps_app st l : keeps st (st ++ l).
Proof. intros a o E. by apply lookup_app_l_Some. Qed.

Lemma keeps_insert_new st st' a o :
  keeps st st' -> (length st <= a)%nat -> keeps st (<[a := o]> st').
Proof.
  intros K L b o' E. rewrite list_lookup_insert_ne; [by apply K|].
  apply lookup_lt_Some in E. lia.
Qed.

Lemma keeps_elems {T} `{Elem T} st st' (x : slice T) :
  keeps st st' ->
  match x with nil_slice => True | slice_at a => is_Some (st !! a) end ->
  elems st' x = elems st x.
Proof.
  intros K V. destruct x as [|a]; [done|]. destruct V as [o E].
  unfold elems. by rewrite (K _ _ E), E.
Qed.

Ltac run :=
  cbv [mbind mret M_bind M_ret alloc write load_slice load_map load_int64
       store_slice new_slice copy_slice sort_Slice].

Lemma new_sorted_run {T} `{Elem T} (less : T -> T -> bool) (l : list T) st :
  (result ← new_slice l; sort_Slice result less;; mret result) st
  = (slice_at (length st), st ++ [arr (sorted_by less l)]).
Proof.
  run. rewrite (elems_lookup _ _ l) by (by rewrite lookup_app_r, Nat.sub_diag).
  by rewrite insert_app_end.
Qed.

Lemma copy_sorted_run {T} `{Elem T} (less : T -> T -> bool) (x : slice T) st :
  (result ← copy_slice x; sort_Slice result less;; mret result) st
  = (slice_at (length st), st ++ [arr (sorted_by less (elems st x))]).
Proof. apply (new_sorted_run less (elems st x)). Qed.

Lemma valid_slice_keeps {T} `{Elem T} st st' (x : slice T) :
  keeps st st' -> valid_slice st x -> elems st' x = elems st x.
Proof.
  intros K V. apply keeps_elems; [done|].
  destruct x; [done|]. destruct V as [l E]. eauto.
Qed.

Lemma valid_map_keeps {V} `{MapVal V} st st' (x : gomap V) :
  keeps st st' -> valid_map st x -> entries st' x = entries st x.
Proof.
  intros K Hv. destruct x as [|a]; [done|]. destruct Hv as [m E].
  unfold entries. by rewrite (K _ _ E), E.
Qed.

(** ** sort.Slice *)

Section sort_by_key.
Context {T : Type} (key : T -> Z) (less : T -> T -> bool).
Hypothesis less_key : forall a b, less a b = (key a <? key b).

Lemma not_after_key a b : not_after less a b <-> key a <= key b.
Proof. unfold not_after. rewrite less_key. lia. Qed.

#[local] Instance not_after_key_total : Total (not_after less).
Proof. intros a b. rewrite !not_after_key. lia. Qed.

#[local] Instance not_after_key_trans : Transitive (not_after less).
Proof. intros a b c. rewrite !not_after_key. lia. Qed.

Lemma sorted_by_Permutation (l : list T) : sorted_by less l ≡ₚ l.
Proof. apply merge_sort_Permutation. Qed.

Lemma sorted_by_ascending (l : list T) : ascending key (sorted_by less l).
Proof.
  apply (StronglySorted_fmap _ (not_after less)).
  - intros a b. by rewrite not_after_key.
  - apply StronglySorted_merge_sort; apply _.
Qed.

Lemma ascending_NoDup_strictly (l : list T) :
  NoDup (key <$> l) -> ascending key l -> strictly_ascending key l.
Proof.
  unfold ascending, strictly_ascending. generalize (key <$> l). clear.
  intros ks ND S. induction S as [|k ks S IH F]; [constructor|].
  apply NoDup_cons in ND as [Hk ND]. constructor; [by apply IH|].
  rewrite Forall_forall in F |- *. intros k' Hk'.
  specialize (F _ Hk'). assert (k <> k') by (by intros ->). lia.
Qed.

(** With distinct keys the sorted slice does not depend on the order of the
    elements before the sort. *)
Lemma sorted_by_unique (l1 l2 : list T) :
  NoDup (key <$> l1) -> l1 ≡ₚ l2 -> sorted_by less l1 = sorted_by less l2.
Proof.
  intros ND P.
  apply (StronglySorted_unique_strong (not_after less)).
  - intros x1 x2 H1 H2. rewrite !not_after_key. intros L1 L2.
    assert (E : key x1 = key x2) by lia.
    rewrite sorted_by_Permutation in H1. rewrite sorted_by_Permutation, <- P in H2.
    clear -ND E H1 H2. induction l1 as [|y l1 IH]; [by inv H1|].
    simpl in ND. apply NoDup_cons in ND as [Hy ND].
    inv H1; inv H2; auto.
    + exfalso. apply Hy. rewrite E. by apply list_elem_of_fmap_2.
    + exfalso. apply Hy. rewrite <- E. by apply list_elem_of_fmap_2.
  - apply StronglySorted_merge_sort; apply _.
  - apply StronglySorted_merge_sort; apply _.
  - by rewrite !sorted_by_Permutation.
Qed.

End sort_by_key.

Lemma not_after_jump a b :
  not_after less_SystemJump a b <-> pair_le (jump_key a) (jump_key b).
Proof.
  unfold not_after, less_SystemJump, pair_le, jump_key. simpl.
  destruct (Z.eqb_spec (SystemJump.FromSolarSystemID b) (SystemJump.FromSolarSystemID a));
    simpl; lia.
Qed.

#[local] Instance not_after_jump_total : Total (not_after less_SystemJump).
Proof. intros a b. rewrite !not_after_jump. unfold pair_le. lia. Qed.

#[local] Instance not_after_jump_trans : Transitive (not_after less_SystemJump).
Proof. intros a b c. rewrite !not_after_jump. unfold pair_le. lia. Qed.

Lemma sorted_jumps_ascending (l : list SystemJump.t) :
  ascending_pairs jump_key (sorted_by less_SystemJump l).
Proof.
  apply (StronglySorted_fmap _ (not_after less_SystemJump)).
  - intros a b. by rewrite not_after_jump.
  - apply StronglySorted_merge_sort; apply _.
Qed.

(** ** Validate *)

Lemma warn_below_when what count min msgs :
  warn_below what count min msgs
  = msgs ++ when (count <? min) (below_minimum what count min).
Proof.
  unfold warn_below, when, below_minimum.
  destruct (count <? min); [done|]. by rewrite app_nil_r.
Qed.

Lemma error_if_empty_when msg count msgs :
  error_if_empty msg count msgs = msgs ++ when (count =? 0) msg.
Proof.
  unfold error_if_empty, when. destruct (count =? 0); [done|]. by rewrite app_nil_r.
Qed.

(** C8. [Validate] changes nothing in the store and returns a result that
    [IsValid] exactly when it has no error. Its errors are, in this order,
    one message for each of SolarSystems, Regions and Constellations that is
    empty, and nothing else: a count below its minimum adds a message to
    the warnings only, one for each of the eight collections, in the order
    of the code. In particular an empty SolarSystems collection gives a
    result that is not valid, with a non-empty list of errors. *)
Theorem Validate_errors_and_warnings (data : ConvertedData.t) (st : Store) :
  let v := (Validate data st).1 in
  let universe := ConvertedData.Universe data in
  let solarSystems := len (elems st (UniverseData.SolarSystems universe)) in
  let regions := len (elems st (UniverseData.Regions universe)) in
  let constellations := len (elems st (UniverseData.Constellations universe)) in
  let invTypes := len (elems st (ConvertedData.InvTypes data)) in
  let invGroups := len (elems st (ConvertedData.InvGroups data)) in
  let systemJumps := len (elems st (ConvertedData.SystemJumps data)) in
  let wormholeClasses := len (elems st (ConvertedData.WormholeClasses data)) in
  let npcStations := len (elems st (ConvertedData.NPCStations data)) in
  (Validate data st).2 = st
  /\ ValidationResult.IsValid v
     = bool_decide (length (ValidationResult.Errors v) = 0%nat)
  /\ ValidationResult.Errors v
     = when (solarSystems =? 0) "No solar systems found"
       ++ when (regions =? 0) "No regions found"
       ++ when (constellations =? 0) "No constellations found"
  /\ ValidationResult.Warnings v
     = when (solarSystems <? 8000) (below_minimum "Solar system" solarSystems 8000)
       ++ when (regions <? 100) (below_minimum "Region" regions 100)
       ++ when (constellations <? 1000)
            (below_minimum "Constellation" constellations 1000)
       ++ when (invTypes <? 500) (below_minimum "Ship type" invTypes 500)
       ++ when (invGroups <? 30) (below_minimum "Ship group" invGroups 30)
       ++ when (systemJumps <? 13000) (below_minimum "System jump" systemJumps 13000)
       ++ when (wormholeClasses <? 750)
            (below_minimum "Wormhole class" wormholeClasses 750)
       ++ when (npcStations <? 40) (below_minimum "NPC station" npcStations 40)
  /\ (ValidationResult.IsValid v = true
      <-> solarSystems <> 0 /\ regions <> 0 /\ constellations <> 0)
  /\ (elems st (UniverseData.SolarSystems universe) = []
      -> ValidationResult.IsValid v = false /\ ValidationResult.Errors v <> []).
Proof.
  intros v universe solarSystems regions constellations invTypes invGroups
    systemJumps wormholeClasses npcStations.
  assert (EE : ValidationResult.Errors v
     = when (solarSystems =? 0) "No solar systems found"
       ++ when (regions =? 0) "No regions found"
       ++ when (constellations =? 0) "No constellations found").
  { subst v. unfold Validate. run. simpl.
    rewrite !error_if_empty_when. simpl. by rewrite <- app_assoc. }
  split; [done|]. split; [done|]. split; [exact EE|]. split; [|split].
  - subst v. unfold Validate. run. simpl.
    rewrite !warn_below_when. simpl. by rewrite <- !app_assoc.
  - unfold ValidationResult.IsValid. rewrite EE, bool_decide_eq_true.
    unfold when.
    destruct (Z.eqb_spec solarSystems 0), (Z.eqb_spec regions 0),
      (Z.eqb_spec constellations 0); simpl; split; try done; try lia;
      intros (? & ? & ?); congruence.
  - intros E. unfold ValidationResult.IsValid. rewrite EE.
    subst solarSystems. rewrite E. by simpl.
Qed.

(** ** The security classifier *)

(** C1. [GetTrueSecurity] gives the display values of the table of edge
    cases, exactly: 0.047 gives 0.1, 0.9459 gives 0.9, 0.95 gives 1.0,
    -0.45 gives -0.5, -0.449 gives -0.4, 0.0 gives 0.0 and -0.99 gives
    -1.0. Each decimal stands for the binary64 value nearest to it, as a Go
    constant does. *)
Theorem GetTrueSecurity_edge_cases :
  (GetTrueSecurity 0.047 = 0.1
   /\ GetTrueSecurity 0.9459 = 0.9
   /\ GetTrueSecurity 0.95 = 1.0
   /\ GetTrueSecurity (-0.45) = -0.5
   /\ GetTrueSecurity (-0.449) = -0.4
   /\ GetTrueSecurity 0.0 = 0.0
   /\ GetTrueSecurity (-0.99) = -1.0)%float.
Proof. repeat split; vm_compute; reflexivity. Qed.

(** ** Maps and slices built by a loop *)

Section fold_insert.
Context {A V : Type} (k : A -> Z) (v : A -> V).

Let build (l : list A) (m0 : gmap Z V) : gmap Z V :=
  fold_left (fun m x => <[k x := v x]> m) l m0.

Lemma fold_insert_snoc l x m0 : build (l ++ [x]) m0 = <[k x := v x]> (build l m0).
Proof. unfold build. by rewrite fold_left_app. Qed.

Lemma fold_insert_Some l m0 i y :
  build l m0 !! i = Some y ->
  (exists x, x ∈ l /\ k x = i /\ v x = y) \/ m0 !! i = Some y.
Proof.
  induction l as [|x l IH] using rev_ind; [by right|].
  rewrite fold_insert_snoc. destruct (decide (k x = i)) as [<-|Hne].
  - rewrite lookup_insert_eq. intros [= <-]. left. exists x. set_solver.
  - rewrite lookup_insert_ne by done. intros E.
    destruct (IH E) as [(x' & ? & ? & ?)|?]; [left|by right].
    exists x'. set_solver.
Qed.

Lemma fold_insert_None l m0 i :
  build l m0 !! i = None <-> m0 !! i = None /\ forall x, x ∈ l -> k x <> i.
Proof.
  induction l as [|x l IH] using rev_ind; [set_solver|].
  rewrite fold_insert_snoc. destruct (decide (k x = i)) as [<-|Hne].
  - rewrite lookup_insert_eq. split; [done|]. intros [_ Hx].
    exfalso. apply (Hx x); set_solver.
  - rewrite lookup_insert_ne, IH by done. set_solver.
Qed.

Lemma fold_insert_NoDup l m0 x :
  NoDup (k <$> l) -> x ∈ l -> build l m0 !! k x = Some (v x).
Proof.
  induction l as [|y l IH] using rev_ind; [by inversion 2|].
  rewrite fmap_app, fold_insert_snoc. simpl. intros ND Hx.
  apply NoDup_app in ND as (ND & Hy & _).
  apply elem_of_app in Hx as [Hx|Hx%list_elem_of_singleton].
  - rewrite lookup_insert_ne; [by apply IH|].
    intros E. apply (Hy (k x)); [by apply list_elem_of_fmap_2|]. rewrite <- E. set_solver.
  - subst y. by rewrite lookup_insert_eq.
Qed.

End fold_insert.

Lemma system_lookup_Some ss i sys :
  system_lookup ss !! i = Some sys -> sys ∈ ss /\ SolarSystem.SolarSystemID sys = i.
Proof.
  intros E. apply (fold_insert_Some SolarSystem.SolarSystemID (fun s => s)) in E
    as [(x & ? & ? & ?)|E]; [by subst|by rewrite lookup_empty in E].
Qed.

Lemma system_lookup_None ss i :
  system_lookup ss !! i = None
  <-> forall sys, sys ∈ ss -> SolarSystem.SolarSystemID sys <> i.
Proof.
  unfold system_lookup.
  rewrite (fold_insert_None SolarSystem.SolarSystemID (fun s => s)).
  rewrite lookup_empty. naive_solver.
Qed.

Lemma system_lookup_NoDup ss sys :
  NoDup (SolarSystem.SolarSystemID <$> ss) -> sys ∈ ss ->
  system_lookup ss !! SolarSystem.SolarSystemID sys = Some sys.
Proof. apply (fold_insert_NoDup SolarSystem.SolarSystemID (fun s => s)). Qed.

Lemma region_factions_Some rs i p :
  region_factions rs !! i = Some p ->
  exists r, r ∈ rs /\ Region.RegionID r = i /\ Region.FactionID r = p.
Proof.
  intros E. apply (fold_insert_Some Region.RegionID Region.FactionID) in E
    as [(x & ? & ? & ?)|E]; [by exists x|by rewrite lookup_empty in E].
Qed.

Lemma region_factions_None rs i :
  region_factions rs !! i = None <-> forall r, r ∈ rs -> Region.RegionID r <> i.
Proof.
  unfold region_factions. rewrite (fold_insert_None Region.RegionID Region.FactionID).
  rewrite lookup_empty. naive_solver.
Qed.

Lemma region_factions_NoDup rs r :
  NoDup (Region.RegionID <$> rs) -> r ∈ rs ->
  region_factions rs !! Region.RegionID r = Some (Region.FactionID r).
Proof. apply (fold_insert_NoDup Region.RegionID Region.FactionID). Qed.

(** ** The jump enricher *)

Lemma transformSystemJumps_run jumps systems st :
  transformSystemJumps jumps systems st
  = (slice_at (length st),
     st ++ [arr
              (sorted_by less_SystemJump
                 (enrich_jump (system_lookup (elems st systems)) <$> elems st jumps))]).
Proof.
  exact (new_sorted_run less_SystemJump
           (enrich_jump (system_lookup (elems st systems)) <$> elems st jumps) st).
Qed.

Lemma elems_new {T} `{Elem T} (st : Store) (l : list T) :
  elems (st ++ [arr l]) (slice_at (length st)) = l.
Proof. apply elems_lookup. by rewrite lookup_app_r, Nat.sub_diag. Qed.

Lemma enrich_jump_from systemLookup jump :
  let e := enrich_jump systemLookup jump in
  SystemJump.FromSolarSystemID e = SystemJump.FromSolarSystemID jump
  /\ match systemLookup !! SystemJump.FromSolarSystemID jump with
     | Some fromSys =>
         SystemJump.FromRegionID e = SolarSystem.RegionID fromSys
         /\ SystemJump.FromConstellationID e = SolarSystem.ConstellationID fromSys
     | None => SystemJump.FromRegionID e = 0 /\ SystemJump.FromConstellationID e = 0
     end.
Proof. simpl. by destruct (systemLookup !! _). Qed.

Lemma enrich_jump_to systemLookup jump :
  let e := enrich_jump systemLookup jump in
  SystemJump.ToSolarSystemID e = SystemJump.ToSolarSystemID jump
  /\ match systemLookup !! SystemJump.ToSolarSystemID jump with
     | Some toSys =>
         SystemJump.ToRegionID e = SolarSystem.RegionID toSys
         /\ SystemJump.ToConstellationID e = SolarSystem.ConstellationID toSys
     | None => SystemJump.ToRegionID e = 0 /\ SystemJump.ToConstellationID e = 0
     end.
Proof. simpl. by destruct (systemLookup !! _). Qed.

(** C6. [transformSystemJumps] returns a new slice that holds, in some
    order, one connection for every record of [jumps], duplicates included,
    and changes nothing else in the store. The connection of a record keeps
    its two system IDs. For each of its two ends: when no system of the
    collection has the ID, the region and the constellation of that end
    are 0; when one has, they are the RegionID and ConstellationID of a
    system of the collection with that ID (of the system with that ID,
    when the IDs of the collection are distinct). No input makes the
    function fail. *)
Theorem transformSystemJumps_enriches
    (jumps : slice SystemJump.t) (systems : slice SolarSystem.t) (st : Store) :
  let js := elems st jumps in
  let ss := elems st systems in
  let r := transformSystemJumps jumps systems st in
  let out := elems r.2 r.1 in
  let enrich := enrich_jump (system_lookup ss) in
  r.1 = slice_at (length st)
  /\ keeps st r.2
  /\ out ≡ₚ enrich <$> js
  /\ length out = length js
  /\ forall j,
       SystemJump.FromSolarSystemID (enrich j) = SystemJump.FromSolarSystemID j
       /\ SystemJump.ToSolarSystemID (enrich j) = SystemJump.ToSolarSystemID j
       /\ ((forall sys, sys ∈ ss ->
              SolarSystem.SolarSystemID sys <> SystemJump.FromSolarSystemID j) ->
           SystemJump.FromRegionID (enrich j) = 0
           /\ SystemJump.FromConstellationID (enrich j) = 0)
       /\ ((forall sys, sys ∈ ss ->
              SolarSystem.SolarSystemID sys <> SystemJump.ToSolarSystemID j) ->
           SystemJump.ToRegionID (enrich j) = 0
           /\ SystemJump.ToConstellationID (enrich j) = 0)
       /\ ((exists sys, sys ∈ ss
              /\ SolarSystem.SolarSystemID sys = SystemJump.FromSolarSystemID j) ->
           exists sys, sys ∈ ss
             /\ SolarSystem.SolarSystemID sys = SystemJump.FromSolarSystemID j
             /\ SystemJump.FromRegionID (enrich j) = SolarSystem.RegionID sys
             /\ SystemJump.FromConstellationID (enrich j)
                = SolarSystem.ConstellationID sys)
       /\ ((exists sys, sys ∈ ss
              /\ SolarSystem.SolarSystemID sys = SystemJump.ToSolarSystemID j) ->
           exists sys, sys ∈ ss
             /\ SolarSystem.SolarSystemID sys = SystemJump.ToSolarSystemID j
             /\ SystemJump.ToRegionID (enrich j) = SolarSystem.RegionID sys
             /\ SystemJump.ToConstellationID (enrich j)
                = SolarSystem.ConstellationID sys)
       /\ (NoDup (SolarSystem.SolarSystemID <$> ss) ->
           forall sys, sys ∈ ss ->
             (SolarSystem.SolarSystemID sys = SystemJump.FromSolarSystemID j ->
              SystemJump.FromRegionID (enrich j) = SolarSystem.RegionID sys
              /\ SystemJump.FromConstellationID (enrich j)
                 = SolarSystem.ConstellationID sys)
             /\ (SolarSystem.SolarSystemID sys = SystemJump.ToSolarSystemID j ->
                 SystemJump.ToRegionID (enrich j) = SolarSystem.RegionID sys
                 /\ SystemJump.ToConstellationID (enrich j)
                    = SolarSystem.ConstellationID sys)).
Proof.
  intros js ss r out enrich. subst r out.
  rewrite transformSystemJumps_run. cbn [fst snd].
  rewrite (elems_new st). fold js ss enrich.
  assert (P : sorted_by less_SystemJump (enrich <$> js) ≡ₚ enrich <$> js)
    by apply merge_sort_Permutation.
  split; [done|]. split; [apply keeps_app|]. split; [done|].
  split; [by rewrite P, length_fmap|].
  intros j.
  pose proof (enrich_jump_from (system_lookup ss) j) as [Ff Hf].
  pose proof (enrich_jump_to (system_lookup ss) j) as [Ft Ht].
  fold enrich in Ff, Hf, Ft, Ht.
  split; [done|]. split; [done|].
  split; [|split; [|split; [|split; [|intros ND sys Hin; split]]]].
  - intros N. apply system_lookup_None in N. by rewrite N in Hf.
  - intros N. apply system_lookup_None in N. by rewrite N in Ht.
  - intros (sys & Hin & Hid).
    destruct (system_lookup ss !! SystemJump.FromSolarSystemID j) as [s|] eqn:E.
    + apply system_lookup_Some in E as [? ?]. exists s. naive_solver.
    + rewrite system_lookup_None in E. naive_solver.
  - intros (sys & Hin & Hid).
    destruct (system_lookup ss !! SystemJump.ToSolarSystemID j) as [s|] eqn:E.
    + apply system_lookup_Some in E as [? ?]. exists s. naive_solver.
    + rewrite system_lookup_None in E. naive_solver.
  - intros Hid. by rewrite <- Hid, (system_lookup_NoDup ss sys) in Hf.
  - intros Hid. by rewrite <- Hid, (system_lookup_NoDup ss sys) in Ht.
Qed.

(** ** The category filter *)

Lemma ship_group_ids_snoc groups groupID group :
  ship_group_ids (groups ++ [(groupID, group)])
  = if decide (SDEGroup.CategoryID group = ShipCategoryID)
    then <[groupID := true]> (ship_group_ids groups)
    else ship_group_ids groups.
Proof. unfold ship_group_ids. by rewrite fold_left_app. Qed.

Lemma ship_group_ids_Some groups g b :
  ship_group_ids groups !! g = Some b ->
  b = true
  /\ exists group, (g, group) ∈ groups /\ SDEGroup.CategoryID group = ShipCategoryID.
Proof.
  induction groups as [|[i grp] groups IH] using rev_ind; [done|].
  rewrite ship_group_ids_snoc. case_decide as Hc.
  - destruct (decide (i = g)) as [->|Hne].
    + rewrite lookup_insert_eq. intros [= <-]. split; [done|]. exists grp. set_solver.
    + rewrite lookup_insert_ne by done. intros [? (grp' & ? & ?)]%IH.
      split; [done|]. exists grp'. set_solver.
  - intros [? (grp' & ? & ?)]%IH. split; [done|]. exists grp'. set_solver.
Qed.

Lemma ship_group_ids_member groups g group :
  (g, group) ∈ groups -> SDEGroup.CategoryID group = ShipCategoryID ->
  ship_group_ids groups !! g = Some true.
Proof.
  induction groups as [|[i grp] groups IH] using rev_ind; [by inversion 1|].
  rewrite ship_group_ids_snoc. intros Hin Hc.
  apply elem_of_app in Hin as [Hin|Hin%list_elem_of_singleton].
  - case_decide; [|by apply IH].
    destruct (decide (i = g)) as [->|Hne]; [by rewrite lookup_insert_eq|].
    rewrite lookup_insert_ne by done. by apply IH.
  - injection Hin as <- <-. rewrite decide_True by done. by rewrite lookup_insert_eq.
Qed.

Lemma ship_group_ids_true groups g :
  default false (ship_group_ids groups !! g) = true
  <-> exists group, (g, group) ∈ groups /\ SDEGroup.CategoryID group = ShipCategoryID.
Proof.
  split.
  - destruct (ship_group_ids groups !! g) as [b|] eqn:E; [|done].
    intros _. by apply ship_group_ids_Some in E as [_ ?].
  - intros (grp & Hin & Hc). by rewrite (ship_group_ids_member _ _ _ Hin Hc).
Qed.

Lemma ship_group_ids_Permutation groups1 groups2 :
  groups1 ≡ₚ groups2 -> ship_group_ids groups1 = ship_group_ids groups2.
Proof.
  intros P. apply map_eq. intros g.
  destruct (ship_group_ids groups1 !! g) as [b|] eqn:E1.
  - apply ship_group_ids_Some in E1 as [-> (grp & Hin & Hc)].
    rewrite P in Hin. symmetry. by eapply ship_group_ids_member.
  - destruct (ship_group_ids groups2 !! g) as [b|] eqn:E2; [|done].
    apply ship_group_ids_Some in E2 as [-> (grp & Hin & Hc)].
    rewrite <- P in Hin. by rewrite (ship_group_ids_member _ _ _ Hin Hc) in E1.
Qed.

(** The loops that append are a selection of the entries, in their order. *)
Lemma fold_left_append_omap {A B} (g : A -> option B) (step : list B -> A -> list B) :
  (forall r x, step r x = r ++ from_option (fun y => [y]) [] (g x)) ->
  forall l acc, fold_left step l acc = acc ++ omap g l.
Proof.
  intros Hstep l. induction l as [|x l IH]; intros acc; simpl.
  - by rewrite app_nil_r.
  - rewrite IH, Hstep. destruct (g x); simpl; [by rewrite <- app_assoc|].
    by rewrite app_nil_r.
Qed.

Lemma ship_types_omap shipGroupIDs types :
  ship_types shipGroupIDs types = omap (select_type shipGroupIDs) types.
Proof.
  unfold ship_types. rewrite (fold_left_append_omap (select_type shipGroupIDs)); [done|].
  intros r [i t]. unfold select_type. simpl.
  destruct (default false _); simpl; [done|by rewrite app_nil_r].
Qed.

Lemma ship_groups_omap groups : ship_groups groups = omap select_group groups.
Proof.
  unfold ship_groups. rewrite (fold_left_append_omap select_group); [done|].
  intros r [i g]. unfold select_group. simpl.
  repeat case_decide; simpl; try done; by rewrite app_nil_r.
Qed.

Lemma omap_Some_fmap {A B} (f : A -> B) (l : list A) :
  omap (fun x => Some (f x)) l = f <$> l.
Proof. induction l as [|x l IH]; [done|]. csimpl. by rewrite IH. Qed.

Lemma npc_stations_fmap corps stations :
  npc_stations corps stations = (fun e => npc_station corps e.1 e.2) <$> stations.
Proof.
  unfold npc_stations.
  rewrite (fold_left_append_omap (fun e => Some (npc_station corps e.1 e.2))).
  - apply omap_Some_fmap.
  - by intros r [i s].
Qed.

(** The keys of a selection of entries are distinct when the keys of the
    entries are. *)
Lemma omap_keys_NoDup {A B} (g : Z * A -> option B) (key : B -> Z) (l : list (Z * A)) :
  (forall e y, g e = Some y -> key y = e.1) ->
  NoDup l.*1 -> NoDup (key <$> omap g l).
Proof.
  intros Hg. induction l as [|e l IH]; [constructor|].
  simpl. intros [Hn ND]%NoDup_cons. destruct (g e) as [y|] eqn:E; [|by apply IH].
  simpl. apply NoDup_cons. split; [|by apply IH].
  intros Hin. apply Hn. apply list_elem_of_fmap in Hin as (y' & Hk & Hy').
  apply list_elem_of_omap in Hy' as (e' & He' & Hge').
  apply list_elem_of_fmap. exists e'. split; [|done].
  rewrite <- (Hg _ _ E), Hk. by apply Hg.
Qed.

Section Ranging_properties.

Variable range_map : forall V : Type, gmap Z V -> list (Z * V).
Hypothesis range_map_spec :
  forall (V : Type) (m : gmap Z V), range_map V m ≡ₚ map_to_list m.

Lemma range_map_lookup {V} (m : gmap Z V) i x :
  (i, x) ∈ range_map V m <-> m !! i = Some x.
Proof. by rewrite range_map_spec, elem_of_map_to_list. Qed.

Lemma range_map_NoDup {V} (m : gmap Z V) : NoDup (range_map V m).*1.
Proof. rewrite range_map_spec. apply NoDup_fst_map_to_list. Qed.

Lemma transformShipGroups_run groups st :
  transformShipGroups range_map groups st
  = (slice_at (length st),
     st ++ [arr (sorted_by less_InvGroup
                   (ship_groups (range_map _ (entries st groups))))]).
Proof.
  exact (new_sorted_run less_InvGroup
           (ship_groups (range_map _ (entries st groups))) st).
Qed.

Lemma transformShipTypes_run types groups st :
  transformShipTypes range_map types groups st
  = (slice_at (length st),
     st ++ [arr (sorted_by less_InvType
                   (ship_types (ship_group_ids (range_map _ (entries st groups)))
                      (range_map _ (entries st types))))]).
Proof.
  exact (new_sorted_run less_InvType
           (ship_types (ship_group_ids (range_map _ (entries st groups)))
              (range_map _ (entries st types))) st).
Qed.

Lemma transformNPCStations_run stations corps st :
  transformNPCStations range_map stations corps st
  = (slice_at (length st),
     st ++ [arr (sorted_by less_NPCStation
                   (npc_stations (entries st corps)
                      (range_map _ (entries st stations))))]).
Proof.
  exact (new_sorted_run less_NPCStation
           (npc_stations (entries st corps) (range_map _ (entries st stations))) st).
Qed.

Lemma ship_groups_elem_of (gm : gmap Z SDEGroup.t) g :
  g ∈ ship_groups (range_map _ gm)
  <-> exists i sg, gm !! i = Some sg /\ SDEGroup.CategoryID sg = 6 /\ g = ship_group i sg.
Proof.
  rewrite ship_groups_omap, list_elem_of_omap. split.
  - intros ([i sg] & Hin & Hs). apply range_map_lookup in Hin.
    unfold select_group in Hs. simpl in Hs. case_decide; [|done].
    injection Hs as <-. by exists i, sg.
  - intros (i & sg & Hl & Hc & ->). exists (i, sg). rewrite range_map_lookup.
    split; [done|]. unfold select_group. simpl. by rewrite decide_True.
Qed.

Lemma ship_types_elem_of (gm : gmap Z SDEGroup.t) (tm : gmap Z SDEType.t) t :
  t ∈ ship_types (ship_group_ids (range_map _ gm)) (range_map _ tm)
  <-> exists i sdeType,
        tm !! i = Some sdeType
        /\ (exists sg, gm !! SDEType.GroupID sdeType = Some sg
                       /\ SDEGroup.CategoryID sg = 6)
        /\ t = ship_type i sdeType.
Proof.
  rewrite ship_types_omap, list_elem_of_omap. split.
  - intros ([i ty] & Hin & Hs). apply range_map_lookup in Hin.
    unfold select_type in Hs. simpl in Hs.
    destruct (default false _) eqn:E; [|done]. injection Hs as <-.
    apply ship_group_ids_true in E as (sg & Hg & Hc). apply range_map_lookup in Hg.
    exists i, ty. eauto.
  - intros (i & ty & Hl & (sg & Hg & Hc) & ->). exists (i, ty).
    rewrite range_map_lookup. split; [done|]. unfold select_type. simpl.
    replace (default false _) with true; [done|]. symmetry.
    apply ship_group_ids_true. exists sg. by rewrite range_map_lookup.
Qed.

Lemma ship_groups_NoDup (gm : gmap Z SDEGroup.t) :
  NoDup (InvGroup.GroupID <$> ship_groups (range_map _ gm)).
Proof.
  rewrite ship_groups_omap. apply omap_keys_NoDup; [|apply range_map_NoDup].
  intros [i g] y. unfold select_group. simpl. case_decide; [|done]. by intros [= <-].
Qed.

Lemma ship_types_NoDup shipGroupIDs (tm : gmap Z SDEType.t) :
  NoDup (InvType.TypeID <$> ship_types shipGroupIDs (range_map _ tm)).
Proof.
  rewrite ship_types_omap. apply omap_keys_NoDup; [|apply range_map_NoDup].
  intros [i g] y. unfold select_type. simpl. destruct (default false _); [|done].
  by intros [= <-].
Qed.

Lemma npc_stations_NoDup corps (sm : gmap Z SDENPCStation.t) :
  NoDup (NPCStation.StationID <$> npc_stations corps (range_map _ sm)).
Proof.
  rewrite npc_stations_fmap, <- list_fmap_compose.
  apply (range_map_NoDup sm).
Qed.

(** C5. Ship filtering is join-correct, for every order in which the maps
    are ranged over. The groups returned are exactly the groups of the map
    whose CategoryID is 6, each once, in strictly ascending order of
    GroupID. The types returned are exactly the types of the map whose
    GroupID is the GroupID of a returned group, each once, in strictly
    ascending order of TypeID; so every returned type belongs to a group of
    category 6. A returned record takes its ID from the key of the entry
    and its name from the name map at the key "en", the empty string when
    the map has no such key. Both slices are the ones the order
    [map_to_list] gives: they do not depend on the order of iteration. *)
Theorem ship_filter_join_correct
    (types : gomap SDEType.t) (groups : gomap SDEGroup.t) (st : Store) :
  let gm := entries st groups in
  let tm := entries st types in
  let rg := transformShipGroups range_map groups st in
  let rt := transformShipTypes range_map types groups st in
  let outGroups := elems rg.2 rg.1 in
  let outTypes := elems rt.2 rt.1 in
  (forall g, g ∈ outGroups
     <-> exists i sg, gm !! i = Some sg /\ SDEGroup.CategoryID sg = 6
                      /\ g = ship_group i sg)
  /\ strictly_ascending InvGroup.GroupID outGroups
  /\ (forall t, t ∈ outTypes
       <-> exists i sdeType,
             tm !! i = Some sdeType
             /\ SDEType.GroupID sdeType ∈ (InvGroup.GroupID <$> outGroups)
             /\ t = ship_type i sdeType)
  /\ strictly_ascending InvType.TypeID outTypes
  /\ (forall t, t ∈ outTypes ->
       exists sg, gm !! InvType.GroupID t = Some sg /\ SDEGroup.CategoryID sg = 6)
  /\ (forall i sg,
       InvGroup.GroupID (ship_group i sg) = i
       /\ InvGroup.CategoryID (ship_group i sg) = SDEGroup.CategoryID sg
       /\ InvGroup.GroupName (ship_group i sg)
          = default "" (SDEGroup.Name sg !! "en"))
  /\ (forall i sdeType,
       InvType.TypeID (ship_type i sdeType) = i
       /\ InvType.GroupID (ship_type i sdeType) = SDEType.GroupID sdeType
       /\ InvType.TypeName (ship_type i sdeType)
          = default "" (SDEType.Name sdeType !! "en"))
  /\ outGroups = sorted_by less_InvGroup (ship_groups (map_to_list gm))
  /\ outTypes
     = sorted_by less_InvType
         (ship_types (ship_group_ids (map_to_list gm)) (map_to_list tm)).
Proof.
  intros gm tm rg rt outGroups outTypes.
  assert (EG : outGroups = sorted_by less_InvGroup (ship_groups (range_map _ gm))).
  { subst outGroups rg. rewrite transformShipGroups_run. apply elems_new. }
  assert (ET : outTypes
    = sorted_by less_InvType
        (ship_types (ship_group_ids (range_map _ gm)) (range_map _ tm))).
  { subst outTypes rt. rewrite transformShipTypes_run. apply elems_new. }
  assert (MG : forall g, g ∈ outGroups
     <-> exists i sg, gm !! i = Some sg /\ SDEGroup.CategoryID sg = 6
                      /\ g = ship_group i sg).
  { intros g. rewrite EG, (sorted_by_Permutation less_InvGroup).
    apply ship_groups_elem_of. }
  assert (IG : forall k, k ∈ (InvGroup.GroupID <$> outGroups)
     <-> exists sg, gm !! k = Some sg /\ SDEGroup.CategoryID sg = 6).
  { intros k. rewrite list_elem_of_fmap. split.
    - intros (g & -> & (i & sg & ? & ? & ->)%MG). by exists sg.
    - intros (sg & ? & ?). exists (ship_group k sg). split; [done|].
      apply MG. by exists k, sg. }
  assert (MT : forall t, t ∈ outTypes
     <-> exists i sdeType,
           tm !! i = Some sdeType
           /\ SDEType.GroupID sdeType ∈ (InvGroup.GroupID <$> outGroups)
           /\ t = ship_type i sdeType).
  { intros t. rewrite ET, (sorted_by_Permutation less_InvType), ship_types_elem_of.
    by setoid_rewrite IG. }
  split; [exact MG|]. split.
  { rewrite EG. apply (ascending_NoDup_strictly InvGroup.GroupID).
    - rewrite (sorted_by_Permutation less_InvGroup). apply ship_groups_NoDup.
    - by apply (sorted_by_ascending InvGroup.GroupID less_InvGroup). }
  split; [exact MT|]. split.
  { rewrite ET. apply (ascending_NoDup_strictly InvType.TypeID).
    - rewrite (sorted_by_Permutation less_InvType). apply ship_types_NoDup.
    - by apply (sorted_by_ascending InvType.TypeID less_InvType). }
  split.
  { intros t (i & ty & _ & Hg & ->)%MT. by apply IG. }
  split.
  { intros i sg. split; [done|]. split; [done|]. simpl. unfold getLocalizedName.
    by destruct (SDEGroup.Name sg !! "en"). }
  split.
  { intros i ty. split; [done|]. split; [done|]. simpl. unfold getLocalizedName.
    by destruct (SDEType.Name ty !! "en"). }
  split.
  - rewrite EG. apply (sorted_by_unique InvGroup.GroupID); [done|..].
    + apply ship_groups_NoDup.
    + rewrite !ship_groups_omap. by rewrite range_map_spec.
  - rewrite ET. apply (sorted_by_unique InvType.TypeID); [done|..].
    + apply ship_types_NoDup.
    + rewrite (ship_group_ids_Permutation _ _ (range_map_spec _ gm)).
      rewrite !ship_types_omap. by rewrite range_map_spec.
Qed.

End Ranging_properties.

(** ** The order of float64 *)

Lemma SFleb_trans a b c :
  SFleb a b = true -> SFleb b c = true -> SFleb a c = true.
Proof.
  unfold SFleb, SFcompare.
  destruct a as [sa|sa| |sa ma ea], b as [sb|sb| |sb mb eb], c as [sc|sc| |sc mc ec];
    try done; try (by destruct sa, sb, sc).
  destruct sa, sb, sc; try done.
  - destruct (Z.compare_spec ea eb), (Z.compare_spec eb ec), (Z.compare_spec ea ec);
      try done; try lia.
    change (Pos.compare_cont Eq) with Pos.compare.
    destruct (Pos.compare_spec ma mb), (Pos.compare_spec mb mc),
      (Pos.compare_spec ma mc); try done; lia.
  - destruct (Z.compare_spec ea eb), (Z.compare_spec eb ec), (Z.compare_spec ea ec);
      try done; try lia.
    change (Pos.compare_cont Eq) with Pos.compare.
    destruct (Pos.compare_spec ma mb), (Pos.compare_spec mb mc),
      (Pos.compare_spec ma mc); try done; lia.
Qed.

Lemma SFltb_false_leb a b :
  a <> S754_nan -> b <> S754_nan -> SFltb a b = false -> SFleb b a = true.
Proof.
  unfold SFltb, SFleb, SFcompare.
  destruct a as [sa|sa| |sa ma ea], b as [sb|sb| |sb mb eb];
    try done; try (by destruct sa, sb); try (by destruct sa); try (by destruct sb).
  intros _ _. destruct sa, sb; try done.
  - destruct (Z.compare_spec ea eb), (Z.compare_spec eb ea); try done; try lia.
    change (Pos.compare_cont Eq) with Pos.compare.
    destruct (Pos.compare_spec ma mb), (Pos.compare_spec mb ma); try done; lia.
  - destruct (Z.compare_spec ea eb), (Z.compare_spec eb ea); try done; try lia.
    change (Pos.compare_cont Eq) with Pos.compare.
    destruct (Pos.compare_spec ma mb), (Pos.compare_spec mb ma); try done; lia.
Qed.

Lemma SFltb_leb a b : SFltb a b = true -> SFleb a b = true.
Proof. unfold SFltb, SFleb. by destruct (SFcompare a b) as [[]|]. Qed.

Lemma SFleb_refl a : a <> S754_nan -> SFleb a a = true.
Proof.
  unfold SFleb, SFcompare. destruct a as [sa|sa| |sa ma ea]; try done.
  - by destruct sa.
  - intros _. rewrite Z.compare_refl. change (Pos.compare_cont Eq) with Pos.compare.
    rewrite Pos.compare_refl. by destruct sa.
Qed.

Lemma Prim2SF_not_nan x : PrimFloat.is_nan x = false -> Prim2SF x <> S754_nan.
Proof.
  unfold Prim2SF. intros ->.
  destruct (PrimFloat.is_zero x); [done|]. destruct (PrimFloat.is_infinity x); [done|].
  destruct (Z.frexp x) as [r e]. destruct (shr_fexp _ _ _ _ _) as [mrs e'].
  by destruct (shr_m mrs).
Qed.

Lemma float_leb_trans (a b c : float64) :
  (a <=? b)%float = true -> (b <=? c)%float = true -> (a <=? c)%float = true.
Proof. rewrite !leb_spec. apply SFleb_trans. Qed.

Lemma float_ltb_false_leb (a b : float64) :
  PrimFloat.is_nan a = false -> PrimFloat.is_nan b = false ->
  (a <? b)%float = false -> (b <=? a)%float = true.
Proof.
  intros Ha%Prim2SF_not_nan Hb%Prim2SF_not_nan. rewrite ltb_spec, leb_spec.
  by apply SFltb_false_leb.
Qed.

Lemma float_ltb_leb (a b : float64) :
  (a <? b)%float = true -> (a <=? b)%float = true.
Proof. rewrite ltb_spec, leb_spec. apply SFltb_leb. Qed.

Lemma float_leb_refl (a : float64) :
  PrimFloat.is_nan a = false -> (a <=? a)%float = true.
Proof. intros Ha%Prim2SF_not_nan. rewrite leb_spec. by apply SFleb_refl. Qed.

(** The running minimum of values that are not NaN is their least value. *)
Lemma fold_fmin_is_min (x0 : float64) (xs : list float64) :
  no_nan (x0 :: xs) -> is_min (x0 :: xs) (fold_left fmin xs x0).
Proof.
  intros NN.
  assert (G : forall pre m, no_nan (pre ++ xs) -> is_min pre m ->
              is_min (pre ++ xs) (fold_left fmin xs m)).
  { clear. induction xs as [|x xs IH]; intros pre m NN Hm; simpl.
    - by rewrite app_nil_r.
    - rewrite cons_middle, (assoc_L (++) pre [x] xs) in NN |- *. apply IH; [done|].
      destruct Hm as [Hin Hle]. unfold fmin.
      assert (Nx : PrimFloat.is_nan x = false) by (apply NN; set_solver).
      assert (Nm : PrimFloat.is_nan m = false) by (apply NN; set_solver).
      destruct (x <? m)%float eqn:E.
      + split; [set_solver|]. intros y [Hy|Hy%list_elem_of_singleton]%elem_of_app.
        * eapply float_leb_trans; [by apply float_ltb_leb|by apply Hle].
        * subst y. by apply float_leb_refl.
      + split; [set_solver|]. intros y [Hy|Hy%list_elem_of_singleton]%elem_of_app.
        * by apply Hle.
        * subst y. by apply float_ltb_false_leb. }
  apply (G [x0] x0); [done|]. split; [set_solver|].
  intros y Hy%list_elem_of_singleton. subst y. apply float_leb_refl, NN. set_solver.
Qed.

Lemma fold_fmax_is_max (x0 : float64) (xs : list float64) :
  no_nan (x0 :: xs) -> is_max (x0 :: xs) (fold_left fmax xs x0).
Proof.
  intros NN.
  assert (G : forall pre m, no_nan (pre ++ xs) -> is_max pre m ->
              is_max (pre ++ xs) (fold_left fmax xs m)).
  { clear. induction xs as [|x xs IH]; intros pre m NN Hm; simpl.
    - by rewrite app_nil_r.
    - rewrite cons_middle, (assoc_L (++) pre [x] xs) in NN |- *. apply IH; [done|].
      destruct Hm as [Hin Hle]. unfold fmax.
      assert (Nx : PrimFloat.is_nan x = false) by (apply NN; set_solver).
      assert (Nm : PrimFloat.is_nan m = false) by (apply NN; set_solver).
      destruct (m <? x)%float eqn:E.
      + split; [set_solver|]. intros y [Hy|Hy%list_elem_of_singleton]%elem_of_app.
        * eapply float_leb_trans; [by apply Hle|by apply float_ltb_leb].
        * subst y. by apply float_leb_refl.
      + split; [set_solver|]. intros y [Hy|Hy%list_elem_of_singleton]%elem_of_app.
        * by apply Hle.
        * subst y. by apply float_ltb_false_leb. }
  apply (G [x0] x0); [done|]. split; [set_solver|].
  intros y Hy%list_elem_of_singleton. subst y. apply float_leb_refl, NN. set_solver.
Qed.

(** ** The geometry aggregator *)

Lemma fold_widen (rest : list SolarSystem.t) (b : bounds) :
  let b' := fold_left widen rest b in
  minX b' = fold_left fmin (SolarSystem.X <$> rest) (minX b)
  /\ maxX b' = fold_left fmax (SolarSystem.X <$> rest) (maxX b)
  /\ minY b' = fold_left fmin (SolarSystem.Y <$> rest) (minY b)
  /\ maxY b' = fold_left fmax (SolarSystem.Y <$> rest) (maxY b)
  /\ minZ b' = fold_left fmin (SolarSystem.Z <$> rest) (minZ b)
  /\ maxZ b' = fold_left fmax (SolarSystem.Z <$> rest) (maxZ b).
Proof.
  revert b. induction rest as [|s rest IH]; intros b; [done|].
  simpl. apply (IH (widen b s)).
Qed.

Lemma calculateBounds_bounds_of (children : list SolarSystem.t) :
  children <> [] ->
  let b := calculateBounds children in
  bounds_of children (minX b) (maxX b) (minY b) (maxY b) (minZ b) (maxZ b).
Proof.
  destruct children as [|s0 rest]; [done|]. intros _ b. subst b.
  unfold calculateBounds.
  destruct (fold_widen rest
    {| minX := SolarSystem.X s0; maxX := SolarSystem.X s0;
       minY := SolarSystem.Y s0; maxY := SolarSystem.Y s0;
       minZ := SolarSystem.Z s0; maxZ := SolarSystem.Z s0 |})
    as (-> & -> & -> & -> & -> & ->).
  cbn [minX maxX minY maxY minZ maxZ]. unfold bounds_of. rewrite !fmap_cons.
  split; [|split]; intros NN;
    (split; [by apply fold_fmin_is_min|by apply fold_fmax_is_max]).
Qed.

Lemma systems_by_lookup key (ss : list SolarSystem.t) (k : Z) :
  default [] (systems_by key ss !! k) = filter (fun s => key s = k) ss.
Proof.
  induction ss as [|s ss IH] using rev_ind; [done|].
  unfold systems_by in *. rewrite fold_left_app, filter_app. simpl.
  destruct (decide (key s = k)) as [<-|Hne].
  - rewrite lookup_insert_eq. simpl. rewrite IH.
    by rewrite filter_cons_True.
  - rewrite lookup_insert_ne, IH by done.
    by rewrite filter_cons_False, filter_nil, app_nil_r.
Qed.

Lemma region_with_bounds_spec (ss : list SolarSystem.t) (r : Region.t) :
  let r' := region_with_bounds (systems_by SolarSystem.RegionID ss) r in
  let children := region_children r ss in
  (children = [] -> r' = r)
  /\ (children <> [] ->
      r' = Region.set_bounds r (Region.XMin r') (Region.XMax r') (Region.YMin r')
             (Region.YMax r') (Region.ZMin r') (Region.ZMax r')
      /\ bounds_of children (Region.XMin r') (Region.XMax r') (Region.YMin r')
           (Region.YMax r') (Region.ZMin r') (Region.ZMax r')).
Proof.
  intros r' children. subst r'. unfold region_with_bounds.
  rewrite systems_by_lookup. fold (region_children r ss). fold children.
  case_decide as Hlen.
  - apply length_zero_iff_nil in Hlen. by split.
  - assert (children <> []) by (by intros E; rewrite E in Hlen).
    split; [done|]. intros _. split; [done|]. by apply calculateBounds_bounds_of.
Qed.

Lemma constellation_with_bounds_spec (ss : list SolarSystem.t) (c : Constellation.t) :
  let c' := constellation_with_bounds (systems_by SolarSystem.ConstellationID ss) c in
  let children := constellation_children c ss in
  (children = [] -> c' = c)
  /\ (children <> [] ->
      c' = Constellation.set_bounds c (Constellation.XMin c') (Constellation.XMax c')
             (Constellation.YMin c') (Constellation.YMax c')
             (Constellation.ZMin c') (Constellation.ZMax c')
      /\ bounds_of children (Constellation.XMin c') (Constellation.XMax c')
           (Constellation.YMin c') (Constellation.YMax c')
           (Constellation.ZMin c') (Constellation.ZMax c')).
Proof.
  intros c' children. subst c'. unfold constellation_with_bounds.
  rewrite systems_by_lookup. fold (constellation_children c ss). fold children.
  case_decide as Hlen.
  - apply length_zero_iff_nil in Hlen. by split.
  - assert (children <> []) by (by intros E; rewrite E in Hlen).
    split; [done|]. intros _. split; [done|]. by apply calculateBounds_bounds_of.
Qed.

Lemma CalculateRegionBounds_run a systems st :
  CalculateRegionBounds (slice_at a) systems st
  = (tt, <[a := arr (region_with_bounds
                        (systems_by SolarSystem.RegionID (elems st systems))
                      <$> elems st (slice_at a))]> st).
Proof. done. Qed.

Lemma CalculateConstellationBounds_run a systems st :
  CalculateConstellationBounds (slice_at a) systems st
  = (tt, <[a := arr (constellation_with_bounds
                        (systems_by SolarSystem.ConstellationID (elems st systems))
                      <$> elems st (slice_at a))]> st).
Proof. done. Qed.

Lemma elems_insert {T} `{Elem T} (st : Store) (a : addr) (l : list T) :
  (a < length st)%nat -> elems (<[a := arr l]> st) (slice_at a) = l.
Proof. intros L. apply elems_lookup. by apply list_lookup_insert_eq. Qed.

(** C3, as amended. [CalculateRegionBounds] rewrites the regions in place
    and changes nothing else. A region with at least one child system (a
    system of its RegionID) keeps all its fields but the six bounds, and
    on each axis with no NaN coordinate among its children its XMin, YMin,
    ZMin is the least and its XMax, YMax, ZMax the greatest coordinate of
    the children. A region with no child system is left as it was: its
    bounds are 0 when they were 0 before the call. The same holds of
    [CalculateConstellationBounds], with ConstellationID. *)
Theorem bounds_written_from_children
    (systems : slice SolarSystem.t) (st : Store)
    (a : addr) (rs : list Region.t) (b : addr) (cs : list Constellation.t) :
  st !! a = Some (arr rs) ->
  st !! b = Some (arr cs) ->
  let ss := elems st systems in
  let str := (CalculateRegionBounds (slice_at a) systems st).2 in
  let stc := (CalculateConstellationBounds (slice_at b) systems st).2 in
  let rs' : list Region.t := elems str (slice_at a) in
  let cs' : list Constellation.t := elems stc (slice_at b) in
  (str = <[a := arr rs']> st
   /\ length rs' = length rs
   /\ forall i r, rs !! i = Some r ->
        exists r', rs' !! i = Some r'
          /\ (region_children r ss = [] -> r' = r)
          /\ (region_children r ss <> [] ->
              r' = Region.set_bounds r (Region.XMin r') (Region.XMax r')
                     (Region.YMin r') (Region.YMax r')
                     (Region.ZMin r') (Region.ZMax r')
              /\ bounds_of (region_children r ss)
                   (Region.XMin r') (Region.XMax r') (Region.YMin r')
                   (Region.YMax r') (Region.ZMin r') (Region.ZMax r')))
  /\ (stc = <[b := arr cs']> st
      /\ length cs' = length cs
      /\ forall i c, cs !! i = Some c ->
           exists c', cs' !! i = Some c'
             /\ (constellation_children c ss = [] -> c' = c)
             /\ (constellation_children c ss <> [] ->
                 c' = Constellation.set_bounds c
                        (Constellation.XMin c') (Constellation.XMax c')
                        (Constellation.YMin c') (Constellation.YMax c')
                        (Constellation.ZMin c') (Constellation.ZMax c')
                 /\ bounds_of (constellation_children c ss)
                      (Constellation.XMin c') (Constellation.XMax c')
                      (Constellation.YMin c') (Constellation.YMax c')
                      (Constellation.ZMin c') (Constellation.ZMax c'))).
Proof.
  intros Ha Hb ss str stc rs' cs'. subst str stc rs' cs'.
  rewrite CalculateRegionBounds_run, CalculateConstellationBounds_run.
  cbn [fst snd].
  rewrite !elems_insert by (by eapply lookup_lt_Some).
  rewrite (elems_lookup st a rs Ha), (elems_lookup st b cs Hb). fold ss.
  split.
  - split; [done|]. split; [by rewrite length_fmap|].
    intros i r Hi. exists (region_with_bounds (systems_by SolarSystem.RegionID ss) r).
    split; [by rewrite list_lookup_fmap, Hi|]. apply region_with_bounds_spec.
  - split; [done|]. split; [by rewrite length_fmap|].
    intros i c Hi.
    exists (constellation_with_bounds (systems_by SolarSystem.ConstellationID ss) c).
    split; [by rewrite list_lookup_fmap, Hi|]. apply constellation_with_bounds_spec.
Qed.

(** C3, as stated, fails: a region that has bounds before the call and no
    child system keeps them, so its bounds are not 0 after the call. *)
Lemma region_without_children_keeps_bounds :
  let r := Region.mk 1 "R" 0 0 0 1 2 3 4 5 6 None 0 0 in
  let st := [RegionArray [r]; SolarSystemArray []] in
  let st' := (CalculateRegionBounds (slice_at 0%nat) (slice_at 1%nat) st).2 in
  ~ (forall r', r' ∈ elems st' (slice_at 0%nat) ->
       region_children r' (elems st (slice_at 1%nat)) = [] ->
       is_zero (Region.XMin r') = true /\ is_zero (Region.XMax r') = true
       /\ is_zero (Region.YMin r') = true /\ is_zero (Region.YMax r') = true
       /\ is_zero (Region.ZMin r') = true /\ is_zero (Region.ZMax r') = true).
Proof.
  intros r st st' H.
  destruct (H r) as [Hx _]; [by apply list_elem_of_singleton|done|].
  vm_compute in Hx. discriminate Hx.
Qed.

(** ** The inheritance resolver *)

Lemma cell_app_l st l p : (p < length st)%nat -> cell (st ++ l) p = cell st p.
Proof. intros L. unfold cell. by rewrite lookup_app_l. Qed.

Lemma inherit_faction_run regionFactions st0 pre sys :
  (forall q, inherits regionFactions sys = Some q -> (q < length st0)%nat) ->
  inherit_faction regionFactions sys (st0 ++ pre)
  = match inherits regionFactions sys with
    | Some q =>
        (SolarSystem.set_FactionID sys (Some (length st0 + length pre)%nat),
         st0 ++ pre ++ [Int64Cell (default 0 (cell st0 q))])
    | None => (sys, st0 ++ pre)
    end.
Proof.
  unfold inherit_faction, inherits. intros Hq.
  destruct (SolarSystem.FactionID sys); [done|].
  destruct (regionFactions !! SolarSystem.RegionID sys) as [[q|]|]; [|done..].
  run. rewrite cell_app_l by (by apply Hq). by rewrite length_app, <- app_assoc.
Qed.

Lemma mapM_inherit_run regionFactions st0 ss pre :
  (forall s q, s ∈ ss -> inherits regionFactions s = Some q -> (q < length st0)%nat) ->
  mapM (inherit_faction regionFactions) ss (st0 ++ pre)
  = let '(ss', cells) :=
      inherit_all regionFactions st0 (length st0 + length pre) ss in
    (ss', st0 ++ pre ++ cells).
Proof.
  revert pre. induction ss as [|s ss IH]; intros pre Hq.
  - simpl. by rewrite app_nil_r.
  - cbn [mapM inherit_all]. unfold mbind, M_bind at 1.
    rewrite inherit_faction_run by (intros q; apply Hq; set_solver).
    destruct (inherits regionFactions s) as [q|].
    + rewrite (assoc_L (++) st0 pre). unfold mbind, M_bind at 1.
      rewrite <- (assoc_L (++) st0 pre), IH by (intros s' q'; intros; eapply Hq; set_solver).
      rewrite length_app. simpl.
      replace (length st0 + (length pre + 1))%nat with (S (length st0 + length pre)) by lia.
      destruct (inherit_all _ _ _ ss) as [ss' cells]. simpl.
      by rewrite <- !app_assoc.
    + unfold mbind, M_bind at 1.
      rewrite IH by (intros s' q'; intros; eapply Hq; set_solver).
      by destruct (inherit_all _ _ _ ss) as [ss' cells].
Qed.

Section inherit_all_properties.
Context (regionFactions : gmap Z ptr) (st0 : Store).

Let run_all := inherit_all regionFactions st0.

Lemma inherit_all_cons next s ss :
  run_all next (s :: ss)
  = match inherits regionFactions s with
    | Some q =>
        (SolarSystem.set_FactionID s (Some next) :: (run_all (S next) ss).1,
         Int64Cell (default 0 (cell st0 q)) :: (run_all (S next) ss).2)
    | None => (s :: (run_all next ss).1, (run_all next ss).2)
    end.
Proof.
  unfold run_all. simpl. destruct (inherits regionFactions s).
  - by destruct (inherit_all _ _ _ ss).
  - by destruct (inherit_all _ _ _ ss).
Qed.

Lemma inherit_all_length next ss : length (run_all next ss).1 = length ss.
Proof.
  revert next. induction ss as [|s ss IH]; intros next; [done|].
  rewrite inherit_all_cons. destruct (inherits regionFactions s); simpl; by rewrite IH.
Qed.

Lemma inherit_all_cells next ss c :
  c ∈ (run_all next ss).2 -> exists v, c = Int64Cell v.
Proof.
  revert next. induction ss as [|s ss IH]; intros next; [by inversion 1|].
  rewrite inherit_all_cons. destruct (inherits regionFactions s); simpl; [|by apply IH].
  intros [->|Hc]%elem_of_cons; [eauto|by eapply IH].
Qed.

Lemma inherit_all_lookup next ss i s :
  ss !! i = Some s ->
  exists s', (run_all next ss).1 !! i = Some s'
    /\ match inherits regionFactions s with
       | None => s' = s
       | Some q =>
           exists k, s' = SolarSystem.set_FactionID s (Some (next + k)%nat)
                     /\ (run_all next ss).2 !! k
                        = Some (Int64Cell (default 0 (cell st0 q)))
       end.
Proof.
  revert next i. induction ss as [|t ss IH]; intros next i Hi; [done|].
  rewrite inherit_all_cons. destruct i as [|i]; simpl in Hi.
  - injection Hi as ->. destruct (inherits regionFactions s) as [q|] eqn:E; simpl.
    + eexists. split; [done|]. exists 0%nat. by rewrite Nat.add_0_r.
    + by eexists.
  - destruct (inherits regionFactions t) as [qt|]; simpl.
    + destruct (IH (S next) i Hi) as (s' & Hs' & Hm). exists s'. split; [done|].
      destruct (inherits regionFactions s) as [q|]; [|done].
      destruct Hm as (k & -> & Hk). exists (S k). split; [|done].
      do 2 f_equal. lia.
    + apply (IH next i Hi).
Qed.

(** A pointer of a system after the loop is the system's own pointer, or
    the address of a new cell. *)
Lemma inherit_all_pointers next ss j t' p :
  (run_all next ss).1 !! j = Some t' ->
  SolarSystem.FactionID t' = Some p ->
  (exists t, ss !! j = Some t /\ SolarSystem.FactionID t = Some p)
  \/ (next <= p)%nat.
Proof.
  intros Hj Hp.
  destruct (ss !! j) as [t|] eqn:E.
  - destruct (inherit_all_lookup next ss j t E) as (s' & Hs' & Hm).
    rewrite Hj in Hs'. injection Hs' as <-.
    destruct (inherits regionFactions t) as [q|].
    + destruct Hm as (k & -> & _). simpl in Hp. injection Hp as <-. right. lia.
    + subst t'. left. eauto.
  - apply lookup_ge_None in E. apply lookup_lt_Some in Hj.
    rewrite inherit_all_length in Hj. lia.
Qed.

(** Two systems do not share a new cell. *)
Lemma inherit_all_distinct next ss i j s s' t' q :
  (forall u p, u ∈ ss -> SolarSystem.FactionID u = Some p -> (p < next)%nat) ->
  ss !! i = Some s ->
  inherits regionFactions s = Some q ->
  (run_all next ss).1 !! i = Some s' ->
  (run_all next ss).1 !! j = Some t' ->
  SolarSystem.FactionID s' = SolarSystem.FactionID t' ->
  i = j.
Proof.
  revert next i j. induction ss as [|u ss IH]; intros next i j Hown Hi Hq; [done|].
  rewrite inherit_all_cons.
  assert (Hown' : forall n u' p, (next <= n)%nat -> u' ∈ ss ->
            SolarSystem.FactionID u' = Some p -> (p < n)%nat).
  { intros n u' p Hn Hu' Hp. assert (p < next)%nat; [|lia].
    eapply Hown; [|done]. set_solver. }
  destruct i as [|i], j as [|j]; [done| | |].
  - (* the head inherits; the other system is in the rest *)
    simpl in Hi. injection Hi as ->. rewrite Hq. simpl.
    intros [= <-] Hj. simpl. intros Hp. symmetry in Hp.
    destruct (inherit_all_pointers _ _ _ _ _ Hj Hp) as [(t & Ht & Hpt)|L]; [|lia].
    assert (next < next)%nat; [|lia].
    apply (Hown' next t next); [lia| |done]. by eapply list_elem_of_lookup_2.
  - (* the other system is the head *)
    simpl in Hi. destruct (inherits regionFactions u) as [qu|] eqn:Eu; simpl.
    + intros Hs' [= <-]. simpl. intros Hp.
      destruct (inherit_all_lookup (S next) ss i s Hi) as (s2 & Hs2 & Hm).
      rewrite Hs' in Hs2. injection Hs2 as <-. rewrite Hq in Hm.
      destruct Hm as (k & -> & _). simpl in Hp. injection Hp. lia.
    + intros Hs' [= <-]. intros Hp.
      destruct (inherit_all_lookup next ss i s Hi) as (s2 & Hs2 & Hm).
      rewrite Hs' in Hs2. injection Hs2 as <-. rewrite Hq in Hm.
      destruct Hm as (k & -> & _). simpl in Hp. symmetry in Hp.
      assert (next + k < next)%nat; [|lia].
      apply (Hown u); [set_solver|done].
  - simpl in Hi. destruct (inherits regionFactions u) as [qu|]; simpl.
    + intros Hs' Ht' Hp. f_equal.
      apply (IH (S next) i j); [intros u' p'; apply Hown'; lia|done..].
    + intros Hs' Ht' Hp. f_equal.
      apply (IH next i j); [intros u' p'; apply Hown'; lia|done..].
Qed.

End inherit_all_properties.

Section faction_inheritance.

Variables (a : addr) (ss : list SolarSystem.t) (regions : slice Region.t) (st : Store).

Let rs := elems st regions.
Let st' := (InheritFactionIDs (slice_at a) regions st).2.
Let ss' : list SolarSystem.t := elems st' (slice_at a).
Let run_all := inherit_all (region_factions rs) st (length st) ss.

(** The slices are slices of the store, the IDs of the regions are
    distinct, and a FactionID that is not nil points to a cell of the
    store. *)
Hypothesis systems_at : st !! a = Some (arr ss).
Hypothesis regions_valid : valid_slice st regions.
Hypothesis regions_NoDup : NoDup (Region.RegionID <$> rs).
Hypothesis region_cells :
  forall r q, r ∈ rs -> Region.FactionID r = Some q -> is_Some (cell st q).
Hypothesis system_cells :
  forall s p, s ∈ ss -> SolarSystem.FactionID s = Some p -> is_Some (cell st p).

Lemma cell_lt p : is_Some (cell st p) -> (p < length st)%nat.
Proof.
  intros [v E]. unfold cell in E. destruct (st !! p) eqn:El; [|done].
  by eapply lookup_lt_Some.
Qed.

Lemma cell_not_systems p : is_Some (cell st p) -> p <> a.
Proof.
  intros [v E] ->. unfold cell in E. by rewrite systems_at in E.
Qed.

Lemma inherits_lt s q :
  inherits (region_factions rs) s = Some q -> (q < length st)%nat.
Proof.
  unfold inherits. destruct (SolarSystem.FactionID s); [done|].
  destruct (region_factions rs !! _) as [[q'|]|] eqn:E; [|done..].
  intros [= ->]. apply region_factions_Some in E as (r & Hr & _ & Hq).
  by eapply cell_lt, region_cells.
Qed.

Lemma InheritFactionIDs_store : st' = <[a := arr run_all.1]> (st ++ run_all.2).
Proof.
  subst st' run_all. unfold InheritFactionIDs.
  unfold mbind, M_bind at 1. unfold load_slice at 1. fold rs.
  unfold mbind, M_bind at 1. unfold load_slice at 1.
  rewrite (elems_lookup st a ss systems_at).
  unfold mbind, M_bind at 1.
  pose proof (mapM_inherit_run (region_factions rs) st ss []) as R.
  rewrite app_nil_r in R. rewrite R by (intros s q _; apply inherits_lt).
  clear R. simpl. rewrite Nat.add_0_r.
  destruct (inherit_all (region_factions rs) st (length st) ss). reflexivity.
Qed.

Lemma InheritFactionIDs_systems : ss' = run_all.1.
Proof.
  subst ss'. rewrite InheritFactionIDs_store. apply elems_insert.
  rewrite length_app. apply lookup_lt_Some in systems_at. lia.
Qed.

Lemma InheritFactionIDs_keeps p o : p <> a -> st !! p = Some o -> st' !! p = Some o.
Proof.
  intros Hp E. rewrite InheritFactionIDs_store, list_lookup_insert_ne by done.
  by apply lookup_app_l_Some.
Qed.

Lemma InheritFactionIDs_old_cell p : is_Some (cell st p) -> cell st' p = cell st p.
Proof.
  intros Hc. pose proof (cell_not_systems p Hc) as Hne.
  destruct Hc as [v E]. rewrite E. unfold cell in *.
  destruct (st !! p) as [o|] eqn:El; [|done].
  by rewrite (InheritFactionIDs_keeps p o).
Qed.

Lemma InheritFactionIDs_new_cell k c :
  run_all.2 !! k = Some c -> st' !! (length st + k)%nat = Some c.
Proof.
  intros E. rewrite InheritFactionIDs_store, list_lookup_insert_ne.
  - by rewrite lookup_app_plus.
  - apply lookup_lt_Some in systems_at. lia.
Qed.

Lemma InheritFactionIDs_regions : elems st' regions = rs.
Proof.
  assert (H : forall x : slice Region.t, valid_slice st x -> elems st' x = elems st x).
  { intros [|b] V; [done|]. destruct V as [l E].
    assert (b <> a) by (intros ->; rewrite systems_at in E; discriminate E).
    rewrite (elems_lookup st b l E). apply elems_lookup.
    by apply InheritFactionIDs_keeps. }
  exact (H regions regions_valid).
Qed.

(** C4. After [InheritFactionIDs(systems, regions)] the systems slice has
    the same length, the regions and every other object of the store are
    unchanged, and system by system, all fields but FactionID unchanged:
    - a system with a FactionID of its own keeps the pointer, and the cell
      keeps its value;
    - a system with a nil FactionID whose region has a FactionID gets a
      pointer to a cell that holds the value of the region's cell and that
      is new: it is no cell of the store before the call, no region and no
      other system points to it, and after any write to it the cells of
      the regions and of the other systems read as before;
    - a system with a nil FactionID whose region has a nil FactionID, or
      that has no region in the slice, keeps a nil FactionID. *)
Theorem InheritFactionIDs_copies :
  length ss' = length ss
  /\ elems st' regions = rs
  /\ (forall p o, p <> a -> st !! p = Some o -> st' !! p = Some o)
  /\ forall i s, ss !! i = Some s ->
       exists s', ss' !! i = Some s'
         /\ SolarSystem.set_FactionID s' None = SolarSystem.set_FactionID s None
         /\ match SolarSystem.FactionID s with
            | Some p => SolarSystem.FactionID s' = Some p /\ cell st' p = cell st p
            | None =>
                (forall r, r ∈ rs -> Region.RegionID r = SolarSystem.RegionID s ->
                   match Region.FactionID r with
                   | Some q =>
                       exists p',
                         SolarSystem.FactionID s' = Some p'
                         /\ cell st' p' = cell st q
                         /\ cell st p' = None
                         /\ (forall r', r' ∈ rs -> Region.FactionID r' <> Some p')
                         /\ (forall j s2, j <> i -> ss' !! j = Some s2 ->
                               SolarSystem.FactionID s2 <> Some p')
                         /\ forall v,
                              let st'' := <[p' := Int64Cell v]> st' in
                              cell st'' p' = Some v
                              /\ (forall r' q', r' ∈ rs ->
                                    Region.FactionID r' = Some q' ->
                                    cell st'' q' = cell st q')
                              /\ (forall j s2 p2, j <> i -> ss' !! j = Some s2 ->
                                    SolarSystem.FactionID s2 = Some p2 ->
                                    cell st'' p2 = cell st' p2)
                   | None => SolarSystem.FactionID s' = None
                   end)
                /\ ((forall r, r ∈ rs ->
                       Region.RegionID r <> SolarSystem.RegionID s) ->
                    SolarSystem.FactionID s' = None)
            end.
Proof.
  split; [by rewrite InheritFactionIDs_systems; apply inherit_all_length|].
  split; [exact InheritFactionIDs_regions|].
  split; [exact InheritFactionIDs_keeps|].
  intros i s Hi.
  destruct (inherit_all_lookup (region_factions rs) st (length st) ss i s Hi)
    as (s' & Hs' & Hm).
  fold run_all in Hs', Hm. rewrite <- InheritFactionIDs_systems in Hs'.
  exists s'. split; [done|].
  assert (Hown : forall u p, u ∈ ss -> SolarSystem.FactionID u = Some p ->
                   (p < length st)%nat).
  { intros u p Hu Hp. by eapply cell_lt, system_cells. }
  unfold inherits in Hm.
  destruct (SolarSystem.FactionID s) as [p|] eqn:Ep.
  { subst s'. split; [done|]. split; [done|].
    apply InheritFactionIDs_old_cell. eapply system_cells; [|done].
    by eapply list_elem_of_lookup_2. }
  destruct (region_factions rs !! SolarSystem.RegionID s) as [[q|]|] eqn:Er.
  - (* the region has a FactionID *)
    destruct Hm as (k & -> & Hk). split; [by destruct s|]. split.
    + intros r Hr Hid. pose proof (region_factions_NoDup rs r regions_NoDup Hr) as E.
      rewrite Hid, Er in E. injection E as Eq. rewrite <- Eq.
      destruct (region_cells r q Hr (eq_sym Eq)) as [vq Hq].
      rewrite Hq in Hk. simpl in Hk.
      pose proof (InheritFactionIDs_new_cell k _ Hk) as Hnew.
      assert (Hfresh : forall p2, is_Some (cell st p2) -> p2 <> (length st + k)%nat).
      { intros p2 Hc%cell_lt. lia. }
      assert (Hothers : forall j s2, j <> i -> ss' !! j = Some s2 ->
                SolarSystem.FactionID s2 <> Some (length st + k)%nat).
      { intros j s2 Hj Hs2 Hp2. apply Hj. symmetry.
        rewrite InheritFactionIDs_systems in Hs', Hs2.
        eapply (inherit_all_distinct (region_factions rs) st (length st) ss i j);
          [exact Hown|exact Hi| |exact Hs'|exact Hs2|by rewrite Hp2].
        unfold inherits. by rewrite Ep, Er. }
      exists (length st + k)%nat. split; [done|]. split.
      { unfold cell at 1. by rewrite Hnew, Hq. }
      split.
      { unfold cell. rewrite lookup_ge_None_2; [done|lia]. }
      split.
      { intros r' Hr' Hp'. eapply Hfresh; [|done]. by eapply region_cells. }
      split; [exact Hothers|].
      intros v st''. subst st''. split.
      { unfold cell. rewrite list_lookup_insert_eq; [done|].
        by eapply lookup_lt_Some. }
      split.
      { intros r' q' Hr' Hq'. pose proof (region_cells r' q' Hr' Hq') as Hc.
        unfold cell at 1. rewrite list_lookup_insert_ne by (by apply not_eq_sym, Hfresh).
        by apply InheritFactionIDs_old_cell. }
      { intros j s2 p2 Hj Hs2 Hp2. unfold cell at 1.
        rewrite list_lookup_insert_ne; [done|].
        intros <-. by eapply Hothers. }
    + intros Hno. apply region_factions_Some in Er as (r & Hr & Hid & _).
      by destruct (Hno r Hr).
  - (* the region has a nil FactionID *)
    subst s'. split; [done|]. split; [|done].
    intros r Hr Hid. pose proof (region_factions_NoDup rs r regions_NoDup Hr) as E.
    rewrite Hid, Er in E. injection E as Eq. by rewrite <- Eq.
  - (* no region of the slice has the RegionID of the system *)
    subst s'. split; [done|]. split; [|done].
    intros r Hr Hid. rewrite region_factions_None in Er. by destruct (Er r Hr).
Qed.

End faction_inheritance.

(** ** Transform *)

(** Whatever the store, the loop of [InheritFactionIDs] only adds cells to
    it, and changes the FactionID of a system at most. *)
Lemma inherit_faction_post regionFactions sys st :
  let r := inherit_faction regionFactions sys st in
  same_but_faction sys r.1
  /\ exists cells, r.2 = st ++ cells /\ Forall is_cell cells.
Proof.
  unfold inherit_faction, same_but_faction.
  destruct (SolarSystem.FactionID sys) eqn:E.
  { simpl. split; [done|]. exists []. by rewrite app_nil_r. }
  destruct (regionFactions !! SolarSystem.RegionID sys) as [[q|]|].
  - run. simpl. split; [done|]. eexists. split; [done|].
    constructor; [by eexists|constructor].
  - simpl. split; [done|]. exists []. by rewrite app_nil_r.
  - simpl. split; [done|]. exists []. by rewrite app_nil_r.
Qed.

Lemma bind_run {A B} (m : M A) (f : A -> M B) st :
  (m ≫= f) st = f (m st).1 (m st).2.
Proof. unfold mbind, M_bind. by destruct (m st). Qed.

Lemma mapM_inherit_post regionFactions ss st :
  let r := mapM (inherit_faction regionFactions) ss st in
  Forall2 same_but_faction ss r.1
  /\ exists cells, r.2 = st ++ cells /\ Forall is_cell cells.
Proof.
  revert st. induction ss as [|s ss IH]; intros st.
  - simpl. split; [constructor|]. exists []. by rewrite app_nil_r.
  - cbn [mapM]. rewrite !bind_run.
    destruct (inherit_faction_post regionFactions s st) as (H1 & c1 & E1 & F1).
    destruct (inherit_faction regionFactions s st) as [s' st1]. simpl in H1, E1.
    cbn [fst snd].
    destruct (IH st1) as (H2 & c2 & E2 & F2).
    destruct (mapM (inherit_faction regionFactions) ss st1) as [ss' st2].
    simpl in H2, E2 |- *. split; [by constructor|].
    exists (c1 ++ c2). subst. rewrite app_assoc. split; [done|].
    by apply Forall_app.
Qed.

Lemma InheritFactionIDs_post a regions st (ss : list SolarSystem.t) :
  elems st (slice_at a) = ss ->
  exists ss' cells,
    InheritFactionIDs (slice_at a) regions st
    = (tt, <[a := arr ss']> (st ++ cells))
    /\ Forall2 same_but_faction ss ss'
    /\ Forall is_cell cells.
Proof.
  intros E. unfold InheritFactionIDs. rewrite !bind_run.
  unfold load_slice. cbn [fst snd]. rewrite E.
  destruct (mapM_inherit_post (region_factions (elems st regions)) ss st)
    as (H & cells & Est & F).
  destruct (mapM _ ss st) as [ss' st']. simpl in H, Est. subst st'.
  by exists ss', cells.
Qed.

Lemma transformSolarSystems_run systems st :
  transformSolarSystems systems st
  = (slice_at (length st),
     st ++ [arr (sorted_by less_SolarSystem (elems st systems))]).
Proof. apply copy_sorted_run. Qed.

Lemma sortRegions_run regions st :
  sortRegions regions st
  = (slice_at (length st), st ++ [arr (sorted_by less_Region (elems st regions))]).
Proof. apply copy_sorted_run. Qed.

Lemma sortConstellations_run constellations st :
  sortConstellations constellations st
  = (slice_at (length st),
     st ++ [arr (sorted_by less_Constellation (elems st constellations))]).
Proof. apply copy_sorted_run. Qed.

Lemma sortWormholeClasses_run classes st :
  sortWormholeClasses classes st
  = (slice_at (length st),
     st ++ [arr (sorted_by less_WormholeClass (elems st classes))]).
Proof. apply copy_sorted_run. Qed.

Lemma elems_app_plus {T} `{Elem T} (st l2 : Store) (i : nat) (l : list T) :
  l2 !! i = Some (arr l) -> elems (st ++ l2) (slice_at (length st + i)%nat) = l.
Proof. intros E. apply elems_lookup. by rewrite lookup_app_plus. Qed.

Lemma insert_app_0 {A} (l1 l2 : list A) (x y : A) :
  <[length l1 := x]> (l1 ++ y :: l2) = l1 ++ x :: l2.
Proof. by rewrite <- (Nat.add_0_r (length l1)), insert_app_plus. Qed.

Lemma elems_app_0 {T} `{Elem T} (st l2 : Store) (l : list T) :
  elems (st ++ arr l :: l2) (slice_at (length st)) = l.
Proof. rewrite <- (Nat.add_0_r (length st)). by apply elems_app_plus. Qed.

Section Transform_properties.

Variable range_map : forall V : Type, gmap Z V -> list (Z * V).

Lemma Transform_run (parseResult : ParseResult.t) (st : Store) :
  let n := length st in
  let S := sorted_by less_SolarSystem
             (elems st (ParseResult.SolarSystems parseResult)) in
  let R := sorted_by less_Region
             (elems (st ++ [arr S]) (ParseResult.Regions parseResult)) in
  let C := sorted_by less_Constellation
             (elems (st ++ [arr S; arr R]) (ParseResult.Constellations parseResult)) in
  let st3 := st ++ [arr S; arr R; arr C] in
  let G := sorted_by less_InvGroup
             (ship_groups (range_map _ (entries st3 (ParseResult.Groups parseResult)))) in
  let st4 := st ++ [arr S; arr R; arr C; arr G] in
  let Ty := sorted_by less_InvType
              (ship_types
                 (ship_group_ids
                    (range_map _ (entries st4 (ParseResult.Groups parseResult))))
                 (range_map _ (entries st4 (ParseResult.Types parseResult)))) in
  let W := sorted_by less_WormholeClass
             (elems (st ++ [arr S; arr R; arr C; arr G; arr Ty])
                (ParseResult.WormholeClasses parseResult)) in
  let J := sorted_by less_SystemJump
             (enrich_jump (system_lookup S)
                <$> elems (st ++ [arr S; arr R; arr C; arr G; arr Ty; arr W])
                      (ParseResult.SystemJumps parseResult)) in
  let R' := region_with_bounds (systems_by SolarSystem.RegionID S) <$> R in
  let C' := constellation_with_bounds (systems_by SolarSystem.ConstellationID S)
              <$> C in
  exists (S' : list SolarSystem.t) (cells : Store),
    Forall2 same_but_faction S S'
    /\ Forall is_cell cells
    /\ let st10 :=
         st ++ [arr S'; arr R'; arr C'; arr G; arr Ty; arr W; arr J] ++ cells in
       let N := sorted_by less_NPCStation
                  (npc_stations
                     (entries st10 (ParseResult.NPCCorporations parseResult))
                     (range_map _
                        (entries st10 (ParseResult.NPCStations parseResult)))) in
       Transform range_map parseResult st
       = (({| ConvertedData.Universe :=
                {| UniverseData.Regions := slice_at (n + 1)%nat;
                   UniverseData.Constellations := slice_at (n + 2)%nat;
                   UniverseData.SolarSystems := slice_at n |};
              ConvertedData.InvTypes := slice_at (n + 4)%nat;
              ConvertedData.InvGroups := slice_at (n + 3)%nat;
              ConvertedData.WormholeClasses := slice_at (n + 5)%nat;
              ConvertedData.SystemJumps := slice_at (n + 6)%nat;
              ConvertedData.NPCStations := slice_at (n + (7 + length cells))%nat |},
           None),
          st10 ++ [arr N]).
Proof.
  intros n S R C st3 G st4 Ty W J R' C'. subst st3 st4.
  unfold Transform.
  rewrite bind_run, transformSolarSystems_run. cbn [fst snd]. fold S.
  rewrite bind_run, sortRegions_run. cbn [fst snd]. fold R.
  rewrite <- (app_assoc st), length_app. cbn [app length].
  rewrite bind_run, sortConstellations_run. cbn [fst snd]. fold C.
  rewrite <- (app_assoc st), length_app. cbn [app length].
  rewrite bind_run, transformShipGroups_run. cbn [fst snd]. fold G.
  rewrite <- (app_assoc st), length_app. cbn [app length].
  rewrite bind_run, transformShipTypes_run. cbn [fst snd]. fold Ty.
  rewrite <- (app_assoc st), length_app. cbn [app length].
  rewrite bind_run, sortWormholeClasses_run. cbn [fst snd]. fold W.
  rewrite <- (app_assoc st), length_app. cbn [app length].
  rewrite bind_run, transformSystemJumps_run. cbn [fst snd].
  rewrite (elems_app_0 st _ S). fold J.
  rewrite <- (app_assoc st), length_app. cbn [app length].
  rewrite bind_run, CalculateRegionBounds_run. cbn [fst snd].
  rewrite (elems_app_0 st _ S), (elems_app_plus st _ 1 R) by done.
  rewrite insert_app_plus.
  fold R'. cbn [insert list_insert].
  rewrite bind_run, CalculateConstellationBounds_run. cbn [fst snd].
  rewrite (elems_app_0 st _ S), (elems_app_plus st _ 2 C) by done.
  rewrite insert_app_plus.
  fold C'. cbn [insert list_insert].
  rewrite bind_run.
  destruct (InheritFactionIDs_post (length st) (slice_at (length st + 1)%nat)
              (st ++ [arr S; arr R'; arr C'; arr G; arr Ty; arr W; arr J]) S
              (elems_app_0 st _ S)) as (S' & cells & -> & HS' & Hcells).
  exists S', cells. split; [done|]. split; [done|].
  cbn [fst snd]. rewrite <- (app_assoc st). cbn [app]. rewrite insert_app_0.
  rewrite bind_run, transformNPCStations_run. cbn [fst snd mret M_ret].
  rewrite length_app. reflexivity.
Qed.

(** The slices of the result, read in the store [Transform] leaves. *)
Lemma Transform_output (parseResult : ParseResult.t) (st : Store) :
  let r := Transform range_map parseResult st in
  let data := r.1.1 in
  let universe := ConvertedData.Universe data in
  exists S S' R C G Ty W J N,
    S ≡ₚ elems st (ParseResult.SolarSystems parseResult)
    /\ Forall2 same_but_faction
         (sorted_by less_SolarSystem S) S'
    /\ r.1.2 = None
    /\ keeps st r.2
    /\ elems r.2 (UniverseData.SolarSystems universe) = S'
    /\ elems r.2 (UniverseData.Regions universe)
       = region_with_bounds
           (systems_by SolarSystem.RegionID (sorted_by less_SolarSystem S))
         <$> sorted_by less_Region R
    /\ elems r.2 (UniverseData.Constellations universe)
       = constellation_with_bounds
           (systems_by SolarSystem.ConstellationID (sorted_by less_SolarSystem S))
         <$> sorted_by less_Constellation C
    /\ elems r.2 (ConvertedData.InvGroups data) = sorted_by less_InvGroup G
    /\ elems r.2 (ConvertedData.InvTypes data) = sorted_by less_InvType Ty
    /\ elems r.2 (ConvertedData.WormholeClasses data) = sorted_by less_WormholeClass W
    /\ elems r.2 (ConvertedData.SystemJumps data) = sorted_by less_SystemJump J
    /\ elems r.2 (ConvertedData.NPCStations data) = sorted_by less_NPCStation N.
Proof.
  intros r data universe. subst universe data r.
  destruct (Transform_run parseResult st) as (S' & cells & HS' & Hcells & E).
  cbv zeta in E. rewrite E. cbn [fst snd ConvertedData.Universe
    UniverseData.SolarSystems UniverseData.Regions UniverseData.Constellations
    ConvertedData.InvGroups ConvertedData.InvTypes ConvertedData.WormholeClasses
    ConvertedData.SystemJumps ConvertedData.NPCStations].
  do 9 eexists.
  split; [reflexivity|]. split; [exact HS'|]. split; [done|].
  split; [rewrite <- (app_assoc st); apply keeps_app|].
  split; [by rewrite <- (app_assoc st); apply elems_app_0|].
  split; [by rewrite <- (app_assoc st); apply (elems_app_plus st _ 1)|].
  split; [by rewrite <- (app_assoc st); apply (elems_app_plus st _ 2)|].
  split; [by rewrite <- (app_assoc st); apply (elems_app_plus st _ 3)|].
  split; [by rewrite <- (app_assoc st); apply (elems_app_plus st _ 4)|].
  split; [by rewrite <- (app_assoc st); apply (elems_app_plus st _ 5)|].
  split; [by rewrite <- (app_assoc st); apply (elems_app_plus st _ 6)|].
  match goal with |- elems (?s ++ _) _ = _ =>
    replace (length st + (7 + length cells))%nat with (length s)
      by (rewrite length_app; simpl; lia)
  end.
  apply elems_new.
Qed.

Lemma same_but_faction_keys (S S' : list SolarSystem.t) :
  Forall2 same_but_faction S S' ->
  SolarSystem.SolarSystemID <$> S' = SolarSystem.SolarSystemID <$> S
  /\ id_and_security <$> S' = id_and_security <$> S.
Proof.
  induction 1 as [|s s' S S' H _ [IH1 IH2]]; [done|].
  rewrite !fmap_cons, IH1, IH2. unfold same_but_faction in H.
  destruct s, s'. injection H as -> -> -> -> -> -> -> -> -> -> -> -> ->
    -> -> -> -> -> -> -> -> -> -> -> ->. done.
Qed.

Lemma region_with_bounds_id m r :
  Region.RegionID (region_with_bounds m r) = Region.RegionID r.
Proof. unfold region_with_bounds. by case_decide. Qed.

Lemma constellation_with_bounds_id m c :
  Constellation.ConstellationID (constellation_with_bounds m c)
  = Constellation.ConstellationID c.
Proof. unfold constellation_with_bounds. by case_decide. Qed.

Lemma region_with_bounds_ids m (l : list Region.t) :
  Region.RegionID <$> (region_with_bounds m <$> l) = Region.RegionID <$> l.
Proof.
  induction l as [|r l IH]; [done|].
  by rewrite !fmap_cons, IH, region_with_bounds_id.
Qed.

Lemma constellation_with_bounds_ids m (l : list Constellation.t) :
  Constellation.ConstellationID <$> (constellation_with_bounds m <$> l)
  = Constellation.ConstellationID <$> l.
Proof.
  induction l as [|c l IH]; [done|].
  by rewrite !fmap_cons, IH, constellation_with_bounds_id.
Qed.

(** C7. Whatever the order in which the maps are ranged over, every
    collection of the data [Transform] returns is in ascending order of its
    key: Regions by RegionID, Constellations by ConstellationID,
    SolarSystems by SolarSystemID, InvTypes by TypeID, InvGroups by
    GroupID, WormholeClasses by LocationID, NPCStations by StationID, and
    SystemJumps by FromSolarSystemID, then by ToSolarSystemID. *)
Theorem Transform_output_sorted (parseResult : ParseResult.t) (st : Store) :
  let r := Transform range_map parseResult st in
  let data := r.1.1 in
  let universe := ConvertedData.Universe data in
  ascending Region.RegionID (elems r.2 (UniverseData.Regions universe))
  /\ ascending Constellation.ConstellationID
       (elems r.2 (UniverseData.Constellations universe))
  /\ ascending SolarSystem.SolarSystemID
       (elems r.2 (UniverseData.SolarSystems universe))
  /\ ascending InvType.TypeID (elems r.2 (ConvertedData.InvTypes data))
  /\ ascending InvGroup.GroupID (elems r.2 (ConvertedData.InvGroups data))
  /\ ascending WormholeClassLocation.LocationID
       (elems r.2 (ConvertedData.WormholeClasses data))
  /\ ascending NPCStation.StationID (elems r.2 (ConvertedData.NPCStations data))
  /\ ascending_pairs jump_key (elems r.2 (ConvertedData.SystemJumps data)).
Proof.
  intros r data universe. subst universe data r.
  destruct (Transform_output parseResult st)
    as (S & S' & R & C & G & Ty & W & J & N & _ & HS' & _ & _
        & E1 & E2 & E3 & E4 & E5 & E6 & E7 & E8).
  rewrite E1, E2, E3, E4, E5, E6, E7, E8. clear E1 E2 E3 E4 E5 E6 E7 E8.
  split; [|split; [|split; [|split; [|split; [|split; [|split]]]]]].
  - unfold ascending. rewrite region_with_bounds_ids.
    by apply (sorted_by_ascending Region.RegionID less_Region).
  - unfold ascending. rewrite constellation_with_bounds_ids.
    by apply (sorted_by_ascending Constellation.ConstellationID less_Constellation).
  - unfold ascending. apply same_but_faction_keys in HS' as [-> _].
    by apply (sorted_by_ascending SolarSystem.SolarSystemID less_SolarSystem).
  - by apply (sorted_by_ascending InvType.TypeID less_InvType).
  - by apply (sorted_by_ascending InvGroup.GroupID less_InvGroup).
  - by apply (sorted_by_ascending WormholeClassLocation.LocationID less_WormholeClass).
  - by apply (sorted_by_ascending NPCStation.StationID less_NPCStation).
  - apply sorted_jumps_ascending.
Qed.

(** C9. The systems [Transform] returns are the systems of the input, each
    once, in some order, and each with all its fields but FactionID as in
    the input: in particular every system is returned with its raw
    Security, and no system is returned with another value. *)
Theorem Transform_keeps_raw_security (parseResult : ParseResult.t) (st : Store) :
  let r := Transform range_map parseResult st in
  let input := elems st (ParseResult.SolarSystems parseResult) in
  let output :=
    elems r.2 (UniverseData.SolarSystems (ConvertedData.Universe r.1.1)) in
  (exists sorted, sorted ≡ₚ input /\ Forall2 same_but_faction sorted output)
  /\ id_and_security <$> output ≡ₚ id_and_security <$> input
  /\ (forall s, s ∈ input ->
        exists s', s' ∈ output
          /\ SolarSystem.SolarSystemID s' = SolarSystem.SolarSystemID s
          /\ SolarSystem.Security s' = SolarSystem.Security s)
  /\ (forall s', s' ∈ output ->
        exists s, s ∈ input
          /\ SolarSystem.SolarSystemID s' = SolarSystem.SolarSystemID s
          /\ SolarSystem.Security s' = SolarSystem.Security s).
Proof.
  intros r input output.
  destruct (Transform_output parseResult st)
    as (S & S' & R & C & G & Ty & W & J & N & HS & HS' & _ & _ & Hout & _).
  fold r in Hout. fold output in Hout. fold input in HS. subst S'.
  assert (HP : sorted_by less_SolarSystem S ≡ₚ input)
    by (etrans; [apply sorted_by_Permutation|exact HS]).
  destruct (same_but_faction_keys _ _ HS') as [_ Hk].
  assert (HK : id_and_security <$> output ≡ₚ id_and_security <$> input)
    by (by rewrite Hk, HP).
  split; [by eexists|]. split; [exact HK|]. split.
  - intros s Hs. apply (list_elem_of_fmap_2 id_and_security) in Hs.
    rewrite <- HK in Hs. apply list_elem_of_fmap in Hs as (s' & E & Hs').
    exists s'. split; [done|]. by injection E as -> ->.
  - intros s' Hs'. apply (list_elem_of_fmap_2 id_and_security) in Hs'.
    rewrite HK in Hs'. apply list_elem_of_fmap in Hs' as (s & E & Hs).
    exists s. split; [done|]. by injection E as -> ->.
Qed.

(** C10. [Transform] never changes its input: every object the store had
    before the call is in the store after it, unchanged, so each of the
    ten collections of the parse result has the elements it had; and
    [Transform] returns no error. *)
Theorem Transform_keeps_input (parseResult : ParseResult.t) (st : Store) :
  valid_input st parseResult ->
  let r := Transform range_map parseResult st in
  r.1.2 = None
  /\ keeps st r.2
  /\ elems r.2 (ParseResult.Regions parseResult)
     = elems st (ParseResult.Regions parseResult)
  /\ elems r.2 (ParseResult.Constellations parseResult)
     = elems st (ParseResult.Constellations parseResult)
  /\ elems r.2 (ParseResult.SolarSystems parseResult)
     = elems st (ParseResult.SolarSystems parseResult)
  /\ entries r.2 (ParseResult.Types parseResult)
     = entries st (ParseResult.Types parseResult)
  /\ entries r.2 (ParseResult.Groups parseResult)
     = entries st (ParseResult.Groups parseResult)
  /\ entries r.2 (ParseResult.Categories parseResult)
     = entries st (ParseResult.Categories parseResult)
  /\ elems r.2 (ParseResult.WormholeClasses parseResult)
     = elems st (ParseResult.WormholeClasses parseResult)
  /\ elems r.2 (ParseResult.SystemJumps parseResult)
     = elems st (ParseResult.SystemJumps parseResult)
  /\ entries r.2 (ParseResult.NPCStations parseResult)
     = entries st (ParseResult.NPCStations parseResult)
  /\ entries r.2 (ParseResult.NPCCorporations parseResult)
     = entries st (ParseResult.NPCCorporations parseResult).
Proof.
  intros (V1 & V2 & V3 & V4 & V5 & V6 & V7 & V8 & V9 & V10) r.
  destruct (Transform_output parseResult st)
    as (S & S' & R & C & G & Ty & W & J & N & _ & _ & Herr & K & _).
  fold r in Herr, K.
  repeat split; auto using valid_slice_keeps, valid_map_keeps.
Qed.

End Transform_properties.

(** ** The properties on the small universe *)

Lemma Example_regions_NoDup :
  NoDup (Region.RegionID <$> elems Example.store (slice_at 3 : slice Region.t)).
Proof. apply (bool_decide_unpack _). vm_compute. exact I. Qed.

Lemma Example_region_cells r q :
  r ∈ elems Example.store (slice_at 3 : slice Region.t) ->
  Region.FactionID r = Some q -> is_Some (cell Example.store q).
Proof.
  change (elems Example.store (slice_at 3 : slice Region.t))
    with [Example.forge; Example.derelik].
  intros [->|[->|[]%elem_of_nil]%elem_of_cons]%elem_of_cons; [|done].
  intros [= <-]. by eexists.
Qed.

Lemma Example_system_cells s p :
  s ∈ [Example.jita; Example.tanoo] ->
  SolarSystem.FactionID s = Some p -> is_Some (cell Example.store p).
Proof. by intros [->|[->|[]%elem_of_nil]%elem_of_cons]%elem_of_cons. Qed.

(** In the small universe Jita, which has no FactionID, ends with a pointer
    to a cell that was not in the store and holds the value of the cell
    of The Forge. *)
Lemma InheritFactionIDs_copies_witness :
  let st := Example.store in
  let st' := (InheritFactionIDs (slice_at 5) (slice_at 3) st).2 in
  exists s' p',
    elems st' (slice_at 5) !! 0%nat = Some s'
    /\ SolarSystem.FactionID s' = Some p'
    /\ cell st' p' = Some 500001
    /\ cell st p' = None.
Proof.
  intros st st'.
  destruct (InheritFactionIDs_copies 5 [Example.jita; Example.tanoo] (slice_at 3) st)
    as (_ & _ & _ & H).
  - reflexivity.
  - by eexists.
  - exact Example_regions_NoDup.
  - exact Example_region_cells.
  - exact Example_system_cells.
  - destruct (H 0%nat Example.jita eq_refl) as (s' & Hs' & _ & Hr & _).
    destruct (Hr Example.forge) as (p' & Hp' & Hc & Hn & _).
    + by apply elem_of_cons; left.
    + reflexivity.
    + exists s', p'. by repeat split.
Defined.

(** In the small universe both bounds functions keep the number of
    records. *)
Lemma bounds_written_from_children_witness :
  let st := Example.store in
  length (elems (CalculateRegionBounds (slice_at 3) (slice_at 5) st).2
            (slice_at 3 : slice Region.t)) = 2%nat
  /\ length (elems (CalculateConstellationBounds (slice_at 4) (slice_at 5) st).2
               (slice_at 4 : slice Constellation.t)) = 1%nat.
Proof.
  intros st.
  destruct (bounds_written_from_children (slice_at 5) st
              3 [Example.forge; Example.derelik] 4 [Example.kimotoro]
              eq_refl eq_refl) as [(_ & Hr & _) (_ & Hc & _)].
  by split.
Defined.

Lemma Example_range_map_spec (V : Type) (m : gmap Z V) :
  Example.in_key_order V m ≡ₚ map_to_list m.
Proof. reflexivity. Qed.

(** In the small universe the ship types come out in strictly ascending
    order of TypeID. *)
Lemma ship_filter_join_correct_witness :
  let r := transformShipTypes Example.in_key_order (map_at 6) (map_at 7)
             Example.store in
  strictly_ascending InvType.TypeID (elems r.2 r.1).
Proof.
  intros r.
  by destruct (ship_filter_join_correct Example.in_key_order Example_range_map_spec
                 (map_at 6) (map_at 7) Example.store) as (_ & _ & _ & H & _).
Defined.

Lemma Example_valid_input : valid_input Example.store Example.parseResult.
Proof. repeat split; by eexists. Qed.

(** In the small universe [Transform] keeps every object of the store. *)
Lemma Transform_keeps_input_witness :
  keeps Example.store
    (Transform Example.in_key_order Example.parseResult Example.store).2.
Proof.
  by destruct (Transform_keeps_input Example.in_key_order Example.parseResult
                 Example.store Example_valid_input) as (_ & H & _).
Defined.

(** ** Rounding in binary64

    The specification of the primitive operators ([mul_spec], [ltb_spec],
    ...) gives the product of two floats as the rounding of the exact
    product of their mantissas. The lemmas below read that rounding in
    integer arithmetic: a mantissa is shifted right by [n] bits, which
    divides it by [2 ^ n], and rounding adds at most one. *)

Lemma digits2_pos_bounds (p : positive) :
  2 ^ (Zpos (digits2_pos p) - 1) <= Zpos p < 2 ^ Zpos (digits2_pos p).
Proof.
  induction p as [p IH|p IH|]; simpl digits2_pos.
  - rewrite Pos2Z.inj_succ. replace (Z.succ (Zpos (digits2_pos p)) - 1)
      with (Zpos (digits2_pos p) - 1 + 1) by lia.
    rewrite Z.pow_succ_r, (Z.pow_add_r 2 _ 1) by lia. lia.
  - rewrite Pos2Z.inj_succ. replace (Z.succ (Zpos (digits2_pos p)) - 1)
      with (Zpos (digits2_pos p) - 1 + 1) by lia.
    rewrite Z.pow_succ_r, (Z.pow_add_r 2 _ 1) by lia. lia.
  - simpl. lia.
Qed.

(** The number of digits of a positive number is determined by the powers
    of two around it. *)
Lemma digits2_pos_unique (p : positive) (d : Z) :
  2 ^ (d - 1) <= Zpos p < 2 ^ d -> Zpos (digits2_pos p) = d.
Proof.
  intros [L U]. pose proof (digits2_pos_bounds p) as [L' U'].
  assert (0 < d).
  { destruct (Z.lt_ge_cases 0 d) as [|Hd]; [done|].
    assert (2 ^ d <= 2 ^ 0) by (apply Z.pow_le_mono_r; lia).
    change (2 ^ 0) with 1 in *. lia. }
  destruct (Z.lt_trichotomy (Zpos (digits2_pos p)) d) as [Hlt|[Heq|Hgt]]; [|done|].
  - assert (2 ^ Zpos (digits2_pos p) <= 2 ^ (d - 1))
      by (apply Z.pow_le_mono_r; lia). lia.
  - assert (2 ^ d <= 2 ^ (Zpos (digits2_pos p) - 1))
      by (apply Z.pow_le_mono_r; lia). lia.
Qed.

Lemma shr_1_m (mrs : shr_record) :
  0 <= shr_m mrs -> shr_m (shr_1 mrs) = shr_m mrs / 2.
Proof.
  destruct mrs as [m r s]. simpl. intros Hm.
  destruct m as [|[p|p|]|p]; simpl; try done; try lia.
  - rewrite Pos2Z.inj_xI. apply (Z.div_unique _ 2 _ 1); lia.
  - rewrite Pos2Z.inj_xO. apply (Z.div_unique _ 2 _ 0); lia.
Qed.

Lemma iter_shr_1_m (p : positive) (mrs : shr_record) :
  0 <= shr_m mrs -> shr_m (SpecFloat.iter_pos shr_1 p mrs) = shr_m mrs / 2 ^ Zpos p.
Proof.
  revert mrs. induction p as [p IH|p IH|]; intros mrs Hm; simpl SpecFloat.iter_pos.
  - assert (H1 : 0 <= shr_m (shr_1 mrs))
      by (rewrite shr_1_m by done; apply Z.div_pos; lia).
    assert (H2 : 0 <= shr_m (SpecFloat.iter_pos shr_1 p (shr_1 mrs)))
      by (rewrite IH by done; apply Z.div_pos; lia).
    rewrite IH, IH, shr_1_m by done.
    rewrite !Z.div_div by lia. f_equal.
    rewrite Pos2Z.inj_xI, <- !Z.pow_add_r, <- (Z.pow_1_r 2) at 1 by lia.
    rewrite <- Z.pow_add_r by lia. f_equal. lia.
  - assert (H2 : 0 <= shr_m (SpecFloat.iter_pos shr_1 p mrs))
      by (rewrite IH by done; apply Z.div_pos; lia).
    rewrite IH, IH by done.
    rewrite !Z.div_div by lia. f_equal.
    rewrite Pos2Z.inj_xO, <- !Z.pow_add_r by lia. f_equal. lia.
  - by rewrite shr_1_m.
Qed.

(** [shr] shifts by [n] bits when [n] is positive, and not at all
    otherwise. *)
Lemma shr_spec (mrs : shr_record) (e n : Z) :
  0 <= shr_m mrs ->
  shr_m (shr mrs e n).1 = shr_m mrs / 2 ^ Z.max n 0
  /\ (shr mrs e n).2 = e + Z.max n 0.
Proof.
  intros Hm. destruct n as [|p|p]; simpl.
  - rewrite Z.div_1_r. split; [done|lia].
  - by rewrite iter_shr_1_m.
  - rewrite Z.div_1_r. split; [done|lia].
Qed.

Lemma shr_record_of_loc_m (m : Z) (l : location) :
  shr_m (shr_record_of_loc m l) = m.
Proof. by destruct l as [|[]]. Qed.

Lemma round_nearest_even_bounds (m : Z) (l : location) :
  m <= round_nearest_even m l <= m + 1.
Proof.
  unfold round_nearest_even. destruct l as [|[]]; try lia.
  destruct (Z.even m); lia.
Qed.

(** The rounding of a positive mantissa, step by step: the first shift, the
    rounding of the shifted mantissa, and the second shift, which makes room
    when the rounding has carried into one more digit. *)
Lemma binary_round_aux_spec (P : positive) (E : Z) (lx : location) :
  let n1 := Z.max (fexp prec emax (Zpos (digits2_pos P) + E) - E) 0 in
  let q1 := Zpos P / 2 ^ n1 in
  let e1 := E + n1 in
  exists m1,
    q1 <= m1 <= q1 + 1
    /\ let n2 := Z.max (fexp prec emax (Zdigits2 m1 + e1) - e1) 0 in
       binary_round_aux prec emax false (Zpos P) E lx
       = match m1 / 2 ^ n2 with
         | Z0 => S754_zero false
         | Zpos m => if e1 + n2 <=? emax - prec
                     then S754_finite false m (e1 + n2)
                     else S754_infinity false
         | Zneg _ => S754_nan
         end.
Proof.
  intros n1 q1 e1. unfold binary_round_aux, shr_fexp.
  pose proof (shr_spec (shr_record_of_loc (Zpos P) lx) E
                (fexp prec emax (Zdigits2 (Zpos P) + E) - E)) as [Hm He].
  { by rewrite shr_record_of_loc_m. }
  rewrite shr_record_of_loc_m in Hm. simpl Zdigits2 in Hm, He.
  fold n1 in Hm, He. fold q1 in Hm. fold e1 in He.
  destruct (shr _ E _) as [mrs' e'] eqn:Es. simpl in Hm, He. subst e'.
  set (m1 := round_nearest_even (shr_m mrs') (loc_of_shr_record mrs')).
  assert (Hq1 : 0 <= q1) by (apply Z.div_pos; lia).
  assert (Hm1 : q1 <= m1 <= q1 + 1).
  { subst m1. rewrite <- Hm. apply round_nearest_even_bounds. }
  exists m1. split; [done|].
  set (n2 := Z.max (fexp prec emax (Zdigits2 m1 + e1) - e1) 0).
  pose proof (shr_spec (shr_record_of_loc m1 loc_Exact) e1
                (fexp prec emax (Zdigits2 m1 + e1) - e1)) as [Hm2 He2].
  { rewrite shr_record_of_loc_m. lia. }
  rewrite shr_record_of_loc_m in Hm2. fold n2 in Hm2, He2.
  destruct (shr _ e1 _) as [mrs'' e''] eqn:Es2. simpl in Hm2, He2. subst e''.
  by rewrite Hm2.
Qed.

Lemma fexp_64 (k : Z) : fexp prec emax k = Z.max (k - 53) (-1074).
Proof. reflexivity. Qed.

Lemma bounded_64 (m : positive) (e : Z) :
  bounded prec emax m e = true ->
  Z.max (Zpos (digits2_pos m) + e - 53) (-1074) = e /\ e <= 971.
Proof.
  unfold bounded, canonical_mantissa. rewrite fexp_64.
  intros [H1 H2]%andb_prop. apply Z.eqb_eq in H1. apply Z.leb_le in H2.
  split; [done|]. exact H2.
Qed.

(** The product by ten of a positive float below 0.05 rounds to a float
    [m2 * 2 ^ e2] that is positive and below 1. The mantissa of ten is
    [5 * 2 ^ 50] and its exponent -49; the mantissa of 0.05 is
    7205759403792794 and its exponent -57. *)
Lemma round_small_times_ten (m : positive) (e : Z) :
  bounded prec emax m e = true ->
  e < -57 \/ (e = -57 /\ Zpos m < 7205759403792794) ->
  exists m2 e2,
    binary_round_aux prec emax false (Zpos (m * 5629499534213120)) (e + -49) loc_Exact
    = S754_finite false m2 e2
    /\ e2 < 0 /\ Zpos m2 < 2 ^ (- e2).
Proof.
  intros [Hcan Hmax]%bounded_64 Hlt.
  pose proof (digits2_pos_bounds m) as [Hm_lo Hm_hi].
  set (dm := Zpos (digits2_pos m)) in *.
  set (t := -57 - e).
  assert (Ht : 0 <= t) by lia.
  assert (He : -1074 <= e) by lia.
  assert (Hdm : dm <= 53) by lia.
  pose proof (Z.pow_pos_nonneg 2 t ltac:(lia) Ht) as HT.
  (* the mantissa is below the mantissa of 0.05 at the exponent of [m] *)
  assert (Hm : Zpos m < 7205759403792794 * 2 ^ t).
  { destruct Hlt as [Hlt|[-> Hlt]].
    - assert (2 ^ dm <= 2 ^ 53) by (apply Z.pow_le_mono_r; lia).
      assert (2 ^ 1 <= 2 ^ t) by (apply Z.pow_le_mono_r; lia).
      change (2 ^ 53) with 9007199254740992 in *. change (2 ^ 1) with 2 in *. lia.
    - subst t. change (2 ^ (-57 - -57)) with 1. lia. }
  set (P := (m * 5629499534213120)%positive).
  assert (HP : Zpos P = Zpos m * 5629499534213120) by (subst P; lia).
  assert (HP_hi : Zpos P < (2 ^ 105 + 2 ^ 51) * 2 ^ t).
  { change (2 ^ 105 + 2 ^ 51) with (7205759403792794 * 5629499534213120). nia. }
  assert (HP_lo : 2 ^ 52 <= Zpos P).
  { change (2 ^ 52) with 4503599627370496. lia. }
  pose proof (digits2_pos_bounds P) as [Hd_lo Hd_hi].
  set (d := Zpos (digits2_pos P)) in *.
  assert (Hd53 : 53 <= d).
  { destruct (Z.lt_ge_cases d 53) as [Hd|]; [|done].
    assert (2 ^ d <= 2 ^ 52) by (apply Z.pow_le_mono_r; lia). lia. }
  assert (Hd106 : d <= 106 + t).
  { destruct (Z.lt_ge_cases (106 + t) d) as [Hd|]; [|lia].
    assert (2 ^ (106 + t) <= 2 ^ (d - 1)) by (apply Z.pow_le_mono_r; lia).
    rewrite Z.pow_add_r in * by lia.
    change (2 ^ 106) with 81129638414606681695789005144064 in *.
    change (2 ^ 105 + 2 ^ 51)
      with 40564819207303343099694316257280 in *. nia. }
  destruct (binary_round_aux_spec P (e + -49) loc_Exact) as (m1 & Hm1 & Eq).
  fold d in Hm1, Eq. rewrite Eq. clear Eq.
  cbv [fexp SpecFloat.emin prec emax] in Hm1 |- *.
  change (3 - 1024 - 53) with (-1074) in Hm1 |- *.
  set (n1 := Z.max (Z.max (d + (e + -49) - 53) (-1074) - (e + -49)) 0) in *.
  assert (Hn1 : d - 53 <= n1 /\ - 1025 - e <= n1 /\ n1 <= 53 + t /\ n1 <= d - 1) by lia.
  pose proof (Z.pow_pos_nonneg 2 n1 ltac:(lia) ltac:(lia)) as HN1.
  set (q1 := Zpos P / 2 ^ n1) in *.
  assert (Hq1 : 1 <= q1 /\ q1 * 2 ^ n1 <= Zpos P /\ q1 < 2 ^ 53).
  { split; [|split].
    - apply Z.div_le_lower_bound; [lia|].
      assert (2 ^ n1 <= 2 ^ (d - 1)) by (apply Z.pow_le_mono_r; lia). lia.
    - pose proof (Z.mul_div_le (Zpos P) (2 ^ n1) HN1). lia.
    - apply Z.div_lt_upper_bound; [lia|]. rewrite <- Z.pow_add_r by lia.
      assert (2 ^ d <= 2 ^ (n1 + 53)) by (apply Z.pow_le_mono_r; lia). lia. }
  set (e1 := e + -49 + n1) in *.
  assert (Hm1pos : 0 < m1) by lia.
  destruct m1 as [|pm1|pm1]; [lia| |lia]. simpl Zdigits2.
  pose proof (digits2_pos_bounds pm1) as [Hd1_lo Hd1_hi].
  set (d1 := Zpos (digits2_pos pm1)) in *.
  assert (Hd1 : d1 <= 54).
  { destruct (Z.lt_ge_cases 54 d1) as [Hd|]; [|lia].
    assert (2 ^ 54 <= 2 ^ (d1 - 1)) by (apply Z.pow_le_mono_r; lia).
    change (2 ^ 54) with 18014398509481984 in *.
    change (2 ^ 53) with 9007199254740992 in *. lia. }
  set (n2 := Z.max (Z.max (d1 + e1 - 53) (-1074) - e1) 0).
  assert (Hn2 : 0 <= n2 <= 1) by lia.
  pose proof (Z.pow_pos_nonneg 2 n2 ltac:(lia) ltac:(lia)) as HN2.
  set (m2 := Zpos pm1 / 2 ^ n2).
  assert (Hm2 : 1 <= m2 /\ m2 * 2 ^ n2 <= Zpos pm1).
  { split.
    - apply Z.div_le_lower_bound; [lia|].
      destruct (Z.eq_dec n2 0) as [E0|E0]; [rewrite E0; change (2 ^ 0) with 1; lia|].
      assert (n2 = 1 /\ 54 <= d1) as [E1 Hd54] by lia.
      rewrite E1. change (2 ^ 1) with 2.
      assert (2 ^ 53 <= 2 ^ (d1 - 1)) by (apply Z.pow_le_mono_r; lia).
      change (2 ^ 53) with 9007199254740992 in *. lia.
    - pose proof (Z.mul_div_le (Zpos pm1) (2 ^ n2) HN2). lia. }
  destruct m2 as [|pm2|pm2] eqn:Em2; [lia| |lia].
  assert (He2 : e1 + n2 <= -52) by lia.
  replace (e1 + n2 <=? 1024 - 53) with true by (symmetry; apply Z.leb_le; lia).
  exists pm2, (e1 + n2). split; [done|]. split; [lia|].
  (* the value is below one *)
  assert (Hsum : - (e1 + n2) + (n1 + n2) = 106 + t) by lia.
  assert (Hbound : Zpos pm2 * 2 ^ (n1 + n2) < 2 ^ (106 + t)).
  { rewrite Z.pow_add_r by lia.
    assert (2 ^ n1 <= 2 ^ (53 + t)) by (apply Z.pow_le_mono_r; lia).
    rewrite (Z.pow_add_r 2 106), (Z.pow_add_r 2 53) in * by lia.
    change (2 ^ 106) with 81129638414606681695789005144064 in *.
    change (2 ^ 53) with 9007199254740992 in *.
    change (2 ^ 105 + 2 ^ 51)
      with 40564819207303343099694316257280 in *.
    nia. }
  assert (Esplit : 2 ^ (106 + t) = 2 ^ (- (e1 + n2)) * 2 ^ (n1 + n2))
    by (rewrite <- Z.pow_add_r by lia; f_equal; lia).
  rewrite Esplit in Hbound.
  apply (Z.mul_lt_mono_pos_r (2 ^ (n1 + n2))); [|exact Hbound].
  apply Z.pow_pos_nonneg; lia.
Qed.

Lemma SFceil_below_one (m : positive) (e : Z) :
  e < 0 -> Zpos m < 2 ^ (- e) ->
  math.SFceil (S754_finite false m e) = Prim2SF 1.
Proof.
  intros He Hm. unfold math.SFceil, math.SFfloor. simpl SFopp.
  replace (0 <=? e) with false by (symmetry; apply Z.leb_gt; lia).
  rewrite Z.div_small, Z.mod_small by lia. simpl. reflexivity.
Qed.

(** What the comparisons of the first rule say of the decoded input. *)
Lemma small_positive_decoded (raw : float64) :
  (0 <? raw)%float = true -> (raw <? 0.05)%float = true ->
  exists m e,
    Prim2SF raw = S754_finite false m e
    /\ bounded prec emax m e = true
    /\ (e < -57 \/ (e = -57 /\ Zpos m < 7205759403792794)).
Proof.
  rewrite !ltb_spec. pose proof (Prim2SF_valid raw) as Hv.
  change (Prim2SF 0) with (S754_zero false).
  change (Prim2SF 0.05) with (S754_finite false 7205759403792794 (-57)).
  destruct (Prim2SF raw) as [s|s| |s m e]; try done.
  - by destruct s.
  - unfold SFltb, SFcompare. destruct s; [done|]. intros _ Hlt.
    exists m, e. split; [done|]. split; [exact Hv|].
    destruct (Z.compare_spec e (-57)) as [->|Hl|Hg]; [|by left|done].
    right. split; [done|]. change (Pos.compare_cont Eq) with Pos.compare in Hlt.
    destruct (Pos.compare_spec m 7205759403792794); try done; lia.
Qed.

(** The first rule: a positive value below 0.05 is displayed as 0.1. *)
Lemma GetTrueSecurity_rule_1 (raw : float64) :
  (0 <? raw)%float = true -> (raw <? 0.05)%float = true ->
  GetTrueSecurity raw = (math.Ceil (raw * 10) / 10)%float
  /\ GetTrueSecurity raw = 0.1%float.
Proof.
  intros H0 H5. unfold GetTrueSecurity.
  change (0.0 <? raw)%float with (0 <? raw)%float. rewrite H0, H5. simpl andb.
  split; [done|].
  destruct (small_positive_decoded raw H0 H5) as (m & e & Er & Hb & Hlt).
  destruct (round_small_times_ten m e Hb Hlt) as (m2 & e2 & Em & He2 & Hm2).
  unfold math.Ceil. rewrite mul_spec, Er.
  change (Prim2SF 10) with (S754_finite false 5629499534213120 (-49)).
  unfold SF64mul, SFmul. simpl xorb.
  rewrite Em, (SFceil_below_one m2 e2 He2 Hm2), SF2Prim_Prim2SF.
  vm_compute. reflexivity.
Qed.

(** The rounding of a mantissa of [k + 53] bits is at least its first 53
    bits, at the exponent raised by [k]. *)
Lemma binary_round_aux_above (P : positive) (E : Z) (lx : location) (k cm ce : Z) :
  0 <= k -> 2 ^ (k + 52) <= Zpos P < 2 ^ (k + 53) -> -1074 <= E + k ->
  ce < E + k \/ (ce = E + k /\ cm <= Zpos P / 2 ^ k) ->
  above cm ce (binary_round_aux prec emax false (Zpos P) E lx).
Proof.
  intros Hk HP HE Hc.
  assert (Hd : Zpos (digits2_pos P) = k + 53).
  { apply digits2_pos_unique. by replace (k + 53 - 1) with (k + 52) by lia. }
  destruct (binary_round_aux_spec P E lx) as (m1 & Hm1 & Eq).
  rewrite Eq. clear Eq. rewrite Hd in *.
  cbv [fexp SpecFloat.emin prec emax] in Hm1 |- *.
  change (3 - 1024 - 53) with (-1074) in Hm1 |- *.
  replace (Z.max (Z.max (k + 53 + E - 53) (-1074) - E) 0) with k in * by lia.
  pose proof (Z.pow_pos_nonneg 2 k ltac:(lia) Hk) as HK.
  set (q1 := Zpos P / 2 ^ k) in *.
  assert (Hq1 : 2 ^ 52 <= q1 < 2 ^ 53).
  { split.
    - apply Z.div_le_lower_bound; [lia|].
      rewrite Z.mul_comm, <- Z.pow_add_r by lia.
      replace (52 + k) with (k + 52) by lia. lia.
    - apply Z.div_lt_upper_bound; [lia|].
      rewrite <- Z.pow_add_r by lia. lia. }
  change (2 ^ 52) with 4503599627370496 in Hq1.
  change (2 ^ 53) with 9007199254740992 in Hq1.
  destruct m1 as [|pm1|pm1]; [lia| |lia]. simpl Zdigits2.
  destruct (Z.lt_ge_cases (Zpos pm1) 9007199254740992) as [Hlt|Hge].
  - assert (Hd1 : Zpos (digits2_pos pm1) = 53).
    { apply digits2_pos_unique. change (2 ^ (53 - 1)) with 4503599627370496.
      change (2 ^ 53) with 9007199254740992. lia. }
    rewrite Hd1.
    replace (Z.max (Z.max (53 + (E + k) - 53) (-1074) - (E + k)) 0) with 0 by lia.
    change (2 ^ 0) with 1. rewrite Z.div_1_r.
    destruct (Z.leb_spec (E + k + 0) (1024 - 53)); [|done].
    unfold above. change (2 ^ 52) with 4503599627370496.
    change (2 ^ 53) with 9007199254740992. lia.
  - assert (Em1 : Zpos pm1 = 9007199254740992) by lia.
    assert (Hd1 : Zpos (digits2_pos pm1) = 54).
    { apply digits2_pos_unique. change (2 ^ (54 - 1)) with 9007199254740992.
      change (2 ^ 54) with 18014398509481984. lia. }
    rewrite Hd1, Em1.
    replace (Z.max (Z.max (54 + (E + k) - 53) (-1074) - (E + k)) 0) with 1 by lia.
    change (9007199254740992 / 2 ^ 1) with 4503599627370496.
    destruct (Z.leb_spec (E + k + 1) (1024 - 53)); [|done].
    unfold above. change (2 ^ 52) with 4503599627370496.
    change (2 ^ 53) with 9007199254740992. lia.
Qed.

Lemma above_valid (cm ce : Z) (x : spec_float) :
  above cm ce x -> -1074 <= ce -> valid_binary x = true.
Proof.
  destruct x as [|[]| |[] m e]; try done. intros (Hm & He & Hc) Hce.
  unfold valid_binary, bounded, canonical_mantissa. rewrite fexp_64.
  rewrite (digits2_pos_unique m 53) by done.
  apply andb_true_intro. split; [apply Z.eqb_eq|apply Z.leb_le]; [lia|exact He].
Qed.

Lemma above_weaken (cm ce cm' ce' : Z) (x : spec_float) :
  above cm ce x -> ce' < ce \/ (ce' = ce /\ cm' <= cm) -> above cm' ce' x.
Proof. destruct x as [|[]| |[] m e]; try done. unfold above. lia. Qed.

Lemma binary_round_aux_opp (m e : Z) (l : location) :
  binary_round_aux prec emax true m e l
  = SFopp (binary_round_aux prec emax false m e l).
Proof.
  unfold binary_round_aux. destruct (shr_fexp _ _ m e l) as [mrs' e'].
  destruct (shr_fexp _ _ _ e' loc_Exact) as [mrs'' e''].
  destruct (shr_m mrs''); [done| |done]. by destruct (_ <=? _).
Qed.

Lemma iter_xO (p d : positive) : Zpos (Pos.iter xO p d) = Zpos p * 2 ^ Zpos d.
Proof.
  induction d as [|d IH] using Pos.peano_ind; [simpl; lia|].
  rewrite Pos.iter_succ, Pos2Z.inj_xO, IH, Pos2Z.inj_succ, Z.pow_succ_r by lia. lia.
Qed.

(** The float of an integer of [n + 1] bits has that integer for its value:
    its mantissa is the integer shifted to 53 bits. *)
Lemma SFof_int_above (q n cm ce : Z) :
  0 <= n <= 52 -> 2 ^ n <= q < 2 ^ (n + 1) ->
  ce < n - 52 \/ (ce = n - 52 /\ cm <= q * 2 ^ (52 - n)) ->
  above cm ce (math.SFof_int false q).
Proof.
  intros Hn Hq Hc.
  pose proof (Z.pow_pos_nonneg 2 n ltac:(lia) ltac:(lia)) as HN.
  destruct q as [|pq|pq]; [lia| |lia].
  unfold math.SFof_int, binary_normalize, binary_round.
  simpl cond_Zopp. change (Z.abs (Zpos pq)) with (Zpos pq). cbv iota.
  rewrite (digits2_pos_unique pq (n + 1))
    by (by replace (n + 1 - 1) with n by lia).
  rewrite fexp_64.
  replace (Z.max (n + 1 + 0 - 53) (-1074)) with (n - 52) by lia.
  assert (Hscale : 2 ^ 52 <= Zpos pq * 2 ^ (52 - n) < 2 ^ 53).
  { assert (E52 : 2 ^ 52 = 2 ^ n * 2 ^ (52 - n))
      by (rewrite <- Z.pow_add_r by lia; f_equal; lia).
    assert (E53 : 2 ^ 53 = 2 ^ (n + 1) * 2 ^ (52 - n))
      by (rewrite <- Z.pow_add_r by lia; f_equal; lia).
    rewrite E52, E53.
    pose proof (Z.pow_pos_nonneg 2 (52 - n) ltac:(lia) ltac:(lia)). nia. }
  unfold shl_align. destruct (n - 52 - 0) as [|d|d] eqn:Ed; [|lia|].
  - assert (n = 52) as -> by lia. change (2 ^ (52 - 52)) with 1 in *.
    apply (binary_round_aux_above _ _ _ 0); [lia| |lia|].
    + change (2 ^ (0 + 52)) with (2 ^ 52). change (2 ^ (0 + 53)) with (2 ^ 53). lia.
    + change (2 ^ 0) with 1. rewrite Z.div_1_r. lia.
  - assert (Ed' : Zpos d = 52 - n) by lia.
    apply (binary_round_aux_above _ _ _ 0); [lia| |lia|].
    + rewrite iter_xO, Ed'.
      change (2 ^ (0 + 52)) with (2 ^ 52). change (2 ^ (0 + 53)) with (2 ^ 53). lia.
    + rewrite iter_xO, Ed'. change (2 ^ 0) with 1. rewrite Z.div_1_r. lia.
Qed.

Lemma SFof_int_opp (q : Z) :
  0 < q -> math.SFof_int true q = SFopp (math.SFof_int false q).
Proof.
  destruct q as [|pq|pq]; [lia| |lia]. intros _.
  unfold math.SFof_int, binary_normalize, binary_round.
  simpl cond_Zopp. change (Z.abs (Zpos pq)) with (Zpos pq).
  change (- Zpos pq) with (Zneg pq). cbv iota.
  destruct (shl_align _ _ _) as [mz ez]. apply binary_round_aux_opp.
Qed.

(** The integer part of a positive float with a mantissa of 53 bits and an
    exponent [e] between -52 and -1 has [53 + e] bits. *)
Lemma integer_part_bounds (m : positive) (e : Z) :
  2 ^ 52 <= Zpos m < 2 ^ 53 -> -52 <= e < 0 ->
  2 ^ (52 + e) <= Zpos m / 2 ^ (- e) < 2 ^ (52 + e + 1)
  /\ Zpos m / 2 ^ (- e) * 2 ^ (- e) <= Zpos m.
Proof.
  intros Hm He.
  pose proof (Z.pow_pos_nonneg 2 (- e) ltac:(lia) ltac:(lia)) as HE.
  assert (E52 : 2 ^ 52 = 2 ^ (52 + e) * 2 ^ (- e))
    by (rewrite <- Z.pow_add_r by lia; f_equal; lia).
  assert (E53 : 2 ^ 53 = 2 ^ (- e) * 2 ^ (52 + e + 1))
    by (rewrite <- Z.pow_add_r by lia; f_equal; lia).
  split; [split|].
  - apply Z.div_le_lower_bound; [lia|]. rewrite Z.mul_comm, <- E52. lia.
  - apply Z.div_lt_upper_bound; [lia|]. rewrite <- E53. lia.
  - pose proof (Z.mul_div_le (Zpos m) (2 ^ (- e)) HE). lia.
Qed.

(** Truncation keeps a float above an integer [A], given as the float of
    mantissa [A * 2 ^ (- ce)] and exponent [ce]. *)
Lemma SFtrunc_above (A ce : Z) (x : spec_float) :
  -52 <= ce <= 0 ->
  above (A * 2 ^ (- ce)) ce x -> above (A * 2 ^ (- ce)) ce (math.SFtrunc x).
Proof.
  intros Hce. destruct x as [|[]| |[] m e]; try done.
  intros (Hm & He & Hc). unfold math.SFtrunc.
  destruct (Z.leb_spec 0 e) as [He0|He0]; [done|].
  destruct (integer_part_bounds m e Hm ltac:(lia)) as [Hq Hqm].
  apply (SFof_int_above _ (52 + e)); [lia|done|].
  destruct Hc as [Hc|[-> Hc]]; [left; lia|right].
  split; [lia|]. replace (52 - (52 + e)) with (- e) by lia.
  pose proof (Z.pow_pos_nonneg 2 (- e) ltac:(lia) ltac:(lia)) as HE.
  apply Z.mul_le_mono_nonneg_r; [lia|].
  apply Z.div_le_lower_bound; lia.
Qed.

(** The integer part of a float that is at least 5 is one of 5 ... 10, or
    the truncated float is at least 11. *)
Lemma SFtrunc_small_or_above (x : spec_float) :
  above (5 * 2 ^ 50) (-50) x ->
  (exists q, 5 <= q <= 10 /\ math.SFtrunc x = math.SFof_int false q)
  \/ above (11 * 2 ^ 49) (-49) (math.SFtrunc x).
Proof.
  destruct x as [|[]| |[] m e]; try done; [by right|].
  intros (Hm & He & Hc). unfold math.SFtrunc.
  destruct (Z.leb_spec 0 e) as [He0|He0].
  { right. split; [done|]. split; [done|]. left. lia. }
  destruct (integer_part_bounds m e Hm ltac:(lia)) as [Hq Hqm].
  set (q := Zpos m / 2 ^ (- e)) in *.
  assert (H5 : 5 <= q).
  { apply Z.div_le_lower_bound; [apply Z.pow_pos_nonneg; lia|].
    destruct Hc as [Hc|[<- Hc]]; [|lia].
    assert (2 ^ (- e) <= 2 ^ 49) by (apply Z.pow_le_mono_r; lia).
    change (2 ^ 52) with (8 * 2 ^ 49) in Hm. lia. }
  destruct (Z.le_gt_cases q 10) as [H10|H11]; [left; by exists q|right].
  apply (SFof_int_above _ (52 + e)); [lia|done|].
  assert (He49 : -49 <= e).
  { destruct (Z.le_gt_cases (-49) e) as [|Hlt]; [done|].
    assert (2 ^ (52 + e + 1) <= 2 ^ 3) by (apply Z.pow_le_mono_r; lia).
    change (2 ^ 3) with 8 in *. lia. }
  destruct (Z.eq_dec e (-49)) as [->|]; [right|left; lia].
  split; [done|]. change (2 ^ (52 - (52 + -49))) with (2 ^ 49). lia.
Qed.

Lemma SFopp_involutive (x : spec_float) : SFopp (SFopp x) = x.
Proof. destruct x as [[]|[]| |[] m e]; done. Qed.

Lemma SFceil_above (x : spec_float) :
  above (2 ^ 52) (-52) x -> above (2 ^ 52) (-52) (math.SFceil x).
Proof.
  destruct x as [|[]| |[] m e]; try done.
  intros (Hm & He & Hc). unfold math.SFceil, math.SFfloor. simpl SFopp.
  destruct (Z.leb_spec 0 e) as [He0|He0]; [done|].
  destruct (integer_part_bounds m e Hm ltac:(lia)) as [Hq Hqm].
  set (q := Zpos m / 2 ^ (- e)) in *.
  set (q' := if Zpos m mod 2 ^ (- e) =? 0 then q else q + 1).
  assert (Hq' : q <= q' <= q + 1) by (subst q'; destruct (_ =? _); lia).
  pose proof (Z.pow_pos_nonneg 2 (52 + e) ltac:(lia) ltac:(lia)) as HN.
  rewrite SFof_int_opp, SFopp_involutive by lia.
  destruct (Z.lt_ge_cases q' (2 ^ (52 + e + 1))) as [Hlt|Hge].
  - apply (SFof_int_above _ (52 + e)); [lia|lia|].
    destruct (Z.eq_dec e (-52)) as [->|]; [right|left; lia].
    split; [done|]. change (2 ^ (52 - (52 + -52))) with (2 ^ 52).
    change (2 ^ (52 + -52)) with 1 in *. lia.
  - apply (SFof_int_above _ (52 + e + 1)); [lia| |left; lia].
    replace (52 + e + 1 + 1) with (Z.succ (52 + e + 1)) by lia.
    rewrite (Z.pow_succ_r 2 (52 + e + 1)) by lia. lia.
Qed.

(** The product of two positive floats with mantissas of 53 bits: the exact
    product of the mantissas has 105 or 106 bits, and the rounded product is
    at least its first 53 bits. *)
Lemma SFmul_above (m mc : positive) (e ec cm ce : Z) :
  2 ^ 52 <= Zpos m < 2 ^ 53 -> 2 ^ 52 <= Zpos mc < 2 ^ 53 ->
  -1074 <= e + ec + 52 ->
  (Zpos m * Zpos mc < 2 ^ 105 ->
   ce < e + ec + 52 \/ (ce = e + ec + 52 /\ cm * 2 ^ 52 <= Zpos m * Zpos mc)) ->
  (2 ^ 105 <= Zpos m * Zpos mc ->
   ce < e + ec + 53 \/ (ce = e + ec + 53 /\ cm * 2 ^ 53 <= Zpos m * Zpos mc)) ->
  above cm ce (SFmul prec emax (S754_finite false m e) (S754_finite false mc ec)).
Proof.
  intros Hm Hmc He H105 H106. unfold SFmul. simpl xorb.
  rewrite Pos2Z.inj_mul.
  assert (HP : 2 ^ 104 <= Zpos m * Zpos mc < 2 ^ 106).
  { change (2 ^ 104) with (2 ^ 52 * 2 ^ 52).
    change (2 ^ 106) with (2 ^ 53 * 2 ^ 53). nia. }
  rewrite <- Pos2Z.inj_mul in *.
  destruct (Z.lt_ge_cases (Zpos (m * mc)) (2 ^ 105)) as [Hlt|Hge].
  - apply (binary_round_aux_above _ _ _ 52); [lia|split; [apply HP|exact Hlt]|lia|].
    destruct (H105 Hlt) as [Hc|[Hc Hv]]; [left; lia|right].
    split; [lia|]. apply Z.div_le_lower_bound; lia.
  - apply (binary_round_aux_above _ _ _ 53); [lia|split; [exact Hge|apply HP]|lia|].
    destruct (H106 Hge) as [Hc|[Hc Hv]]; [left; lia|right].
    split; [lia|]. apply Z.div_le_lower_bound; lia.
Qed.

(** The quotient of two positive floats with mantissas of 53 bits: the
    dividend is shifted by 53 bits, the integer quotient has 53 bits when the
    mantissa of the dividend is the smaller one and 54 bits otherwise. *)
Lemma SFdiv_above (m1 m2 : positive) (e1 e2 cm ce : Z) :
  2 ^ 52 <= Zpos m1 < 2 ^ 53 -> 2 ^ 52 <= Zpos m2 < 2 ^ 53 ->
  -1074 <= e1 - e2 - 53 ->
  (Zpos m1 < Zpos m2 ->
   ce < e1 - e2 - 53 \/ (ce = e1 - e2 - 53 /\ cm * Zpos m2 <= Zpos m1 * 2 ^ 53)) ->
  (Zpos m2 <= Zpos m1 ->
   ce < e1 - e2 - 52 \/ (ce = e1 - e2 - 52 /\ cm * Zpos m2 <= Zpos m1 * 2 ^ 52)) ->
  above cm ce (SFdiv prec emax (S754_finite false m1 e1) (S754_finite false m2 e2)).
Proof.
  intros Hm1 Hm2 He Hlt Hge. unfold SFdiv, SFdiv_core_binary. simpl xorb.
  simpl Zdigits2.
  rewrite (digits2_pos_unique m1 53), (digits2_pos_unique m2 53) by done.
  rewrite fexp_64.
  replace (Z.min (Z.max (53 + e1 - (53 + e2) - 53) (-1074)) (e1 - e2))
    with (e1 - e2 - 53) by lia.
  replace (e1 - e2 - (e1 - e2 - 53)) with 53 by lia. cbv zeta iota.
  rewrite Z.shiftl_mul_pow2 by lia.
  pose proof (Z_div_mod (Zpos m1 * 2 ^ 53) (Zpos m2) ltac:(lia)) as Hdiv.
  destruct (Z.div_eucl _ _) as [q r]. destruct Hdiv as [Eq Hr].
  change (2 ^ 52) with 4503599627370496 in *.
  change (2 ^ 53) with 9007199254740992 in *.
  destruct (Z.lt_ge_cases (Zpos m1) (Zpos m2)) as [Hc|Hc].
  - assert (Hq : 4503599627370496 <= q < 9007199254740992) by nia.
    destruct q as [|pq|pq]; [lia| |lia].
    apply (binary_round_aux_above _ _ _ 0); [lia| |lia|].
    + change (2 ^ (0 + 52)) with 4503599627370496.
      change (2 ^ (0 + 53)) with 9007199254740992. lia.
    + change (2 ^ 0) with 1. rewrite Z.div_1_r.
      destruct (Hlt Hc) as [H|[H Hv]]; [left; lia|right]. split; [lia|]. nia.
  - assert (Hq : 9007199254740992 <= q < 18014398509481984) by nia.
    destruct q as [|pq|pq]; [lia| |lia].
    apply (binary_round_aux_above _ _ _ 1); [lia| |lia|].
    + change (2 ^ (1 + 52)) with 9007199254740992.
      change (2 ^ (1 + 53)) with 18014398509481984. lia.
    + change (2 ^ 1) with 2.
      destruct (Hge Hc) as [H|[H Hv]]; [left; lia|right]. split; [lia|].
      apply Z.div_le_lower_bound; [lia|]. nia.
Qed.

(** A positive input that is not below 0.05 is at least 0.05. *)
Lemma positive_decoded (raw : float64) :
  (0 <? raw)%float = true -> (raw <? 0.05)%float = false ->
  above 7205759403792794 (-57) (Prim2SF raw).
Proof.
  rewrite !ltb_spec. pose proof (Prim2SF_valid raw) as Hv.
  change (Prim2SF 0) with (S754_zero false).
  change (Prim2SF 0.05) with (S754_finite false 7205759403792794 (-57)).
  destruct (Prim2SF raw) as [s|s| |s m e]; try done.
  - by destruct s.
  - unfold SFltb, SFcompare. destruct s; [done|]. intros _ Hlt.
    apply bounded_64 in Hv as [Hcan Hmax].
    pose proof (digits2_pos_bounds m) as Hd.
    assert (He : -57 <= e).
    { destruct (Z.compare_spec e (-57)); [lia|done|lia]. }
    assert (Ed : Zpos (digits2_pos m) = 53) by lia.
    rewrite Ed in Hd. change (2 ^ (53 - 1)) with (2 ^ 52) in Hd.
    split; [done|]. split; [done|].
    destruct (Z.compare_spec e (-57)) as [->|Hl|Hg]; [right|lia|left; lia].
    split; [done|]. change (Pos.compare_cont Eq) with Pos.compare in Hlt.
    destruct (Pos.compare_spec m 7205759403792794); try done; lia.
Qed.

Lemma above_positive (cm ce : Z) (f : float64) :
  above cm ce (Prim2SF f) -> (0 <? f)%float = true /\ is_zero f = false.
Proof.
  unfold is_zero. rewrite ltb_spec, FloatAxioms.eqb_spec.
  change (Prim2SF 0) with (S754_zero false).
  by destruct (Prim2SF f) as [|[]| |[] m e].
Qed.

Lemma times_100_above (f : float64) :
  above 7205759403792794 (-57) (Prim2SF f) ->
  above (5 * 2 ^ 50) (-50) (Prim2SF (f * 100)).
Proof.
  rewrite mul_spec.
  change (Prim2SF 100) with (S754_finite false 7036874417766400 (-46)).
  destruct (Prim2SF f) as [|[]| |[] m e]; try done.
  intros (Hm & He & Hc). apply SFmul_above; [done|done|lia| |].
  - change (2 ^ 105) with 40564819207303340847894502572032.
    change (2 ^ 52) with 4503599627370496 in *. lia.
  - change (2 ^ 105) with 40564819207303340847894502572032.
    change (2 ^ 53) with 9007199254740992 in *.
    change (2 ^ 50) with 1125899906842624. lia.
Qed.

Lemma div_100_above (f : float64) :
  above (11 * 2 ^ 49) (-49) (Prim2SF f) ->
  above 7205759403792794 (-56) (Prim2SF (f / 100)).
Proof.
  rewrite div_spec.
  change (Prim2SF 100) with (S754_finite false 7036874417766400 (-46)).
  destruct (Prim2SF f) as [|[]| |[] m e]; try done.
  intros (Hm & He & Hc). apply SFdiv_above; [done|done|lia| |].
  - change (2 ^ 53) with 9007199254740992 in *.
    change (2 ^ 49) with 562949953421312 in *. lia.
  - lia.
Qed.

Lemma times_10_above (f : float64) :
  above 7205759403792794 (-56) (Prim2SF f) ->
  above (2 ^ 52) (-52) (Prim2SF (f * 10)).
Proof.
  rewrite mul_spec.
  change (Prim2SF 10) with (S754_finite false 5629499534213120 (-49)).
  destruct (Prim2SF f) as [|[]| |[] m e]; try done.
  intros (Hm & He & Hc). apply SFmul_above; [done|done|lia| |].
  - change (2 ^ 105) with 40564819207303340847894502572032.
    change (2 ^ 52) with 4503599627370496 in *. lia.
  - change (2 ^ 105) with 40564819207303340847894502572032.
    change (2 ^ 53) with 9007199254740992 in *.
    change (2 ^ 52) with 4503599627370496 in *. lia.
Qed.

Lemma div_10_above (f : float64) :
  above (2 ^ 52) (-52) (Prim2SF f) ->
  above (2 ^ 52) (-56) (Prim2SF (f / 10)).
Proof.
  rewrite div_spec.
  change (Prim2SF 10) with (S754_finite false 5629499534213120 (-49)).
  destruct (Prim2SF f) as [|[]| |[] m e]; try done.
  intros (Hm & He & Hc). apply SFdiv_above; [done|done|lia| |].
  - change (2 ^ 53) with 9007199254740992 in *.
    change (2 ^ 52) with 4503599627370496 in *. lia.
  - lia.
Qed.

Lemma Trunc_above (f : float64) :
  above (2 ^ 52) (-52) (Prim2SF f) ->
  above (2 ^ 52) (-52) (Prim2SF (math.Trunc f)).
Proof.
  intros H. apply (SFtrunc_above 1 (-52)) in H; [|lia].
  unfold math.Trunc. rewrite Prim2SF_SF2Prim; [exact H|].
  apply (above_valid _ _ _ H). lia.
Qed.

Lemma Ceil_above (f : float64) :
  above (2 ^ 52) (-52) (Prim2SF f) ->
  above (2 ^ 52) (-52) (Prim2SF (math.Ceil f)).
Proof.
  intros H. apply SFceil_above in H.
  unfold math.Ceil. rewrite Prim2SF_SF2Prim; [exact H|].
  apply (above_valid _ _ _ H). lia.
Qed.

(** The second rule on a positive input: the input is at least 0.05, so its
    hundredfold has an integer part of at least 5. The integer parts 5 to 10
    are computed; from 11 on, the truncated value is at least the float 0.1,
    its tenfold at least 1, and both candidates for the result are a tenth of
    an integer that is at least 1. *)
Lemma GetTrueSecurity_rule_2_positive (raw : float64) :
  (0 <? raw)%float = true -> (raw <? 0.05)%float = false ->
  (0 <? GetTrueSecurity raw)%float = true /\ is_zero (GetTrueSecurity raw) = false.
Proof.
  intros H0 H5.
  pose proof (times_100_above raw (positive_decoded raw H0 H5)) as Hy.
  pose proof (float_ltb_leb _ _ H0) as Hle.
  unfold GetTrueSecurity, TruncateToTwoDigits.
  change (0.0 <? raw)%float with (0 <? raw)%float.
  rewrite H0, H5, Hle. simpl andb. cbv beta iota zeta.
  destruct (SFtrunc_small_or_above _ Hy) as [(q & Hq & Eq)|HK].
  - assert (EK : math.Trunc (raw * 100) = SF2Prim (math.SFof_int false q))
      by (unfold math.Trunc; by rewrite Eq).
    rewrite EK.
    assert (Hcases : q = 5 \/ q = 6 \/ q = 7 \/ q = 8 \/ q = 9 \/ q = 10) by lia.
    destruct Hcases as [->|[->|[->|[->|[->| ->]]]]]; by vm_compute.
  - assert (HK' : above (11 * 2 ^ 49) (-49) (Prim2SF (math.Trunc (raw * 100)))).
    { unfold math.Trunc. rewrite Prim2SF_SF2Prim; [exact HK|].
      apply (above_valid _ _ _ HK). lia. }
    pose proof (times_10_above _ (div_100_above _ HK')) as Ht10.
    match goal with |- context [if ?c then _ else _] => destruct c end.
    + apply (above_positive _ _ _ (div_10_above _ (Trunc_above _ Ht10))).
    + apply (above_positive _ _ _ (div_10_above _ (Ceil_above _ Ht10))).
Qed.

(** C2. A raw security value strictly between 0 and 0.05 is displayed as
    [ceil (raw * 10) / 10], which is 0.1; and no strictly positive raw value,
    whichever rule applies to it, is displayed as 0.0. *)
Theorem GetTrueSecurity_positive_never_zero (raw : float64) :
  (0 <? raw)%float = true ->
  ((raw <? 0.05)%float = true ->
   GetTrueSecurity raw = (math.Ceil (raw * 10) / 10)%float
   /\ GetTrueSecurity raw = 0.1%float)
  /\ is_zero (GetTrueSecurity raw) = false.
Proof.
  intros H0. split; [by apply GetTrueSecurity_rule_1|].
  destruct (raw <? 0.05)%float eqn:H5.
  - destruct (GetTrueSecurity_rule_1 raw H0 H5) as [_ ->]. reflexivity.
  - apply (GetTrueSecurity_rule_2_positive raw H0 H5).
Qed.

Lemma GetTrueSecurity_positive_never_zero_witness :
  (0 <? 0.03)%float = true
  /\ GetTrueSecurity 0.03 = 0.1%float
  /\ is_zero (GetTrueSecurity 0.03) = false.
Proof.
  assert (H0 : (0 <? 0.03)%float = true) by reflexivity.
  destruct (GetTrueSecurity_positive_never_zero 0.03 H0) as [H1 H2].
  split; [exact H0|]. split; [apply H1; reflexivity|exact H2].
Defined.

(** ** The stand-alone filters of filters.go *)

Section ascending_unique.
Context {T : Type} (key : T -> Z) (less : T -> T -> bool).
Hypothesis less_key : forall a b, less a b = (key a <? key b).

Lemma ascending_not_after (l : list T) :
  ascending key l -> StronglySorted (not_after less) l.
Proof.
  unfold ascending. induction l as [|x l IH]; [constructor|].
  rewrite fmap_cons. intros S. apply StronglySorted_inv in S as [S F].
  constructor; [by apply IH|].
  rewrite Forall_fmap in F. eapply Forall_impl; [exact F|].
  intros y Hy. by apply (not_after_key key less less_key).
Qed.

(** A list in ascending order of distinct keys is the sorted form of each of
    its permutations. *)
Lemma ascending_is_sorted_by (l l' : list T) :
  NoDup (key <$> l) -> l' ≡ₚ l -> ascending key l' -> l' = sorted_by less l.
Proof.
  intros ND P A.
  apply (StronglySorted_unique_strong (not_after less)).
  - intros x1 x2 H1 H2. rewrite !(not_after_key key less less_key). intros L1 L2.
    assert (E : key x1 = key x2) by lia.
    rewrite P in H1. rewrite (sorted_by_Permutation less) in H2.
    clear -ND E H1 H2. induction l as [|y l IH]; [by inv H1|].
    simpl in ND. apply NoDup_cons in ND as [Hy ND].
    inv H1; inv H2; auto.
    + exfalso. apply Hy. rewrite E. by apply list_elem_of_fmap_2.
    + exfalso. apply Hy. rewrite <- E. by apply list_elem_of_fmap_2.
  - by apply ascending_not_after.
  - apply StronglySorted_merge_sort.
    + intros a b c. rewrite !(not_after_key key less less_key). lia.
    + intros a b. rewrite !(not_after_key key less less_key). lia.
  - by rewrite (sorted_by_Permutation less).
Qed.

End ascending_unique.

Lemma getLocalizedName_default names lang context :
  getLocalizedName names lang context = default "" (names !! lang).
Proof. unfold getLocalizedName. by destruct (names !! lang). Qed.

Lemma filter_ship_type_unpublished i ty :
  filter_ship_type i ty = unpublished (ship_type i ty).
Proof.
  unfold filter_ship_type, unpublished, ship_type. simpl.
  by rewrite getLocalizedName_default.
Qed.

Lemma filter_ship_group_ship_group i sg : filter_ship_group i sg = ship_group i sg.
Proof.
  unfold filter_ship_group, ship_group. by rewrite getLocalizedName_default.
Qed.

Lemma omap_fmap_option {A B C} (g : A -> option B) (f : B -> C) (l : list A) :
  omap (fun x => f <$> g x) l = f <$> omap g l.
Proof.
  induction l as [|x l IH]; [done|]. csimpl. rewrite IH. by destruct (g x).
Qed.

Lemma filter_ship_types_fmap shipGroupIDs types :
  filter_ship_types shipGroupIDs types = unpublished <$> ship_types shipGroupIDs types.
Proof.
  rewrite ship_types_omap, <- omap_fmap_option. unfold filter_ship_types.
  rewrite (fold_left_append_omap (fun e => unpublished <$> select_type shipGroupIDs e));
    [done|].
  intros r [i ty]. unfold select_type. simpl.
  destruct (default false _); simpl; [|by rewrite app_nil_r].
  by rewrite filter_ship_type_unpublished.
Qed.

Lemma filter_ship_groups_ship_groups groups :
  filter_ship_groups groups = ship_groups groups.
Proof.
  rewrite ship_groups_omap. unfold filter_ship_groups.
  rewrite (fold_left_append_omap select_group); [done|].
  intros r [i sg]. unfold select_group. simpl.
  case_decide; simpl; [|by rewrite app_nil_r].
  by rewrite filter_ship_group_ship_group.
Qed.

Lemma sorted_by_nil {T} (less : T -> T -> bool) : sorted_by less [] = [].
Proof. reflexivity. Qed.

(** [var x []T], the appends, and the sort. *)
Lemma appended_sorted_run {T} `{Elem T} (less : T -> T -> bool) (l : list T) st :
  (x ← appended l; sort_Slice x less;; mret x) st
  = match l with
    | [] => (nil_slice, st)
    | _ => (slice_at (length st), st ++ [arr (sorted_by less l)])
    end.
Proof.
  destruct l as [|y l]; [done|]. exact (new_sorted_run less (y :: l) st).
Qed.

Lemma appended_sorted_elems {T} `{Elem T} (less : T -> T -> bool) (l : list T) st :
  let r := (x ← appended l; sort_Slice x less;; mret x) st in
  elems r.2 r.1 = sorted_by less l.
Proof.
  intros r. subst r. rewrite appended_sorted_run.
  destruct l as [|y l]; [done|]. apply elems_new.
Qed.

Section sorted_by_fmap.
Context {T : Type} (key : T -> Z) (less : T -> T -> bool) (f : T -> T).
Hypothesis less_key : forall a b, less a b = (key a <? key b).
Hypothesis key_f : forall a, key (f a) = key a.

(** A function that keeps the keys commutes with the sort, when the keys are
    distinct. *)
Lemma sorted_by_fmap (l : list T) :
  NoDup (key <$> l) -> sorted_by less (f <$> l) = f <$> sorted_by less l.
Proof.
  intros ND.
  assert (E : forall l0 : list T, key <$> (f <$> l0) = key <$> l0).
  { intros l0. rewrite <- list_fmap_compose. apply list_fmap_ext.
    intros i x _. apply key_f. }
  symmetry. apply (ascending_is_sorted_by key less less_key).
  - by rewrite E.
  - by rewrite (sorted_by_Permutation less).
  - unfold ascending. rewrite E.
    apply (sorted_by_ascending key less less_key).
Qed.

End sorted_by_fmap.

Section filters_properties.

Variable range_map : forall V : Type, gmap Z V -> list (Z * V).
Hypothesis range_map_spec :
  forall (V : Type) (m : gmap Z V), range_map V m ≡ₚ map_to_list m.

Lemma FilterShipTypes_run types groups st :
  FilterShipTypes range_map types groups st
  = let l := filter_ship_types (ship_group_ids (range_map _ (entries st groups)))
               (range_map _ (entries st types)) in
    match l with
    | [] => (nil_slice, st)
    | _ => (slice_at (length st), st ++ [arr (sorted_by less_InvType l)])
    end.
Proof.
  exact (appended_sorted_run less_InvType
           (filter_ship_types (ship_group_ids (range_map _ (entries st groups)))
              (range_map _ (entries st types))) st).
Qed.

Lemma FilterShipGroups_run groups st :
  FilterShipGroups range_map groups st
  = let l := filter_ship_groups (range_map _ (entries st groups)) in
    match l with
    | [] => (nil_slice, st)
    | _ => (slice_at (length st), st ++ [arr (sorted_by less_InvGroup l)])
    end.
Proof.
  exact (appended_sorted_run less_InvGroup
           (filter_ship_groups (range_map _ (entries st groups))) st).
Qed.

Lemma sorted_by_eq_nil {T} (less : T -> T -> bool) (l : list T) :
  sorted_by less l = [] -> l = [].
Proof.
  intros E. apply Permutation_nil_r. rewrite <- E. symmetry.
  apply merge_sort_Permutation.
Qed.

(** X1. [FilterShipTypes] returns the types [transformShipTypes] returns, in
    the same order, with the [Published] flag cleared: the types of the map
    whose group is a group of category 6, each once, in strictly ascending
    order of TypeID, whatever the order of iteration over the maps. It
    returns [nil] and allocates nothing when no type is a ship, and a new
    array otherwise. *)
Theorem FilterShipTypes_agrees
    (types : gomap SDEType.t) (groups : gomap SDEGroup.t) (st : Store) :
  let gm := entries st groups in
  let tm := entries st types in
  let rf := FilterShipTypes range_map types groups st in
  let rt := transformShipTypes range_map types groups st in
  let ships : list InvType.t := elems rf.2 rf.1 in
  let outTypes : list InvType.t := elems rt.2 rt.1 in
  ships = unpublished <$> outTypes
  /\ (forall t, t ∈ ships
        <-> exists i ty, tm !! i = Some ty /\ in_ship_group gm ty
                         /\ t = filter_ship_type i ty)
  /\ strictly_ascending InvType.TypeID ships
  /\ ships = sorted_by less_InvType
               (filter_ship_types (ship_group_ids (map_to_list gm)) (map_to_list tm))
  /\ (ships = [] -> rf = (nil_slice, st))
  /\ (ships <> [] -> rf = (slice_at (length st), st ++ [arr ships])).
Proof.
  intros gm tm rf rt ships outTypes.
  set (L := ship_types (ship_group_ids (range_map _ gm)) (range_map _ tm)).
  assert (ND : NoDup (InvType.TypeID <$> L))
    by apply (ship_types_NoDup range_map range_map_spec).
  assert (ET : outTypes = sorted_by less_InvType L).
  { subst outTypes rt. rewrite transformShipTypes_run. apply elems_new. }
  assert (EF : ships = sorted_by less_InvType (unpublished <$> L)).
  { subst ships rf L. rewrite <- filter_ship_types_fmap.
    exact (appended_sorted_elems less_InvType _ st). }
  assert (E1 : ships = unpublished <$> outTypes).
  { rewrite EF, ET. by apply (sorted_by_fmap InvType.TypeID). }
  split; [exact E1|]. split.
  { assert (ML : forall t0, t0 ∈ sorted_by less_InvType L
       <-> exists i ty, tm !! i = Some ty /\ in_ship_group gm ty /\ t0 = ship_type i ty).
    { intros t0. rewrite (sorted_by_Permutation less_InvType).
      apply (ship_types_elem_of range_map range_map_spec). }
    intros t. rewrite E1, ET, list_elem_of_fmap. split.
    - intros (t0 & -> & (i & ty & Hl & Hg & ->)%ML). exists i, ty.
      by rewrite filter_ship_type_unpublished.
    - intros (i & ty & Hl & Hg & ->). exists (ship_type i ty).
      rewrite filter_ship_type_unpublished. split; [done|]. apply ML.
      by exists i, ty. }
  split.
  { rewrite E1, ET. unfold strictly_ascending. rewrite <- list_fmap_compose.
    apply (ascending_NoDup_strictly InvType.TypeID (sorted_by less_InvType L)).
    - by rewrite (sorted_by_Permutation less_InvType).
    - by apply (sorted_by_ascending InvType.TypeID less_InvType). }
  split.
  { rewrite EF. unfold L. rewrite <- !filter_ship_types_fmap.
    apply (sorted_by_unique InvType.TypeID); [done|..].
    - rewrite filter_ship_types_fmap, <- list_fmap_compose. exact ND.
    - rewrite !filter_ship_types_fmap. apply fmap_Permutation.
      rewrite (ship_group_ids_Permutation _ _ (range_map_spec _ gm)).
      rewrite !ship_types_omap. by rewrite range_map_spec. }
  assert (Erun := FilterShipTypes_run types groups st). fold gm tm rf in Erun.
  cbv zeta in Erun. rewrite filter_ship_types_fmap in Erun. fold L in Erun. split.
  - intros E0. rewrite EF in E0. apply sorted_by_eq_nil in E0.
    by rewrite E0 in Erun.
  - intros Hne. rewrite EF in Hne |- *.
    destruct (unpublished <$> L) as [|y l]; [by rewrite sorted_by_nil in Hne|done].
Qed.

(** X2. [FilterShipGroups] returns the groups [transformShipGroups] returns,
    in the same order: the groups of category 6, each once, in strictly
    ascending order of GroupID. Unlike [transformShipGroups], which always
    returns a new array, it returns [nil] and allocates nothing when the map
    has no ship group. *)
Theorem FilterShipGroups_agrees (groups : gomap SDEGroup.t) (st : Store) :
  let gm := entries st groups in
  let rf := FilterShipGroups range_map groups st in
  let rt := transformShipGroups range_map groups st in
  let shipGroups : list InvGroup.t := elems rf.2 rf.1 in
  let outGroups : list InvGroup.t := elems rt.2 rt.1 in
  shipGroups = outGroups
  /\ (forall g, g ∈ shipGroups
        <-> exists i sg, gm !! i = Some sg /\ is_ship_group sg
                         /\ g = filter_ship_group i sg)
  /\ strictly_ascending InvGroup.GroupID shipGroups
  /\ rt.1 = slice_at (length st)
  /\ (shipGroups = [] -> rf = (nil_slice, st))
  /\ (shipGroups <> [] -> rf = rt).
Proof.
  intros gm rf rt shipGroups outGroups.
  set (L := ship_groups (range_map _ gm)).
  assert (ND : NoDup (InvGroup.GroupID <$> L))
    by apply (ship_groups_NoDup range_map range_map_spec).
  assert (Ert : rt = (slice_at (length st), st ++ [arr (sorted_by less_InvGroup L)]))
    by apply transformShipGroups_run.
  assert (ET : outGroups = sorted_by less_InvGroup L).
  { subst outGroups. rewrite Ert. apply elems_new. }
  assert (EF : shipGroups = sorted_by less_InvGroup L).
  { subst shipGroups rf L. rewrite <- filter_ship_groups_ship_groups.
    exact (appended_sorted_elems less_InvGroup _ st). }
  split; [by rewrite EF, ET|]. split.
  { intros g. rewrite EF, (sorted_by_Permutation less_InvGroup).
    unfold L. rewrite (ship_groups_elem_of range_map range_map_spec).
    by setoid_rewrite filter_ship_group_ship_group. }
  split.
  { rewrite EF. apply (ascending_NoDup_strictly InvGroup.GroupID).
    - by rewrite (sorted_by_Permutation less_InvGroup).
    - by apply (sorted_by_ascending InvGroup.GroupID less_InvGroup). }
  split; [by rewrite Ert|].
  assert (Erun := FilterShipGroups_run groups st). fold gm rf in Erun.
  cbv zeta in Erun. rewrite filter_ship_groups_ship_groups in Erun. fold L in Erun.
  split.
  - intros E0. rewrite EF in E0. apply sorted_by_eq_nil in E0.
    by rewrite E0 in Erun.
  - intros Hne. rewrite EF in Hne. rewrite Ert.
    destruct L as [|y l]; [by rewrite sorted_by_nil in Hne|done].
Qed.

End filters_properties.

(** ** The filters that build a map *)

Section fold_select.
Context {V : Type} (P : V -> bool).

Let select (l : list (Z * V)) : gmap Z V :=
  fold_left (fun m '(k, v) => if P v then <[k := v]> m else m) l ∅.

(** A loop that copies the selected entries of a map has, in the end, copied
    exactly those. *)
Lemma fold_select_lookup (l : list (Z * V)) (i : Z) (v : V) :
  NoDup l.*1 -> select l !! i = Some v <-> (i, v) ∈ l /\ P v = true.
Proof.
  induction l as [|[k x] l IH] using rev_ind.
  { intros _. unfold select. simpl. rewrite lookup_empty, elem_of_nil. naive_solver. }
  rewrite fmap_app. intros (ND & Hk & _)%NoDup_app. specialize (IH ND).
  assert (Hnk : forall y, (k, y) ∉ l).
  { intros y Hin. apply (Hk k); [|simpl; left].
    apply list_elem_of_fmap. by exists (k, y). }
  unfold select in *. rewrite fold_left_app. simpl.
  rewrite elem_of_app, list_elem_of_singleton.
  destruct (P x) eqn:Px.
  - rewrite lookup_insert_Some, IH. split.
    + intros [[-> ->]|[Hne [Hin Pv]]]; [by split; [right|]|by split; [left|]].
    + intros [[Hin|[= -> ->]] Pv]; [right|by left].
      split; [|done]. intros ->. by apply (Hnk v).
  - rewrite IH. split; [by intros [? ?]; split; [left|]|].
    intros [[Hin|[= -> ->]] Pv]; [done|congruence].
Qed.

End fold_select.

Lemma entries_new {V} `{MapVal V} (st : Store) (m : gmap Z V) :
  entries (st ++ [tbl m]) (map_at (length st)) = m.
Proof. apply entries_lookup. by rewrite lookup_app_r, Nat.sub_diag. Qed.

Lemma ascending_filter {T} (key : T -> Z) (P : T -> Prop) `{forall x, Decision (P x)}
    (l : list T) :
  ascending key l -> ascending key (filter P l).
Proof.
  unfold ascending. induction l as [|x l IH]; [done|].
  rewrite fmap_cons. intros [S F]%StronglySorted_inv.
  rewrite filter_cons. case_decide; [|by apply IH].
  rewrite fmap_cons. constructor; [by apply IH|].
  rewrite Forall_fmap in F |- *. rewrite Forall_forall in F |- *.
  intros y [_ Hy]%list_elem_of_filter. by apply F.
Qed.

Section map_filters_properties.

Variable range_map : forall V : Type, gmap Z V -> list (Z * V).
Hypothesis range_map_spec :
  forall (V : Type) (m : gmap Z V), range_map V m ≡ₚ map_to_list m.

Lemma published_types_lookup (tm : gmap Z SDEType.t) i v :
  published_types (range_map _ tm) !! i = Some v
  <-> tm !! i = Some v /\ SDEType.Published v = true.
Proof.
  unfold published_types.
  rewrite (fold_select_lookup SDEType.Published)
    by apply (range_map_NoDup range_map range_map_spec).
  by rewrite (range_map_lookup range_map range_map_spec).
Qed.

Lemma published_groups_lookup (gm : gmap Z SDEGroup.t) i v :
  published_groups (range_map _ gm) !! i = Some v
  <-> gm !! i = Some v /\ SDEGroup.Published v = true.
Proof.
  unfold published_groups.
  rewrite (fold_select_lookup SDEGroup.Published)
    by apply (range_map_NoDup range_map range_map_spec).
  by rewrite (range_map_lookup range_map range_map_spec).
Qed.

Lemma IsBlueLootBuyer_true corpID : IsBlueLootBuyer corpID = true <-> corpID = 1000137.
Proof.
  unfold IsBlueLootBuyer, blueLootBuyerCorpIDs.
  destruct (decide (corpID = 1000137)) as [->|Hne].
  - by rewrite lookup_singleton_eq.
  - rewrite lookup_singleton_ne by done. simpl. split; [done|by intros].
Qed.

Lemma blue_loot_stations_lookup (sm : gmap Z SDENPCStation.t) i s :
  blue_loot_stations (range_map _ sm) !! i = Some s
  <-> sm !! i = Some s /\ SDENPCStation.OwnerID s = 1000137.
Proof.
  unfold blue_loot_stations.
  rewrite (fold_select_lookup (fun s => IsBlueLootBuyer (SDENPCStation.OwnerID s)))
    by apply (range_map_NoDup range_map range_map_spec).
  by rewrite (range_map_lookup range_map range_map_spec), IsBlueLootBuyer_true.
Qed.

Lemma npc_stations_elem_of corps (sm : gmap Z SDENPCStation.t) n :
  n ∈ npc_stations corps (range_map _ sm)
  <-> exists i s, sm !! i = Some s /\ n = npc_station corps i s.
Proof.
  rewrite npc_stations_fmap, list_elem_of_fmap. split.
  - intros ([i s] & -> & Hin). exists i, s.
    by rewrite <- (range_map_lookup range_map range_map_spec).
  - intros (i & s & Hl & ->). exists (i, s).
    by rewrite (range_map_lookup range_map range_map_spec).
Qed.

Lemma npc_station_fields corps i s :
  let n := npc_station corps i s in
  NPCStation.StationID n = i
  /\ NPCStation.SolarSystemID n = SDENPCStation.SolarSystemID s
  /\ NPCStation.OwnerID n = SDENPCStation.OwnerID s
  /\ NPCStation.TypeID n = SDENPCStation.TypeID s
  /\ NPCStation.OwnerName n = owner_name corps (SDENPCStation.OwnerID s).
Proof.
  simpl. unfold owner_name. repeat split.
Qed.

(** X3. [transformNPCStations] returns one station for every entry of the
    station map and nothing else, in strictly ascending order of StationID,
    whatever the order of iteration: the StationID is the key of the entry,
    the system, the owner and the type are copied, and the owner name is the
    English name of the owner in the corporation map, or the empty string
    when the corporation or its English name is missing. *)
Theorem transformNPCStations_joins_owner
    (stations : gomap SDENPCStation.t) (corps : gomap SDENPCCorporation.t)
    (st : Store) :
  let sm := entries st stations in
  let cm := entries st corps in
  let r := transformNPCStations range_map stations corps st in
  let out : list NPCStation.t := elems r.2 r.1 in
  r = (slice_at (length st), st ++ [arr out])
  /\ (forall n, n ∈ out <-> exists i s, sm !! i = Some s /\ n = npc_station cm i s)
  /\ (forall i s,
        let n := npc_station cm i s in
        NPCStation.StationID n = i
        /\ NPCStation.SolarSystemID n = SDENPCStation.SolarSystemID s
        /\ NPCStation.OwnerID n = SDENPCStation.OwnerID s
        /\ NPCStation.TypeID n = SDENPCStation.TypeID s
        /\ NPCStation.OwnerName n = owner_name cm (SDENPCStation.OwnerID s))
  /\ strictly_ascending NPCStation.StationID out
  /\ length out = size sm
  /\ out = sorted_by less_NPCStation (npc_stations cm (map_to_list sm)).
Proof.
  intros sm cm r out.
  set (L := npc_stations cm (range_map _ sm)).
  assert (Er : r = (slice_at (length st), st ++ [arr (sorted_by less_NPCStation L)]))
    by apply transformNPCStations_run.
  assert (Eo : out = sorted_by less_NPCStation L).
  { subst out. rewrite Er. apply elems_new. }
  assert (ND : NoDup (NPCStation.StationID <$> L))
    by apply (npc_stations_NoDup range_map range_map_spec).
  split; [by rewrite Eo|]. split.
  { intros n. rewrite Eo, (sorted_by_Permutation less_NPCStation).
    apply npc_stations_elem_of. }
  split; [apply npc_station_fields|]. split.
  { rewrite Eo. apply (ascending_NoDup_strictly NPCStation.StationID).
    - by rewrite (sorted_by_Permutation less_NPCStation).
    - by apply (sorted_by_ascending NPCStation.StationID less_NPCStation). }
  split.
  { rewrite Eo, (sorted_by_Permutation less_NPCStation). unfold L.
    rewrite npc_stations_fmap, length_fmap, range_map_spec.
    apply length_map_to_list. }
  rewrite Eo. apply (sorted_by_unique NPCStation.StationID); [done|exact ND|].
  unfold L. rewrite !npc_stations_fmap. by rewrite range_map_spec.
Qed.

Lemma transformShipTypes_elems types groups st :
  let r := transformShipTypes range_map types groups st in
  elems r.2 r.1
  = sorted_by less_InvType
      (ship_types (ship_group_ids (range_map _ (entries st groups)))
         (range_map _ (entries st types))).
Proof. intros r. subst r. rewrite transformShipTypes_run. apply elems_new. Qed.

(** X4. [FilterPublishedTypes] returns a new map that holds exactly the
    entries of [types] whose [Published] flag is set, whatever the order of
    iteration; [types] itself is not written to. Filtering twice is
    filtering once, and filtering before [transformShipTypes] gives the
    published ones of the types [transformShipTypes] gives without it. *)
Theorem FilterPublishedTypes_selects
    (types : gomap SDEType.t) (groups : gomap SDEGroup.t) (st : Store) :
  let tm := entries st types in
  let r := FilterPublishedTypes range_map types st in
  let published := entries r.2 r.1 in
  r = (map_at (length st), st ++ [tbl published])
  /\ (forall i v, published !! i = Some v
        <-> tm !! i = Some v /\ SDEType.Published v = true)
  /\ published ⊆ tm
  /\ (let r2 := FilterPublishedTypes range_map r.1 r.2 in
      entries r2.2 r2.1 = published)
  /\ (valid_map st groups ->
      let rt := transformShipTypes range_map r.1 groups r.2 in
      let rt0 := transformShipTypes range_map types groups st in
      elems rt.2 rt.1
      = filter (fun t => InvType.Published t = true) (elems rt0.2 rt0.1)).
Proof.
  intros tm r published.
  assert (Er : r = (map_at (length st),
                    st ++ [tbl (published_types (range_map _ tm))])) by done.
  assert (Ep : published = published_types (range_map _ tm)).
  { subst published. rewrite Er. apply entries_new. }
  assert (Hl : forall i v, published !! i = Some v
                 <-> tm !! i = Some v /\ SDEType.Published v = true).
  { intros i v. rewrite Ep. apply published_types_lookup. }
  split; [by rewrite Ep|]. split; [exact Hl|]. split.
  { apply map_subseteq_spec. intros i v Hi. by apply Hl in Hi as [? _]. }
  split.
  { intros r2.
    assert (Er2 : r2 = (map_at (length r.2),
                        r.2 ++ [tbl (published_types (range_map _ published))]))
      by done.
    rewrite Er2. cbn [fst snd]. rewrite entries_new.
    apply map_eq. intros i. apply option_eq. intros v.
    rewrite published_types_lookup, !Hl. naive_solver. }
  intros Hg rt rt0.
  set (ids := ship_group_ids (range_map _ (entries st groups))).
  assert (Ert : elems rt.2 rt.1
    = sorted_by less_InvType (ship_types ids (range_map _ published))).
  { subst rt. rewrite transformShipTypes_elems. fold published. subst ids.
    by rewrite (valid_map_keeps st r.2 groups)
      by (done || rewrite Er; apply keeps_app). }
  assert (Ert0 : elems rt0.2 rt0.1
    = sorted_by less_InvType (ship_types ids (range_map _ tm))).
  { subst rt0. apply transformShipTypes_elems. }
  rewrite Ert, Ert0. symmetry.
  set (L0 := ship_types ids (range_map _ tm)).
  set (L := ship_types ids (range_map _ published)).
  assert (ND0 : NoDup (InvType.TypeID <$> L0))
    by apply (ship_types_NoDup range_map range_map_spec).
  assert (ND : NoDup (InvType.TypeID <$> L))
    by apply (ship_types_NoDup range_map range_map_spec).
  apply (ascending_is_sorted_by InvType.TypeID less_InvType); [done|exact ND| |].
  - apply NoDup_Permutation.
    + apply NoDup_filter. rewrite (sorted_by_Permutation less_InvType).
      by apply (NoDup_fmap_1 InvType.TypeID).
    + by apply (NoDup_fmap_1 InvType.TypeID).
    + intros t. rewrite list_elem_of_filter, (sorted_by_Permutation less_InvType).
      unfold L0, L, ids.
      rewrite !(ship_types_elem_of range_map range_map_spec). split.
      * intros [Pt (i & ty & Hi & Hs & ->)]. exists i, ty.
        split; [by apply Hl|done].
      * intros (i & ty & [Hi Pt]%Hl & Hs & ->). split; [done|]. by exists i, ty.
  - apply ascending_filter.
    by apply (sorted_by_ascending InvType.TypeID less_InvType).
Qed.

(** X5. [FilterPublishedGroups] returns a new map that holds exactly the
    entries of [groups] whose [Published] flag is set, whatever the order of
    iteration; [groups] itself is not written to, and filtering twice is
    filtering once. *)
Theorem FilterPublishedGroups_selects (groups : gomap SDEGroup.t) (st : Store) :
  let gm := entries st groups in
  let r := FilterPublishedGroups range_map groups st in
  let published := entries r.2 r.1 in
  r = (map_at (length st), st ++ [tbl published])
  /\ (forall i v, published !! i = Some v
        <-> gm !! i = Some v /\ SDEGroup.Published v = true)
  /\ published ⊆ gm
  /\ (let r2 := FilterPublishedGroups range_map r.1 r.2 in
      entries r2.2 r2.1 = published).
Proof.
  intros gm r published.
  assert (Er : r = (map_at (length st),
                    st ++ [tbl (published_groups (range_map _ gm))])) by done.
  assert (Ep : published = published_groups (range_map _ gm)).
  { subst published. rewrite Er. apply entries_new. }
  assert (Hl : forall i v, published !! i = Some v
                 <-> gm !! i = Some v /\ SDEGroup.Published v = true).
  { intros i v. rewrite Ep. apply published_groups_lookup. }
  split; [by rewrite Ep|]. split; [exact Hl|]. split.
  { apply map_subseteq_spec. intros i v Hi. by apply Hl in Hi as [? _]. }
  intros r2.
  assert (Er2 : r2 = (map_at (length r.2),
                      r.2 ++ [tbl (published_groups (range_map _ published))]))
    by done.
  rewrite Er2. cbn [fst snd]. rewrite entries_new.
  apply map_eq. intros i. apply option_eq. intros v.
  rewrite published_groups_lookup, !Hl. naive_solver.
Qed.

(** X6. [FilterBlueLootStations] returns a new map that holds exactly the
    stations owned by the corporation 1000137, the only blue loot buyer.
    [ParseAll] hands this map to [transformNPCStations]: every station that
    then comes out is owned by 1000137 and carries one and the same owner
    name, and there is one for every such station of the input. *)
Theorem FilterBlueLootStations_selects
    (stations : gomap SDENPCStation.t) (corps : gomap SDENPCCorporation.t)
    (st : Store) :
  let sm := entries st stations in
  let r := FilterBlueLootStations range_map stations st in
  let filtered := entries r.2 r.1 in
  r = (map_at (length st), st ++ [tbl filtered])
  /\ (forall i s, filtered !! i = Some s
        <-> sm !! i = Some s /\ SDENPCStation.OwnerID s = 1000137)
  /\ (forall corpID, IsBlueLootBuyer corpID = true <-> corpID = 1000137)
  /\ (valid_map st corps ->
      let rn := transformNPCStations range_map r.1 corps r.2 in
      let out : list NPCStation.t := elems rn.2 rn.1 in
      (forall n, n ∈ out ->
         NPCStation.OwnerID n = 1000137
         /\ NPCStation.OwnerName n = owner_name (entries st corps) 1000137)
      /\ (forall i s, sm !! i = Some s -> SDENPCStation.OwnerID s = 1000137 ->
            exists n, n ∈ out /\ NPCStation.StationID n = i)
      /\ length out = size filtered).
Proof.
  intros sm r filtered.
  assert (Er : r = (map_at (length st),
                    st ++ [tbl (blue_loot_stations (range_map _ sm))])) by done.
  assert (Ep : filtered = blue_loot_stations (range_map _ sm)).
  { subst filtered. rewrite Er. apply entries_new. }
  assert (Hl : forall i s, filtered !! i = Some s
                 <-> sm !! i = Some s /\ SDENPCStation.OwnerID s = 1000137).
  { intros i s. rewrite Ep. apply blue_loot_stations_lookup. }
  split; [by rewrite Ep|]. split; [exact Hl|].
  split; [apply IsBlueLootBuyer_true|].
  intros Hc rn out.
  assert (Ec : entries r.2 corps = entries st corps).
  { apply valid_map_keeps; [|done]. rewrite Er. apply keeps_app. }
  set (L := npc_stations (entries st corps) (range_map _ filtered)).
  assert (Eo : out = sorted_by less_NPCStation L).
  { subst out rn. rewrite transformNPCStations_run. cbn [fst snd].
    rewrite elems_new. fold filtered. by rewrite Ec. }
  assert (Hin : forall n, n ∈ out
     <-> exists i s, filtered !! i = Some s /\ n = npc_station (entries st corps) i s).
  { intros n. rewrite Eo, (sorted_by_Permutation less_NPCStation).
    apply npc_stations_elem_of. }
  split; [|split].
  - intros n (i & s & [Hs Ho]%Hl & ->)%Hin.
    destruct (npc_station_fields (entries st corps) i s) as (_ & _ & E1 & _ & E2).
    by rewrite E1, E2, Ho.
  - intros i s Hs Ho. exists (npc_station (entries st corps) i s).
    split; [|done]. apply Hin. exists i, s. split; [|done]. by apply Hl.
  - rewrite Eo, (sorted_by_Permutation less_NPCStation). unfold L.
    rewrite npc_stations_fmap, length_fmap, range_map_spec.
    apply length_map_to_list.
Qed.

End map_filters_properties.

(** ** The whole of [Transform], and [Validate] after it *)

Section Transform_whole.

Variable range_map : forall V : Type, gmap Z V -> list (Z * V).
Hypothesis range_map_spec :
  forall (V : Type) (m : gmap Z V), range_map V m ≡ₚ map_to_list m.

(** The slices of the result in terms of the collections of a valid input. *)
Lemma Transform_elems (parseResult : ParseResult.t) (st : Store) :
  valid_input st parseResult ->
  let r := Transform range_map parseResult st in
  let data := r.1.1 in
  let universe := ConvertedData.Universe data in
  let S := sorted_by less_SolarSystem (elems st (ParseResult.SolarSystems parseResult)) in
  let gm := entries st (ParseResult.Groups parseResult) in
  exists S' : list SolarSystem.t,
    Forall2 same_but_faction S S'
    /\ r.1.2 = None
    /\ elems r.2 (UniverseData.SolarSystems universe) = S'
    /\ elems r.2 (UniverseData.Regions universe)
       = region_with_bounds (systems_by SolarSystem.RegionID S)
         <$> sorted_by less_Region (elems st (ParseResult.Regions parseResult))
    /\ elems r.2 (UniverseData.Constellations universe)
       = constellation_with_bounds (systems_by SolarSystem.ConstellationID S)
         <$> sorted_by less_Constellation
               (elems st (ParseResult.Constellations parseResult))
    /\ elems r.2 (ConvertedData.InvGroups data)
       = sorted_by less_InvGroup (ship_groups (range_map _ gm))
    /\ elems r.2 (ConvertedData.InvTypes data)
       = sorted_by less_InvType
           (ship_types (ship_group_ids (range_map _ gm))
              (range_map _ (entries st (ParseResult.Types parseResult))))
    /\ elems r.2 (ConvertedData.WormholeClasses data)
       = sorted_by less_WormholeClass
           (elems st (ParseResult.WormholeClasses parseResult))
    /\ elems r.2 (ConvertedData.SystemJumps data)
       = sorted_by less_SystemJump
           (enrich_jump (system_lookup S)
              <$> elems st (ParseResult.SystemJumps parseResult))
    /\ elems r.2 (ConvertedData.NPCStations data)
       = sorted_by less_NPCStation
           (npc_stations (entries st (ParseResult.NPCCorporations parseResult))
              (range_map _ (entries st (ParseResult.NPCStations parseResult)))).
Proof.
  intros (VR & VC & VS & VT & VG & VCat & VW & VJ & VN & VCo) r data universe S gm.
  subst universe data r.
  destruct (Transform_run range_map parseResult st) as (S' & cells & HS' & Hcells & E).
  cbv zeta in E. rewrite E. clear E.
  cbn [fst snd ConvertedData.Universe
    UniverseData.SolarSystems UniverseData.Regions UniverseData.Constellations
    ConvertedData.InvGroups ConvertedData.InvTypes ConvertedData.WormholeClasses
    ConvertedData.SystemJumps ConvertedData.NPCStations].
  rewrite !(valid_slice_keeps st (st ++ _)) by (done || apply keeps_app).
  rewrite !(valid_map_keeps st (st ++ _)) by (done || apply keeps_app).
  exists S'. split; [exact HS'|]. split; [done|].
  split; [by rewrite <- (app_assoc st); apply elems_app_0|].
  split; [by rewrite <- (app_assoc st); apply (elems_app_plus st _ 1)|].
  split; [by rewrite <- (app_assoc st); apply (elems_app_plus st _ 2)|].
  split; [by rewrite <- (app_assoc st); apply (elems_app_plus st _ 3)|].
  split; [by rewrite <- (app_assoc st); apply (elems_app_plus st _ 4)|].
  split; [by rewrite <- (app_assoc st); apply (elems_app_plus st _ 5)|].
  split; [by rewrite <- (app_assoc st); apply (elems_app_plus st _ 6)|].
  match goal with |- elems (?s ++ _) _ = _ =>
    replace (length st + (7 + length cells))%nat with (length s)
      by (rewrite length_app; simpl; lia)
  end.
  apply elems_new.
Qed.

Lemma Validate_counts (data : ConvertedData.t) (st : Store) :
  let v := (Validate data st).1 in
  let universe := ConvertedData.Universe data in
  ValidationResult.SolarSystems v = len (elems st (UniverseData.SolarSystems universe))
  /\ ValidationResult.Regions v = len (elems st (UniverseData.Regions universe))
  /\ ValidationResult.Constellations v
     = len (elems st (UniverseData.Constellations universe))
  /\ ValidationResult.InvTypes v = len (elems st (ConvertedData.InvTypes data))
  /\ ValidationResult.InvGroups v = len (elems st (ConvertedData.InvGroups data))
  /\ ValidationResult.SystemJumps v = len (elems st (ConvertedData.SystemJumps data))
  /\ ValidationResult.WormholeClasses v
     = len (elems st (ConvertedData.WormholeClasses data))
  /\ ValidationResult.NPCStations v = len (elems st (ConvertedData.NPCStations data)).
Proof. done. Qed.

Lemma Validate_valid (data : ConvertedData.t) (st : Store) :
  let universe := ConvertedData.Universe data in
  ValidationResult.IsValid (Validate data st).1 = true
  <-> elems st (UniverseData.SolarSystems universe) <> []
      /\ elems st (UniverseData.Regions universe) <> []
      /\ elems st (UniverseData.Constellations universe) <> [].
Proof.
  intros universe. unfold ValidationResult.IsValid, Validate. run. simpl.
  rewrite !error_if_empty_when, bool_decide_eq_true. unfold when, len. fold universe.
  destruct (elems st (UniverseData.SolarSystems universe)),
    (elems st (UniverseData.Regions universe)),
    (elems st (UniverseData.Constellations universe)); simpl; naive_solver.
Qed.

Lemma length_sorted_by {T} (less : T -> T -> bool) (l : list T) :
  length (sorted_by less l) = length l.
Proof. apply Permutation_length, merge_sort_Permutation. Qed.

Lemma length_omap_filter {A B} (g : A -> option B) (P : A -> bool) (l : list A) :
  (forall x, is_Some (g x) <-> P x = true) ->
  length (omap g l) = length (filter (fun x => P x = true) l).
Proof.
  intros HP. induction l as [|x l IH]; [done|].
  csimpl. rewrite filter_cons. specialize (HP x).
  destruct (g x) as [y|]; case_decide as HPx; simpl; rewrite ?IH; try done.
  - exfalso. apply HPx, HP. by eexists.
  - apply HP in HPx as [? [=]].
Qed.

Lemma ship_group_in_true (gm : gmap Z SDEGroup.t) g :
  ship_group_in gm g = true
  <-> exists sg, gm !! g = Some sg /\ SDEGroup.CategoryID sg = ShipCategoryID.
Proof.
  unfold ship_group_in. destruct (gm !! g) as [sg|].
  - rewrite bool_decide_eq_true. naive_solver.
  - naive_solver.
Qed.

Lemma ship_groups_count (gm : gmap Z SDEGroup.t) :
  len (ship_groups (range_map _ gm))
  = count_entries (fun e => bool_decide (SDEGroup.CategoryID e.2 = ShipCategoryID)) gm.
Proof.
  unfold count_entries, len. f_equal.
  rewrite ship_groups_omap, <- (range_map_spec _ gm).
  apply length_omap_filter. intros [i sg]. unfold select_group. simpl.
  rewrite bool_decide_eq_true. case_decide; [|split; [by intros [? [=]]|done]].
  split; [done|by eexists].
Qed.

Lemma ship_types_count (gm : gmap Z SDEGroup.t) (tm : gmap Z SDEType.t) :
  len (ship_types (ship_group_ids (range_map _ gm)) (range_map _ tm))
  = count_entries (fun e => ship_group_in gm (SDEType.GroupID e.2)) tm.
Proof.
  unfold count_entries, len. f_equal.
  rewrite ship_types_omap, <- (range_map_spec _ tm).
  apply length_omap_filter. intros [i ty]. unfold select_type. simpl.
  rewrite ship_group_in_true.
  destruct (default false _) eqn:E.
  - apply ship_group_ids_true in E as (sg & Hin & Hc).
    apply (range_map_lookup range_map range_map_spec) in Hin.
    split; [by exists sg|by eexists].
  - split; [by intros [? [=]]|]. intros (sg & Hl & Hc).
    assert (default false
              (ship_group_ids (range_map _ gm) !! SDEType.GroupID ty) = true);
      [|congruence].
    apply ship_group_ids_true. exists sg.
    by rewrite (range_map_lookup range_map range_map_spec).
Qed.

(** X7. [Validate] after [Transform]: [Transform] returns no error, and the
    counts [Validate] reports are those of the input. The counts of solar
    systems, regions, constellations, wormhole classes and system jumps are
    the lengths of the input slices; the count of NPC stations is the size
    of the station map; the count of groups is the number of groups of
    category 6, and the count of types the number of types whose group is
    such a group. The result is valid exactly when the input has a solar
    system, a region and a constellation. [Validate] writes nothing. *)
Theorem Transform_then_Validate (parseResult : ParseResult.t) (st : Store) :
  valid_input st parseResult ->
  let r := Transform range_map parseResult st in
  let rv := Validate r.1.1 r.2 in
  let v := rv.1 in
  let gm := entries st (ParseResult.Groups parseResult) in
  r.1.2 = None
  /\ rv.2 = r.2
  /\ ValidationResult.SolarSystems v
     = len (elems st (ParseResult.SolarSystems parseResult))
  /\ ValidationResult.Regions v = len (elems st (ParseResult.Regions parseResult))
  /\ ValidationResult.Constellations v
     = len (elems st (ParseResult.Constellations parseResult))
  /\ ValidationResult.WormholeClasses v
     = len (elems st (ParseResult.WormholeClasses parseResult))
  /\ ValidationResult.SystemJumps v
     = len (elems st (ParseResult.SystemJumps parseResult))
  /\ ValidationResult.NPCStations v
     = Z.of_nat (size (entries st (ParseResult.NPCStations parseResult)))
  /\ ValidationResult.InvGroups v
     = count_entries
         (fun e => bool_decide (SDEGroup.CategoryID e.2 = ShipCategoryID)) gm
  /\ ValidationResult.InvTypes v
     = count_entries (fun e => ship_group_in gm (SDEType.GroupID e.2))
         (entries st (ParseResult.Types parseResult))
  /\ (ValidationResult.IsValid v = true
      <-> elems st (ParseResult.SolarSystems parseResult) <> []
          /\ elems st (ParseResult.Regions parseResult) <> []
          /\ elems st (ParseResult.Constellations parseResult) <> []).
Proof.
  intros Hv r rv v gm.
  destruct (Transform_elems parseResult st Hv)
    as (S' & HS' & Hnil & ES & ER & EC & EG & ET & EW & EJ & EN).
  fold r in Hnil, ES, ER, EC, EG, ET, EW, EJ, EN. fold gm in EG, ET.
  destruct (Validate_counts r.1.1 r.2)
    as (VS & VR & VC & VT & VG & VJ & VW & VN).
  fold rv v in VS, VR, VC, VT, VG, VJ, VW, VN.
  assert (LS : length S' = length (elems st (ParseResult.SolarSystems parseResult))).
  { by rewrite <- (Forall2_length _ _ _ HS'), length_sorted_by. }
  split; [exact Hnil|]. split; [done|].
  split; [by rewrite VS, ES; unfold len; rewrite LS|].
  split; [by rewrite VR, ER; unfold len; rewrite length_fmap, length_sorted_by|].
  split; [by rewrite VC, EC; unfold len; rewrite length_fmap, length_sorted_by|].
  split; [by rewrite VW, EW; unfold len; rewrite length_sorted_by|].
  split; [by rewrite VJ, EJ; unfold len; rewrite length_sorted_by, length_fmap|].
  split.
  { rewrite VN, EN. unfold len.
    rewrite length_sorted_by, npc_stations_fmap, length_fmap, range_map_spec.
    by rewrite length_map_to_list. }
  split.
  { rewrite VG, EG, <- ship_groups_count. unfold len. by rewrite length_sorted_by. }
  split.
  { rewrite VT, ET, <- ship_types_count. unfold len. by rewrite length_sorted_by. }
  subst v rv. rewrite Validate_valid, ES, ER, EC.
  assert (N1 : forall {A B} (f : A -> B) (l : list A), f <$> l <> [] <-> l <> []).
  { intros A B f l. by destruct l. }
  assert (N2 : forall {T} (less : T -> T -> bool) (l : list T),
            sorted_by less l <> [] <-> l <> []).
  { intros T less l. split; intros H E; apply H.
    - by rewrite E.
    - by apply sorted_by_eq_nil in E. }
  rewrite !N1, !N2.
  assert (N3 : S' <> [] <-> elems st (ParseResult.SolarSystems parseResult) <> []).
  { rewrite <- !length_zero_iff_nil, LS. done. }
  by rewrite N3.
Qed.

End Transform_whole.
